(** * RoadWatch: signal-processing pipeline and spatial aggregation engine

    A shallow embedding of
      - [functions/src/index.ts]   (geohash, haversine distance, the
        aggregation trigger, the retention sweeper),
      - [src/utils/signalProcessor.ts] (the windowing engine),
      - [src/pages/Dashboard.tsx]  (the detection-save path, the ride
        buttons),
      - [src/services/mlClient.ts] (the classifier and its fallback),
      - [src/services/database.ts] (the client's queries),
      - [src/pages/AdminPage.tsx]  (the figures of the admin page),
    together with the properties the specification states about them and
    further properties of the code.

    Number model.  Every TypeScript [number] is read as a real number
    ([R]): arithmetic is exact and every value is finite (no NaN, no
    infinities, no rounding).  [Math.sqrt], [Math.sin], [Math.cos],
    [Math.log10] are the corresponding functions of the Reals library.
    Array lengths and report counters are natural numbers, injected with
    [INR] where the code mixes them with other numbers.  Strings are
    byte strings compared in byte order, as the document store does.

    The code's numbers are rounded after every operation.  A property
    that equates a result with the code's own expression reads the same
    either way; a property that compares a computed result with another
    number is stated only where the rounding cannot change the outcome:
    the sample threshold of the emission gate for the configurations of
    [Spec.exact_threshold], the range of the distance away from the
    antipode. *)

From Stdlib Require Import Reals Lra String Ascii.
From stdpp Require Import base list sorting gmap strings.


(** ** Comparisons on numbers are decidable propositions *)

#[global] Instance Rlt_decision (x y : R) : Decision (x < y)%R := Rlt_dec x y.
#[global] Instance Rle_decision (x y : R) : Decision (x <= y)%R := Rle_dec x y.
#[global] Instance Rgt_decision (x y : R) : Decision (x > y)%R := Rgt_dec x y.
#[global] Instance Rge_decision (x y : R) : Decision (x >= y)%R := Rge_dec x y.
#[global] Instance Req_decision : EqDecision R := Req_dec_T.

(** * Geo Math *)

Module Geo.

(** ** [encodeGeohash] (functions/src/index.ts, lines 93-132) *)

Definition BASE32 : string := "0123456789bcdefghjkmnpqrstuvwxyz".

(** [BASE32.charAt(idx)]: the one-character string at [idx], the empty
    string out of range. *)
Definition charAt (s : string) (i : nat) : string :=
  match String.get i s with
  | Some c => String c EmptyString
  | None => EmptyString
  end.

(** The local variables of the loop. *)
Record GeoState := mkGeoState {
  idx : nat;
  bit : nat;
  evenBit : bool;
  geohash : string;
  latMin : R; latMax : R;
  lngMin : R; lngMax : R
}.

Definition geo_init : GeoState :=
  {| idx := 0; bit := 0; evenBit := true; geohash := "";
     latMin := (-90)%R; latMax := 90%R;
     lngMin := (-180)%R; lngMax := 180%R |}.

(** The first half of the loop body: one bisection step. *)
Definition bisect (lat lng : R) (s : GeoState) : GeoState :=
  if evenBit s then
    let lngMid := ((lngMin s + lngMax s) / 2)%R in
    if decide (lng >= lngMid)%R
    then {| idx := idx s * 2 + 1; bit := bit s; evenBit := evenBit s;
            geohash := geohash s; latMin := latMin s; latMax := latMax s;
            lngMin := lngMid; lngMax := lngMax s |}
    else {| idx := idx s * 2; bit := bit s; evenBit := evenBit s;
            geohash := geohash s; latMin := latMin s; latMax := latMax s;
            lngMin := lngMin s; lngMax := lngMid |}
  else
    let latMid := ((latMin s + latMax s) / 2)%R in
    if decide (lat >= latMid)%R
    then {| idx := idx s * 2 + 1; bit := bit s; evenBit := evenBit s;
            geohash := geohash s; latMin := latMid; latMax := latMax s;
            lngMin := lngMin s; lngMax := lngMax s |}
    else {| idx := idx s * 2; bit := bit s; evenBit := evenBit s;
            geohash := geohash s; latMin := latMin s; latMax := latMid;
            lngMin := lngMin s; lngMax := lngMax s |}.

(** The second half: flip [evenBit], and every fifth bit emit a character. *)
Definition emit (s : GeoState) : GeoState :=
  let bit' := S (bit s) in
  if Nat.eqb bit' 5
  then {| idx := 0; bit := 0; evenBit := negb (evenBit s);
          geohash := geohash s +:+ charAt BASE32 (idx s);
          latMin := latMin s; latMax := latMax s;
          lngMin := lngMin s; lngMax := lngMax s |}
  else {| idx := idx s; bit := bit'; evenBit := negb (evenBit s);
          geohash := geohash s;
          latMin := latMin s; latMax := latMax s;
          lngMin := lngMin s; lngMax := lngMax s |}.

Definition geo_body (lat lng : R) (s : GeoState) : GeoState :=
  emit (bisect lat lng s).

(** [while (geohash.length < precision) { body }], with fuel: [None] when
    the fuel runs out before the loop condition fails. *)
Fixpoint geo_loop (fuel : nat) (lat lng : R) (precision : nat) (s : GeoState)
  : option string :=
  if Nat.ltb (String.length (geohash s)) precision then
    match fuel with
    | O => None
    | S fuel' => geo_loop fuel' lat lng precision (geo_body lat lng s)
    end
  else Some (geohash s).

(** Five iterations per character are enough ([encodeGeohash_terminates]
    below), so the function is total. *)
Definition encodeGeohash (lat lng : R) (precision : nat) : string :=
  default "" (geo_loop (5 * precision) lat lng precision geo_init).

Arguments encodeGeohash : simpl never.

(** Every byte of [s] is below [b]. *)
Fixpoint below (b : nat) (s : string) : Prop :=
  match s with
  | EmptyString => True
  | String c s' => nat_of_ascii c < b ∧ below b s'
  end.

(** The loop state after [n] iterations (used to reason about the loop). *)
Definition steps (lat lng : R) (n : nat) : GeoState :=
  Nat.iter n (geo_body lat lng) geo_init.

(** Loop invariant after [n] iterations: five bits per emitted character,
    and the accumulated index fits in the bits read so far. *)
Definition geo_inv (n : nat) (s : GeoState) : Prop :=
  String.length (geohash s) * 5 + bit s = n ∧ bit s < 5 ∧ idx s < 2 ^ bit s.

End Geo.

(** * Type contracts (src/types.ts) *)

Inductive DefectType := pothole | speed_breaker | normal.

#[global] Instance DefectType_eq_dec : EqDecision DefectType.
Proof. solve_decision. Defined.

(** A latitude/longitude pair ([{latitude, longitude}], [GeoPoint]). *)
Module LatLng.
Record t := mk { latitude : R; longitude : R }.
End LatLng.

Module SensorReading.
Record Accel := mkAccel { x : R; y : R; z : R }.
Record Gps := mkGps {
    latitude : R; longitude : R; accuracy : R;
    speed : option R          (* [number | null] *)
  }.
Record t := mk { timestamp : R; accelerometer : Accel; gps : Gps }.

#[global] Instance Accel_eq_dec : EqDecision Accel.
Proof. solve_decision. Defined.
#[global] Instance Gps_eq_dec : EqDecision Gps.
Proof. solve_decision. Defined.
#[global] Instance eq_dec : EqDecision t.
Proof. solve_decision. Defined.
End SensorReading.

Module ProcessedWindow.
Record t := mk {
    startTime : R; endTime : R;
    magnitude : R; peakMagnitude : R; averageSpeed : R;
    centroid : LatLng.t;
    sampleCount : nat
  }.
End ProcessedWindow.

Module DetectionResult.
Record t := mk { defectType : DefectType; confidence : R; severity : R }.
End DetectionResult.

Module Detection.
Record t := mk {
    sessionId : string; userId : string;
    timestamp : R;
    location : LatLng.t;
    defectType : DefectType;
    confidence : R; severity : R;
    processedWindow : ProcessedWindow.t
  }.
End Detection.

Module AppConfig.
Record t := mk {
    minSpeedThreshold : R;      (* km/h *)
    windowDurationMs : R;
    magnitudeThreshold : R;
    confidenceThreshold : R;
    sampleRateHz : R;
    aggregationRadiusMeters : R
  }.
End AppConfig.

Definition DEFAULT_CONFIG : AppConfig.t :=
  {| AppConfig.minSpeedThreshold := 5;
     AppConfig.windowDurationMs := 1500;
     AppConfig.magnitudeThreshold := 2.5;
     AppConfig.confidenceThreshold := 0.7;
     AppConfig.sampleRateHz := 60;
     AppConfig.aggregationRadiusMeters := 20 |}%R.

(** * Signal Processor (src/utils/signalProcessor.ts) *)

Module SignalProcessor.
Import SensorReading.

(** The fields of the class.  [windowCallback] records whether a callback
    is registered ([null] or not); the windows it is invoked with are the
    output of [addReading]. *)
Record t := mk {
  config : AppConfig.t;
  buffer : list SensorReading.t;
  windowCallback : bool
}.

(** [new SignalProcessor(config)] *)
Definition new (config : AppConfig.t) : t :=
  {| config := config; buffer := []; windowCallback := false |}.

Definition setWindowCallback (sp : t) : t :=
  {| config := config sp; buffer := buffer sp; windowCallback := true |}.

Definition reset (sp : t) : t :=
  {| config := config sp; buffer := []; windowCallback := windowCallback sp |}.

(** [calculateMagnitude]: total acceleration minus gravity, absolute value. *)
Definition calculateMagnitude (acc : Accel) : R :=
  let gravity := 9.81%R in
  let totalMag := sqrt (x acc ^ 2 + y acc ^ 2 + z acc ^ 2) in
  Rabs (totalMag - gravity).

(** [calculateRMS]: [values.reduce((sum, v) => sum + v ** 2, 0)] is a left
    fold. *)
Definition calculateRMS (values : list R) : R :=
  if decide (length values = 0) then 0%R
  else
    let sumSquares := fold_left (λ sum v, sum + v ^ 2)%R values 0%R in
    sqrt (sumSquares / INR (length values)).

Definition average (values : list R) : R :=
  if decide (length values = 0) then 0%R
  else (fold_left (λ sum v, sum + v)%R values 0%R / INR (length values))%R.

(** [processWindow(readings)] for a non-empty array [readings = r0 :: rest]
    (its only call site is guarded by [windowReadings.length > 0];
    [readings[0]] does not exist otherwise).  [Math.max(...magnitudes)] on
    a non-empty array is the fold of [Rmax] from its first element;
    [map] then [filter(s => s !== null)] is [omap]. *)
Definition processWindow (r0 : SensorReading.t) (rest : list SensorReading.t)
  : ProcessedWindow.t :=
  let readings := r0 :: rest in
  let magnitudes := map (λ r, calculateMagnitude (accelerometer r)) readings in
  let speeds : list R := omap (λ r, speed (gps r)) readings in
  let latitudes := map (λ r, latitude (gps r)) readings in
  let longitudes := map (λ r, longitude (gps r)) readings in
  {| ProcessedWindow.startTime := timestamp r0;
     ProcessedWindow.endTime := timestamp (List.last readings r0);
     ProcessedWindow.magnitude := calculateRMS magnitudes;
     ProcessedWindow.peakMagnitude :=
       fold_left Rmax (map (λ r, calculateMagnitude (accelerometer r)) rest)
                 (calculateMagnitude (accelerometer r0));
     ProcessedWindow.averageSpeed :=
       if decide (0 < length speeds) then (average speeds * 3.6)%R else 0%R;
     ProcessedWindow.centroid :=
       {| LatLng.latitude := average latitudes;
          LatLng.longitude := average longitudes |};
     ProcessedWindow.sampleCount := length readings |}.

(** [shouldEmitWindow].  [expectedSamples] is read as the exact product;
    the code rounds each of its three operations, which gives the same
    number for the configurations of [Spec.exact_threshold] below (the
    default configuration among them: 45) and can give the next number up
    for others (at 1100 ms and 100 Hz the code's threshold is just above
    55). *)
Definition shouldEmitWindow (cfg : AppConfig.t) (window : ProcessedWindow.t) : bool :=
  if decide (ProcessedWindow.averageSpeed window < AppConfig.minSpeedThreshold cfg)%R
  then false
  else if decide (ProcessedWindow.peakMagnitude window < AppConfig.magnitudeThreshold cfg)%R
  then false
  else
    let expectedSamples :=
      ((AppConfig.windowDurationMs cfg / 1000) * AppConfig.sampleRateHz cfg * 0.5)%R in
    if decide (INR (ProcessedWindow.sampleCount window) < expectedSamples)%R
    then false
    else true.

(** [pruneOldReadings]; [now] is the value of [Date.now()] at the call. *)
Definition pruneOldReadings (now : R) (sp : t) : t :=
  let cutoff := (now - AppConfig.windowDurationMs (config sp) * 2)%R in
  {| config := config sp;
     buffer := filter (λ r, timestamp r > cutoff)%R (buffer sp);
     windowCallback := windowCallback sp |}.

(** What one completed window leaves behind: the readings selected for
    it, its summary, and whether the callback was invoked with it
    ([this.windowCallback?.(processed)] does nothing without a callback). *)
Record Completed := mkCompleted {
  windowReadings : list SensorReading.t;
  processed : ProcessedWindow.t;
  called : bool
}.

Definition checkWindowComplete (sp : t) : t * option Completed :=
  match buffer sp with
  | [] | [_] => (sp, None)                       (* buffer.length < 2 *)
  | b0 :: _ :: _ =>
    let D := AppConfig.windowDurationMs (config sp) in
    let windowStart := timestamp b0 in
    let windowEnd := timestamp (List.last (buffer sp) b0) in
    if decide (windowEnd - windowStart >= D)%R then
      let windowReadings :=
        filter (λ r, timestamp r >= windowStart ∧ timestamp r < windowStart + D)%R
               (buffer sp) in
      match windowReadings with
      | [] => (sp, None)
      | r0 :: rest =>
        let processed := processWindow r0 rest in
        let called := shouldEmitWindow (config sp) processed && windowCallback sp in
        let slidePoint := (windowStart + D / 2)%R in
        ({| config := config sp;
            buffer := filter (λ r, timestamp r >= slidePoint)%R (buffer sp);
            windowCallback := windowCallback sp |},
         Some {| windowReadings := windowReadings;
                 processed := processed;
                 called := called |})
      end
    else (sp, None)
  end.

Definition push (reading : SensorReading.t) (sp : t) : t :=
  {| config := config sp; buffer := buffer sp ++ [reading];
     windowCallback := windowCallback sp |}.

Definition addReading (now : R) (reading : SensorReading.t) (sp : t)
  : t * option Completed :=
  checkWindowComplete (pruneOldReadings now (push reading sp)).

(** A sequence of [addReading] calls, each with the clock value at the
    call; the result lists the windows completed, oldest first. *)
Fixpoint feed (sp : t) (calls : list (R * SensorReading.t)) : t * list Completed :=
  match calls with
  | [] => (sp, [])
  | (now, reading) :: calls' =>
    let '(sp1, w) := addReading now reading sp in
    let '(sp2, ws) := feed sp1 calls' in
    (sp2, option_list w ++ ws)
  end.

(** The windows the callback was invoked with. *)
Definition emitted (ws : list Completed) : list ProcessedWindow.t :=
  processed <$> filter (λ w, called w = true) ws.

End SignalProcessor.

(** * Classifier (src/services/mlClient.ts, functions/src/index.ts) *)

Module Classifier.
Import ProcessedWindow.

(** [Math.round]: the nearest integer, halves rounded up. *)
Definition Math_round (v : R) : R := IZR (Int_part (v + 1 / 2)).

(** Client-side heuristic classifier, the fallback. *)
Definition classifyLocally (window : ProcessedWindow.t) : DetectionResult.t :=
  if decide (peakMagnitude window > 8 ∧ magnitude window > 4)%R then
    {| DetectionResult.defectType := pothole;
       DetectionResult.confidence := Rmin 0.85 (peakMagnitude window / 15);
       DetectionResult.severity := Rmin 10 (Math_round (peakMagnitude window / 1.5)) |}
  else if decide (magnitude window > 3 ∧ peakMagnitude window < 10 ∧
                  averageSpeed window < 30)%R then
    {| DetectionResult.defectType := speed_breaker;
       DetectionResult.confidence := Rmin 0.9 (magnitude window / 6);
       DetectionResult.severity := Rmin 10 (Math_round (magnitude window * 1.5)) |}
  else
    {| DetectionResult.defectType := normal;
       DetectionResult.confidence := 0.95;
       DetectionResult.severity := 0 |}.

(** Server-side classifier [classifyDefectML]. *)
Definition classifyDefectML (window : ProcessedWindow.t) : DetectionResult.t :=
  if decide (peakMagnitude window > 8 ∧ magnitude window > 4)%R then
    let confidence :=
      Rmin 0.95 (0.6 + (peakMagnitude window - 8) * 0.05
                     + (magnitude window - 4) * 0.03) in
    {| DetectionResult.defectType := pothole;
       DetectionResult.confidence := confidence;
       DetectionResult.severity := Rmin 10 (Math_round (peakMagnitude window / 1.2)) |}
  else if decide (magnitude window > 3 ∧ peakMagnitude window < 12 ∧
                  averageSpeed window < 35)%R then
    let confidence := Rmin 0.92 (0.5 + magnitude window * 0.1) in
    {| DetectionResult.defectType := speed_breaker;
       DetectionResult.confidence := confidence;
       DetectionResult.severity := Rmin 10 (Math_round (magnitude window * 2)) |}
  else
    {| DetectionResult.defectType := normal;
       DetectionResult.confidence := 0.95;
       DetectionResult.severity := 0 |}.

(** The callable [classifyDefect]: an error ([None]) without
    authentication. *)
Definition classifyDefect (auth : bool) (data : ProcessedWindow.t)
  : option DetectionResult.t :=
  if auth then Some (classifyDefectML data) else None.

(** [classifyWithML]: the remote call, and the local classifier when it
    throws.  [remote] is the outcome of the call, [None] for a failure. *)
Definition classifyWithML (remote : ProcessedWindow.t → option DetectionResult.t)
    (window : ProcessedWindow.t) : DetectionResult.t :=
  match remote window with
  | Some result => result
  | None => classifyLocally window
  end.

End Classifier.

(** * The detection-save path (src/pages/Dashboard.tsx, lines 84-110) *)

Module Dashboard.

(** JavaScript truthiness of a [string | null]. *)
Definition truthy (v : option string) : bool :=
  match v with
  | None => false
  | Some v => negb (String.eqb v "")
  end.

(** [handleProcessedWindow]: the record handed to [saveDetection], [None]
    when the handler returns without saving. *)
Definition handleProcessedWindow (sessionId : option string) (userId : string)
    (remote : ProcessedWindow.t → option DetectionResult.t)
    (window : ProcessedWindow.t) : option Detection.t :=
  match sessionId with
  | Some sid =>
    if negb (truthy sessionId) || negb (truthy (Some userId)) then None
    else
      let result := Classifier.classifyWithML remote window in
      if decide (DetectionResult.defectType result ≠ normal ∧
                 (DetectionResult.confidence result
                  >= AppConfig.confidenceThreshold DEFAULT_CONFIG)%R)
      then Some {| Detection.sessionId := sid;
                   Detection.userId := userId;
                   Detection.timestamp := ProcessedWindow.endTime window;
                   Detection.location := ProcessedWindow.centroid window;
                   Detection.defectType := DetectionResult.defectType result;
                   Detection.confidence := DetectionResult.confidence result;
                   Detection.severity := DetectionResult.severity result;
                   Detection.processedWindow := window |}
      else None
  | None => None
  end.

End Dashboard.

(** * Aggregation Engine and Retention Sweeper (functions/src/index.ts) *)

Module AggregatedReport.
Record t := mk {
  geohash : string;
  location : LatLng.t;
  defectType : DefectType;
  averageSeverity : R;
  reportCount : nat;
  uniqueUsers : list string;
  firstReported : R;
  lastReported : R;
  credibilityScore : R
}.
End AggregatedReport.

(** The argument of [ref.update]: the fields to overwrite. *)
Module UpdateData.
Record t := mk {
  geohash : option string;
  location : option LatLng.t;
  defectType : option DefectType;
  averageSeverity : option R;
  reportCount : option nat;
  uniqueUsers : option (list string);
  firstReported : option R;
  lastReported : option R;
  credibilityScore : option R
}.
End UpdateData.

(** The collection [aggregatedReports]: documents by id. *)
Module Firestore.

Abbreviation Collection := (gmap string AggregatedReport.t).

(** A document snapshot: id and data. *)
Abbreviation Doc := (string * AggregatedReport.t)%type.

Definition applyUpdate (u : UpdateData.t) (r : AggregatedReport.t)
  : AggregatedReport.t :=
  {| AggregatedReport.geohash :=
       default (AggregatedReport.geohash r) (UpdateData.geohash u);
     AggregatedReport.location :=
       default (AggregatedReport.location r) (UpdateData.location u);
     AggregatedReport.defectType :=
       default (AggregatedReport.defectType r) (UpdateData.defectType u);
     AggregatedReport.averageSeverity :=
       default (AggregatedReport.averageSeverity r) (UpdateData.averageSeverity u);
     AggregatedReport.reportCount :=
       default (AggregatedReport.reportCount r) (UpdateData.reportCount u);
     AggregatedReport.uniqueUsers :=
       default (AggregatedReport.uniqueUsers r) (UpdateData.uniqueUsers u);
     AggregatedReport.firstReported :=
       default (AggregatedReport.firstReported r) (UpdateData.firstReported u);
     AggregatedReport.lastReported :=
       default (AggregatedReport.lastReported r) (UpdateData.lastReported u);
     AggregatedReport.credibilityScore :=
       default (AggregatedReport.credibilityScore r) (UpdateData.credibilityScore u) |}.

(** [ref.update(data)]: fails ([None]) when the document does not exist. *)
Definition update (id : string) (u : UpdateData.t) (c : Collection)
  : option Collection :=
  match c !! id with
  | Some r => Some (<[id := applyUpdate u r]> c)
  | None => None
  end.

(** [collection.add(data)]: the store picks an unused id. *)
Definition newId (c : Collection) : string := fresh (dom c).

Definition add (data : AggregatedReport.t) (c : Collection) : Collection :=
  <[newId c := data]> c.

(** [batch.delete(ref)] for every listed document, then [commit]. *)
Definition batchDelete (docs : list Doc) (c : Collection) : Collection :=
  foldr (λ d acc, delete d.1 acc) c docs.

(** [.get()]: the documents that satisfy [P], in the store's iteration
    order. *)
Definition get (P : Doc → Prop) `{!∀ d, Decision (P d)} (c : Collection)
  : list Doc :=
  filter P (map_to_list c).

End Firestore.

Module Aggregation.
Import Firestore.

(** [Math.atan2(y, x)] *)
Definition atan2 (y x : R) : R :=
  if decide (x > 0)%R then atan (y / x)
  else if decide (x < 0)%R then
    if decide (y >= 0)%R then (atan (y / x) + PI)%R else (atan (y / x) - PI)%R
  else if decide (y > 0)%R then (PI / 2)%R
  else if decide (y < 0)%R then (- PI / 2)%R
  else 0%R.

Definition log10 (v : R) : R := (ln v / ln 10)%R.

(** Haversine distance in meters. *)
Definition calculateDistance (lat1 lon1 lat2 lon2 : R) : R :=
  let R_ := 6371000%R in
  let dLat := ((lat2 - lat1) * PI / 180)%R in
  let dLon := ((lon2 - lon1) * PI / 180)%R in
  let a :=
    (sin (dLat / 2) * sin (dLat / 2) +
     cos (lat1 * PI / 180) * cos (lat2 * PI / 180) *
     sin (dLon / 2) * sin (dLon / 2))%R in
  let c := (2 * atan2 (sqrt a) (sqrt (1 - a)))%R in
  (R_ * c)%R.

Definition AGGREGATION_RADIUS : R := 25.

(** The code point U+F8FF, as its three UTF-8 bytes. *)
Definition uf8ff : string :=
  String (ascii_of_nat 239) (String (ascii_of_nat 163)
    (String (ascii_of_nat 191) EmptyString)).

(** The query for reports in the vicinity.  Its result order is the
    store's; no property below depends on which order that is. *)
Definition nearbyReports (gh : string) (dt : DefectType) (c : Collection)
  : list Doc :=
  Firestore.get
    (λ d, (substring 0 5 gh ≤ AggregatedReport.geohash d.2)%string ∧
          (AggregatedReport.geohash d.2 ≤ substring 0 5 gh +:+ uf8ff)%string ∧
          AggregatedReport.defectType d.2 = dt) c.

(** The [for ... break] loop: the first document within the radius. *)
Fixpoint findMatch (lat lng : R) (docs : list Doc) : option Doc :=
  match docs with
  | [] => None
  | doc :: docs' =>
    let report := doc.2 in
    let distance :=
      calculateDistance lat lng
        (LatLng.latitude (AggregatedReport.location report))
        (LatLng.longitude (AggregatedReport.location report)) in
    if decide (distance <= AGGREGATION_RADIUS)%R then Some doc
    else findMatch lat lng docs'
  end.

(** The [onCreate] trigger; [None] when a store operation fails.
    [existing.uniqueUsers || []] is the stored list: the field is always
    present in this data model. *)
Definition aggregateDetection (detection : Detection.t) (c : Collection)
  : option Collection :=
  if decide (Detection.defectType detection = normal) then Some c
  else
    let lat := LatLng.latitude (Detection.location detection) in
    let lng := LatLng.longitude (Detection.location detection) in
    let geohash := Geo.encodeGeohash lat lng 7 in
    match findMatch lat lng
            (nearbyReports geohash (Detection.defectType detection) c) with
    | Some matchedReport =>
      let existing := matchedReport.2 in
      let uniqueUsers :=
        if decide (Detection.userId detection ∈ AggregatedReport.uniqueUsers existing)
        then AggregatedReport.uniqueUsers existing
        else AggregatedReport.uniqueUsers existing ++ [Detection.userId detection] in
      let newReportCount := AggregatedReport.reportCount existing + 1 in
      let newAverageSeverity :=
        ((AggregatedReport.averageSeverity existing
          * INR (AggregatedReport.reportCount existing)
          + Detection.severity detection) / INR newReportCount)%R in
      let credibilityScore :=
        Rmin 1 (0.3 + INR (length uniqueUsers) * 0.15
                    + log10 (INR newReportCount) * 0.2) in
      Firestore.update matchedReport.1
        {| UpdateData.geohash := None;
           UpdateData.location := None;
           UpdateData.defectType := None;
           UpdateData.averageSeverity := Some newAverageSeverity;
           UpdateData.reportCount := Some newReportCount;
           UpdateData.uniqueUsers := Some uniqueUsers;
           UpdateData.firstReported := None;
           UpdateData.lastReported := Some (Detection.timestamp detection);
           UpdateData.credibilityScore := Some credibilityScore |} c
    | None =>
      Some (Firestore.add
        {| AggregatedReport.geohash := geohash;
           AggregatedReport.location :=
             {| LatLng.latitude := lat; LatLng.longitude := lng |};
           AggregatedReport.defectType := Detection.defectType detection;
           AggregatedReport.averageSeverity := Detection.severity detection;
           AggregatedReport.reportCount := 1;
           AggregatedReport.uniqueUsers := [Detection.userId detection];
           AggregatedReport.firstReported := Detection.timestamp detection;
           AggregatedReport.lastReported := Detection.timestamp detection;
           AggregatedReport.credibilityScore := 0.3 |} c)
    end.

(** The scheduled sweep; [now] is the value of [Date.now()]. *)
Definition cleanupOldDetections (now : R) (c : Collection) : Collection :=
  let cutoff := (now - 30 * 24 * 60 * 60 * 1000)%R in
  let unverifiedReports :=
    Firestore.get
      (λ d, AggregatedReport.reportCount d.2 = 1 ∧
            (AggregatedReport.lastReported d.2 < cutoff)%R) c in
  if decide (0 < length unverifiedReports)
  then Firestore.batchDelete unverifiedReports c
  else c.

End Aggregation.

(** * Specification-side definitions

    Written from the specification's words, to be compared with the
    definitions above. *)

Module Spec.

(** "the mean of the squares of its elements" *)
Fixpoint sum_of_squares (values : list R) : R :=
  match values with
  | [] => 0
  | v :: vs => v * v + sum_of_squares vs
  end%R.

Definition mean_of_squares (values : list R) : R :=
  (sum_of_squares values / INR (length values))%R.

(** The three conditions of the emission gate. *)
Definition gate (cfg : AppConfig.t) (w : ProcessedWindow.t) : Prop :=
  (ProcessedWindow.averageSpeed w >= AppConfig.minSpeedThreshold cfg ∧
   ProcessedWindow.peakMagnitude w >= AppConfig.magnitudeThreshold cfg ∧
   INR (ProcessedWindow.sampleCount w) >=
     (AppConfig.windowDurationMs cfg / 1000) * AppConfig.sampleRateHz cfg * 0.5)%R.

(** The configurations whose sample threshold the code computes without
    rounding: a window of [m] half seconds and a rate of [n] samples per
    second, [m] and [n] whole numbers from 0 to a million.  Then
    [windowDurationMs / 1000] is [m / 2], its product with the rate is
    [m * n / 2] and the half of that [m * n / 4]; each is a multiple of
    1/4 below 2^53 / 4, a number the code's format holds exactly.  The
    default configuration (1500 ms, 60 Hz) is [m = 3], [n = 60]. *)
Definition exact_threshold (cfg : AppConfig.t) (m n : Z) : Prop :=
  (0 ≤ m ≤ 1000000)%Z ∧ (0 ≤ n ≤ 1000000)%Z ∧
  AppConfig.windowDurationMs cfg = (500 * IZR m)%R ∧
  AppConfig.sampleRateHz cfg = IZR n.

(** The timestamps of the readings of a sequence of [addReading] calls. *)
Definition timestamps (calls : list (R * SensorReading.t)) : list R :=
  (λ c, SensorReading.timestamp c.2) <$> calls.

(** "strictly increasing timestamps" / "non-decreasing timestamp" *)
Definition increasing (l : list R) : Prop := StronglySorted Rlt l.
Definition nondecreasing (l : list R) : Prop := StronglySorted Rle l.

(** A completed window [w] that starts at time [s]: it has at least one
    reading, all its readings lie in [[s, s + D)], and its summary starts
    at [s] and counts them. *)
Definition window_at (D s : R) (w : SignalProcessor.Completed) : Prop :=
  (0 < D)%R ∧
  ProcessedWindow.startTime (SignalProcessor.processed w) = s ∧
  Forall (λ r, s <= SensorReading.timestamp r < s + D)%R
         (SignalProcessor.windowReadings w) ∧
  ProcessedWindow.sampleCount (SignalProcessor.processed w)
    = length (SignalProcessor.windowReadings w) ∧
  1 ≤ length (SignalProcessor.windowReadings w).

(** Successive completed windows start at least half a window apart, the
    first one not before [lb]. *)
Fixpoint chain (D lb : R) (ws : list SignalProcessor.Completed) : Prop :=
  match ws with
  | [] => True
  | w :: ws' => ∃ s, window_at D s w ∧ (lb <= s)%R ∧ chain D (s + D / 2) ws'
  end.

(** The windows of [ws] whose selected readings include [r]. *)
Definition windows_with (r : SensorReading.t) (ws : list SignalProcessor.Completed)
  : list SignalProcessor.Completed :=
  filter (λ w, r ∈ SignalProcessor.windowReadings w) ws.

(** The (startTime, endTime) pair of a window summary. *)
Definition span (w : ProcessedWindow.t) : R * R :=
  (ProcessedWindow.startTime w, ProcessedWindow.endTime w).

(** The haversine distance from a detection to a report's stored point. *)
Definition distanceTo (detection : Detection.t) (report : AggregatedReport.t) : R :=
  Aggregation.calculateDistance
    (LatLng.latitude (Detection.location detection))
    (LatLng.longitude (Detection.location detection))
    (LatLng.latitude (AggregatedReport.location report))
    (LatLng.longitude (AggregatedReport.location report)).

(** "the first candidate within AGGREGATION_RADIUS meters is the match":
    [candidates] splits as [before ++ m :: after], nothing in [before] is
    within 25 m and [m] is. *)
Definition first_within (detection : Detection.t)
    (candidates before : list Firestore.Doc) (m : Firestore.Doc)
    (after : list Firestore.Doc) : Prop :=
  candidates = before ++ m :: after ∧
  Forall (λ d, distanceTo detection d.2 > 25)%R before ∧
  (distanceTo detection m.2 <= 25)%R.

(** "older than a cutoff (reference: 30 days)", in milliseconds. *)
Definition days (n : R) : R := (n * 24 * 60 * 60 * 1000)%R.

Definition stale (now : R) (report : AggregatedReport.t) : Prop :=
  AggregatedReport.reportCount report = 1 ∧
  (AggregatedReport.lastReported report < now - days 30)%R.

End Spec.


(** * Concrete inputs used as instances below *)

Module Examples.
Import SensorReading SignalProcessor.

(** A reading at time [t] with no motion and no GPS speed. *)
Definition reading_at (t : R) : SensorReading.t :=
  {| timestamp := t;
     accelerometer := {| x := 0; y := 0; z := 0 |};
     gps := {| latitude := 0; longitude := 0; accuracy := 0; speed := None |} |}%R.

(** A processor with the default configuration and a registered callback,
    as the dashboard sets it up when a ride starts. *)
Definition sp0 : SignalProcessor.t :=
  setWindowCallback (new DEFAULT_CONFIG).

(** The same processor after a reading at time 0 was buffered. *)
Definition sp1 : SignalProcessor.t :=
  {| config := DEFAULT_CONFIG; buffer := [reading_at 0]; windowCallback := true |}.

Definition sp2 : SignalProcessor.t :=
  {| config := DEFAULT_CONFIG; buffer := [reading_at 1500]; windowCallback := true |}.

(** The window completed by a second reading at time 1500. *)
Definition w1 : Completed :=
  {| windowReadings := [reading_at 0];
     processed := processWindow (reading_at 0) [];
     called := false |}.

(** Two calls: a reading at time 0, then one at time 1500. *)
Definition two_calls : list (R * SensorReading.t) :=
  [(0, reading_at 0); (1500, reading_at 1500)]%R.

(** A configuration that expects one sample per second, and readings of a
    device in free fall moving at 10 m/s: their windows pass the gate. *)
Definition config_1hz : AppConfig.t :=
  {| AppConfig.minSpeedThreshold := 5;
     AppConfig.windowDurationMs := 1500;
     AppConfig.magnitudeThreshold := 2.5;
     AppConfig.confidenceThreshold := 0.7;
     AppConfig.sampleRateHz := 1;
     AppConfig.aggregationRadiusMeters := 20 |}%R.

Definition moving_at (t : R) : SensorReading.t :=
  {| timestamp := t;
     accelerometer := {| x := 0; y := 0; z := 0 |};
     gps := {| latitude := 0; longitude := 0; accuracy := 0; speed := Some 10 |} |}%R.

Definition moving_calls : list (R * SensorReading.t) :=
  [(0, moving_at 0); (1500, moving_at 1500)]%R.

Definition sp_1hz : SignalProcessor.t := setWindowCallback (new config_1hz).

Definition sp_1hz_1 : SignalProcessor.t :=
  {| config := config_1hz; buffer := [moving_at 0]; windowCallback := true |}.

Definition sp_1hz_2 : SignalProcessor.t :=
  {| config := config_1hz; buffer := [moving_at 1500]; windowCallback := true |}.

Definition w_moving : Completed :=
  {| windowReadings := [moving_at 0];
     processed := processWindow (moving_at 0) [];
     called := true |}.

(** The point of the specification's aggregation scenario. *)
Definition delhi : LatLng.t :=
  {| LatLng.latitude := 28.6139; LatLng.longitude := 77.2090 |}%R.

Definition window_demo : ProcessedWindow.t :=
  {| ProcessedWindow.startTime := 0; ProcessedWindow.endTime := 0;
     ProcessedWindow.magnitude := 6.2; ProcessedWindow.peakMagnitude := 9.1;
     ProcessedWindow.averageSpeed := 18; ProcessedWindow.centroid := delhi;
     ProcessedWindow.sampleCount := 90 |}%R.

(** A pothole reported by a first user, then by a second one at the same
    point. *)
Definition detection1 : Detection.t :=
  {| Detection.sessionId := "session-1"; Detection.userId := "alice";
     Detection.timestamp := 1000; Detection.location := delhi;
     Detection.defectType := pothole; Detection.confidence := 0.92;
     Detection.severity := 8; Detection.processedWindow := window_demo |}%R.

Definition detection2 : Detection.t :=
  {| Detection.sessionId := "session-2"; Detection.userId := "bob";
     Detection.timestamp := 2000; Detection.location := delhi;
     Detection.defectType := pothole; Detection.confidence := 0.9;
     Detection.severity := 6; Detection.processedWindow := window_demo |}%R.

(** The report the first detection creates in an empty store. *)
Definition report1 : AggregatedReport.t :=
  {| AggregatedReport.geohash := Geo.encodeGeohash 28.6139 77.2090 7;
     AggregatedReport.location := delhi;
     AggregatedReport.defectType := pothole;
     AggregatedReport.averageSeverity := 8;
     AggregatedReport.reportCount := 1;
     AggregatedReport.uniqueUsers := ["alice"%string];
     AggregatedReport.firstReported := 1000;
     AggregatedReport.lastReported := 1000;
     AggregatedReport.credibilityScore := 0.3 |}%R.

Definition store1 : Firestore.Collection := Firestore.add report1 ∅.

(** A window the server classifies as a pothole with low confidence. *)
Definition window_faint : ProcessedWindow.t :=
  {| ProcessedWindow.startTime := 0; ProcessedWindow.endTime := 1400;
     ProcessedWindow.magnitude := 4.1; ProcessedWindow.peakMagnitude := 8.1;
     ProcessedWindow.averageSpeed := 20; ProcessedWindow.centroid := delhi;
     ProcessedWindow.sampleCount := 90 |}%R.

End Examples.

(** * More of the Signal Processor and of the pages that use it *)

Module Severity.

(** [SignalProcessor.getSeverityFromMagnitude]
    (src/utils/signalProcessor.ts, lines 113-119). *)
Definition getSeverityFromMagnitude (sp : SignalProcessor.t) (magnitude : R) : R :=
  let minMag := AppConfig.magnitudeThreshold (SignalProcessor.config sp) in
  let maxMag := 15%R in
  let normalized :=
    Rmin 1 (Rmax 0 ((magnitude - minMag) / (maxMag - minMag))) in
  (Classifier.Math_round (normalized * 9) + 1)%R.

End Severity.

(** * The dashboard's own distance (src/pages/Dashboard.tsx, lines 307-318) *)

Module ClientGeo.

(** Haversine distance in kilometres, used for the ride's distance
    counter. *)
Definition calculateDistance (lat1 lon1 lat2 lon2 : R) : R :=
  let R_ := 6371%R in
  let dLat := ((lat2 - lat1) * PI / 180)%R in
  let dLon := ((lon2 - lon1) * PI / 180)%R in
  let a :=
    (sin (dLat / 2) * sin (dLat / 2) +
     cos (lat1 * PI / 180) * cos (lat2 * PI / 180) *
     sin (dLon / 2) * sin (dLon / 2))%R in
  let c := (2 * Aggregation.atan2 (sqrt a) (sqrt (1 - a)))%R in
  (R_ * c)%R.

End ClientGeo.

(** * Geohash cells (specification-side notions) *)

Module GeoSpec.

(** Every character of [s] occurs in [alphabet]. *)
Fixpoint chars_in (alphabet s : string) : Prop :=
  match s with
  | EmptyString => True
  | String c s' => (∃ i, String.get i alphabet = Some c) ∧ chars_in alphabet s'
  end.

(** Two loop states that have read the same number of bits but no longer
    agree on them: either the codes built so far differ, or the current
    character indices do. *)
Definition diverged (s1 s2 : Geo.GeoState) : Prop :=
  Geo.bit s1 = Geo.bit s2 ∧
  String.length (Geo.geohash s1) = String.length (Geo.geohash s2) ∧
  Geo.idx s1 < 2 ^ Geo.bit s1 ∧ Geo.idx s2 < 2 ^ Geo.bit s2 ∧
  (Geo.geohash s1 ≠ Geo.geohash s2 ∨ Geo.idx s1 ≠ Geo.idx s2).

(** The point [(lat, lng)] lies in the cell of the loop state [s], which
    has been halved [a] times in longitude and [b] times in latitude. *)
Definition in_cell (lat lng : R) (a b : nat) (s : Geo.GeoState) : Prop :=
  (Geo.latMin s <= lat < Geo.latMax s)%R ∧
  (Geo.lngMin s <= lng < Geo.lngMax s)%R ∧
  (Geo.lngMax s - Geo.lngMin s = 360 / 2 ^ a)%R ∧
  (Geo.latMax s - Geo.latMin s = 180 / 2 ^ b)%R ∧
  Geo.evenBit s = Nat.eqb a b ∧ (a = b ∨ a = S b).

End GeoSpec.

(** * The public statistics (functions/src/index.ts, lines 249-268) *)

Module Stats.
Import Firestore.

Record PublicStats := mkPublicStats {
  totalDetections : nat;
  verifiedReports : nat;
  timestamp : R
}.

Inductive Response :=
| NoContent                       (* status 204, empty body *)
| Json (stats : PublicStats).

(** [getPublicStats]; [detections] and [reports] are the two collections
    and [now] is the value of [Date.now()]. *)
Definition getPublicStats (method : string) (now : R)
    (detections : gmap string Detection.t) (reports : Collection) : Response :=
  if decide (method = "OPTIONS"%string) then NoContent
  else
    let detectionsSnap := size detections in
    let reportsSnap :=
      length (Firestore.get (λ d, 2 ≤ AggregatedReport.reportCount d.2) reports) in
    Json {| totalDetections := detectionsSnap;
            verifiedReports := reportsSnap;
            timestamp := now |}.

End Stats.

(** * The life of the collection of reports *)

Module Store.
Import Firestore Aggregation.

(** The trigger runs once for every created detection, here in the order
    of the list. *)
Fixpoint aggregateAll (detections : list Detection.t) (c : Collection)
  : option Collection :=
  match detections with
  | [] => Some c
  | d :: ds =>
    match aggregateDetection d c with
    | Some c' => aggregateAll ds c'
    | None => None
    end
  end.

(** [evolves c c']: the two server functions, run any number of times in
    any order, take the collection [c] to [c']. *)
Inductive evolves (c : Collection) : Collection → Prop :=
| evolves_refl : evolves c c
| evolves_aggregate (detection : Detection.t) (c1 c2 : Collection) :
    evolves c c1 → aggregateDetection detection c1 = Some c2 → evolves c c2
| evolves_cleanup (now : R) (c1 : Collection) :
    evolves c c1 → evolves c (cleanupOldDetections now c1).

(** The collections that can arise from the empty one. *)
Definition reachable (c : Collection) : Prop := evolves ∅ c.

(** The document the trigger stores for a detection that matches no
    report, and the one it leaves in place of a matched report. *)
Definition created (detection : Detection.t) : AggregatedReport.t :=
  let lat := LatLng.latitude (Detection.location detection) in
  let lng := LatLng.longitude (Detection.location detection) in
  {| AggregatedReport.geohash := Geo.encodeGeohash lat lng 7;
     AggregatedReport.location :=
       {| LatLng.latitude := lat; LatLng.longitude := lng |};
     AggregatedReport.defectType := Detection.defectType detection;
     AggregatedReport.averageSeverity := Detection.severity detection;
     AggregatedReport.reportCount := 1;
     AggregatedReport.uniqueUsers := [Detection.userId detection];
     AggregatedReport.firstReported := Detection.timestamp detection;
     AggregatedReport.lastReported := Detection.timestamp detection;
     AggregatedReport.credibilityScore := 0.3 |}.

Definition merged (detection : Detection.t) (existing : AggregatedReport.t)
  : AggregatedReport.t :=
  let uniqueUsers :=
    if decide (Detection.userId detection ∈ AggregatedReport.uniqueUsers existing)
    then AggregatedReport.uniqueUsers existing
    else AggregatedReport.uniqueUsers existing ++ [Detection.userId detection] in
  let newReportCount := AggregatedReport.reportCount existing + 1 in
  {| AggregatedReport.geohash := AggregatedReport.geohash existing;
     AggregatedReport.location := AggregatedReport.location existing;
     AggregatedReport.defectType := AggregatedReport.defectType existing;
     AggregatedReport.averageSeverity :=
       ((AggregatedReport.averageSeverity existing
         * INR (AggregatedReport.reportCount existing)
         + Detection.severity detection) / INR newReportCount)%R;
     AggregatedReport.reportCount := newReportCount;
     AggregatedReport.uniqueUsers := uniqueUsers;
     AggregatedReport.firstReported := AggregatedReport.firstReported existing;
     AggregatedReport.lastReported := Detection.timestamp detection;
     AggregatedReport.credibilityScore :=
       Rmin 1 (0.3 + INR (length uniqueUsers) * 0.15
                   + log10 (INR newReportCount) * 0.2) |}.

(** What every stored report satisfies. *)
Definition well_formed (r : AggregatedReport.t) : Prop :=
  AggregatedReport.defectType r ≠ normal ∧
  AggregatedReport.geohash r
    = Geo.encodeGeohash (LatLng.latitude (AggregatedReport.location r))
                        (LatLng.longitude (AggregatedReport.location r)) 7 ∧
  1 ≤ length (AggregatedReport.uniqueUsers r) ≤ AggregatedReport.reportCount r ∧
  NoDup (AggregatedReport.uniqueUsers r) ∧
  (0.3 <= AggregatedReport.credibilityScore r <= 1)%R.

(** The sum of the severities of a list of detections. *)
Definition total_severity (detections : list Detection.t) : R :=
  foldr (λ d acc, Detection.severity d + acc)%R 0%R detections.

(** A report after it has absorbed the detections of a list, in order. *)
Definition absorb (detections : list Detection.t) (r : AggregatedReport.t)
  : AggregatedReport.t :=
  foldl (λ r d, merged d r) r detections.

End Store.

Module Examples2.
Import Examples.

(** A pothole just south of the equator, and a detection of the same
    pothole from just north of it, about 11 m away. *)
Definition south : LatLng.t :=
  {| LatLng.latitude := -0.00005; LatLng.longitude := 77.2090 |}%R.

Definition north : LatLng.t :=
  {| LatLng.latitude := 0.00005; LatLng.longitude := 77.2090 |}%R.

Definition report_south : AggregatedReport.t :=
  {| AggregatedReport.geohash := Geo.encodeGeohash (-0.00005) 77.2090 7;
     AggregatedReport.location := south;
     AggregatedReport.defectType := pothole;
     AggregatedReport.averageSeverity := 8;
     AggregatedReport.reportCount := 1;
     AggregatedReport.uniqueUsers := ["alice"%string];
     AggregatedReport.firstReported := 1000;
     AggregatedReport.lastReported := 1000;
     AggregatedReport.credibilityScore := 0.3 |}%R.

Definition store_south : Firestore.Collection := Firestore.add report_south ∅.

Definition detection_north : Detection.t :=
  {| Detection.sessionId := "session-2"; Detection.userId := "bob";
     Detection.timestamp := 2000; Detection.location := north;
     Detection.defectType := pothole; Detection.confidence := 0.9;
     Detection.severity := 6; Detection.processedWindow := window_demo |}%R.

End Examples2.

(** * The client's queries (src/services/database.ts) *)

Module Database.
Import Firestore.

(** The collection [detections]: documents by id.  A stored timestamp
    ([Timestamp.fromMillis], read back with [toMillis]) is the number of
    milliseconds itself, and a stored [GeoPoint] is its two coordinates. *)
Abbreviation Detections := (gmap string Detection.t).

(** A detection as the queries return it: the document id and the data. *)
Abbreviation DetectionDoc := (string * Detection.t)%type.

(** A query with [where] conditions [P] and an [orderBy] clause [R], before
    its [limit]: the documents that satisfy [P], sorted by [R].  Documents
    that [R] does not tell apart come in the store's order; no property
    below depends on which order that is. *)
Definition selection {A : Type} (R : relation (string * A))
    `{!∀ a b, Decision (R a b)} (P : string * A → Prop) `{!∀ d, Decision (P d)}
    (c : gmap string A) : list (string * A) :=
  merge_sort R (filter P (map_to_list c)).

(** [orderBy('timestamp', 'desc')] *)
Definition newestFirst : relation DetectionDoc :=
  λ a b, (Detection.timestamp b.2 <= Detection.timestamp a.2)%R.

#[global] Instance newestFirst_dec (a b : DetectionDoc) : Decision (newestFirst a b) :=
  Rle_dec (Detection.timestamp b.2) (Detection.timestamp a.2).

(** The query of [getDetectionsInArea] and of [subscribeToDetections]:
    [where('defectType', 'in', ['pothole', 'speed_breaker'])],
    [orderBy('timestamp', 'desc')], [limit(limitCount)]. *)
Definition defectsQuery (limitCount : nat) (c : Detections) : list DetectionDoc :=
  take limitCount
    (selection newestFirst
       (λ d, Detection.defectType d.2 ∈ [pothole; speed_breaker]) c).

Record Bounds := mkBounds { north : R; south : R; east : R; west : R }.

(** The client-side filter for bounds. *)
Definition inBounds (bounds : Bounds) (loc : LatLng.t) : Prop :=
  (LatLng.latitude loc >= south bounds)%R ∧ (LatLng.latitude loc <= north bounds)%R ∧
  (LatLng.longitude loc >= west bounds)%R ∧ (LatLng.longitude loc <= east bounds)%R.

#[global] Instance inBounds_dec (bounds : Bounds) (loc : LatLng.t) :
  Decision (inBounds bounds loc).
Proof. unfold inBounds. apply _. Defined.

Definition getDetectionsInArea (bounds : Bounds) (limitCount : nat)
    (c : Detections) : list DetectionDoc :=
  filter (λ d, inBounds bounds (Detection.location d.2))
         (defectsQuery limitCount c).

(** [subscribeToDetections]: what the callback receives for a snapshot of
    the collection. *)
Definition subscribeToDetections (c : Detections) : list DetectionDoc :=
  defectsQuery 200 c.

(** [orderBy('reportCount', 'desc')] *)
Definition mostReportedFirst : relation Doc :=
  λ a b, AggregatedReport.reportCount b.2 ≤ AggregatedReport.reportCount a.2.

#[global] Instance mostReportedFirst_dec (a b : Doc) : Decision (mostReportedFirst a b) :=
  decide (AggregatedReport.reportCount b.2 ≤ AggregatedReport.reportCount a.2).

(** [getAggregatedReports]: [where('reportCount', '>=', 2)],
    [orderBy('reportCount', 'desc')], [limit(100)]. *)
Definition getAggregatedReports (c : Collection) : list Doc :=
  take 100
    (selection mostReportedFirst
       (λ d, 2 ≤ AggregatedReport.reportCount d.2) c).

End Database.

(** * The figures of the admin page (src/pages/AdminPage.tsx, lines 22-29) *)

Module AdminPage.
Import Database.

Record Stats := mkStats {
  totalDetections : nat;
  potholes : nat;
  speedBreakers : nat;
  verifiedReports : nat;
  uniqueVolunteers : nat;
  highSeverity : nat
}.

(** [new Set(detections.map(d => d.userId)).size] is the size of a finite
    set of strings. *)
Definition stats (detections : list DetectionDoc) (reports : list Firestore.Doc)
  : Stats :=
  {| totalDetections := length detections;
     potholes := length (filter (λ d, Detection.defectType d.2 = pothole) detections);
     speedBreakers :=
       length (filter (λ d, Detection.defectType d.2 = speed_breaker) detections);
     verifiedReports := length reports;
     uniqueVolunteers :=
       size (list_to_set ((λ d, Detection.userId d.2) <$> detections) : gset string);
     highSeverity :=
       length (filter (λ d, Detection.severity d.2 >= 7)%R detections) |}.

End AdminPage.

(** * The ride buttons of the dashboard (src/pages/Dashboard.tsx, lines 60-208) *)

Module Ride.

(** The part of the component's state that the ride buttons read and
    write.  [registered] is the window callback of [processorRef.current]:
    the [handleProcessedWindow] of some render, given by the [sessionId]
    which that render's closure holds ([None] before the first processor
    is created). *)
Record State := mkState {
  isRiding : bool;
  sessionId : option string;
  registered : option (option string)
}.

(** The first render: [useState(false)], [useState(null)], [useRef(null)]. *)
Definition initial : State :=
  {| isRiding := false; sessionId := None; registered := None |}.

(** How a run of [startRide] ends. *)
Inductive Outcome :=
| SessionFailed                              (* [createSession] rejects *)
| CollectionFailed (newSessionId : string)   (* [startCollection] throws *)
| Started (newSessionId : string).

(** [startRide] of the render with state [s].  The [handleProcessedWindow]
    it passes to [setWindowCallback] is the one of that same render, whose
    closure holds [sessionId s]; [setSessionId(newSessionId)] changes the
    state of later renders, not that closure.  The callback is registered
    before [startCollection] is called and [setIsRiding(true)] after it;
    when [createSession] rejects, the [catch] only sets the error. *)
Definition startRide (outcome : Outcome) (s : State) : State :=
  match outcome with
  | SessionFailed => s
  | CollectionFailed newSessionId =>
    {| isRiding := isRiding s; sessionId := Some newSessionId;
       registered := Some (sessionId s) |}
  | Started newSessionId =>
    {| isRiding := true; sessionId := Some newSessionId;
       registered := Some (sessionId s) |}
  end.

(** [stopRide]: [reset] empties the processor's buffer and keeps its
    callback. *)
Definition stopRide (s : State) : State :=
  {| isRiding := false; sessionId := None; registered := registered s |}.

(** The page shows the start button while [isRiding] is false and the stop
    button while it is true; a click runs the handler of the latest
    render, one run after another. *)
Inductive Click :=
| ClickStart (outcome : Outcome)
| ClickStop.

Definition click (c : Click) (s : State) : option State :=
  match c with
  | ClickStart outcome => if isRiding s then None else Some (startRide outcome s)
  | ClickStop => if isRiding s then Some (stopRide s) else None
  end.

Fixpoint clicks (cs : list Click) (s : State) : option State :=
  match cs with
  | [] => Some s
  | c :: cs' =>
    match click c s with
    | Some s' => clicks cs' s'
    | None => None
    end
  end.

(** What the processor's callback does with a completed window: the
    record handed to [saveDetection], if any. *)
Definition onWindow (userId : string)
    (remote : ProcessedWindow.t → option DetectionResult.t)
    (s : State) (window : ProcessedWindow.t) : option Detection.t :=
  match registered s with
  | Some captured => Dashboard.handleProcessedWindow captured userId remote window
  | None => None
  end.

(** The session ids of the starts that failed in [startCollection]. *)
Definition failed (cs : list Click) (id : string) : Prop :=
  ClickStart (CollectionFailed id) ∈ cs.

(** The session a registered handler can hold: none, or one of [P]. *)
Definition stale_session (P : string → Prop) (v : option string) : Prop :=
  v = None ∨ ∃ id, P id ∧ v = Some id.

(** Between rides the state holds no session or a session of [P], and so
    does the registered handler at any time. *)
Definition ride_inv (P : string → Prop) (s : State) : Prop :=
  (isRiding s = false → stale_session P (sessionId s)) ∧
  (∀ captured, registered s = Some captured → stale_session P captured).

End Ride.

(** * Properties *)

(** ** Geohash: termination and prefix stability *)

Module GeoFacts.
Import Geo.

Section Encode.
Variables lat lng : R.
Local Abbreviation steps := (Geo.steps lat lng).

Lemma charAt_BASE32 (i : nat) :
  i < 32 → ∃ c, charAt BASE32 i = String c EmptyString.
Proof.
  intros Hi. unfold charAt.
  do 32 (destruct i as [|i]; [eexists; reflexivity|]). lia.
Qed.

Lemma append_nil_l (t : string) : "" +:+ t = t.
Proof. reflexivity. Qed.

Lemma append_cons (c : ascii) (s t : string) :
  String c s +:+ t = String c (s +:+ t).
Proof. reflexivity. Qed.

Lemma length_append (s t : string) :
  String.length (s +:+ t) = String.length s + String.length t.
Proof.
  induction s as [|c s IH]; [done|].
  rewrite append_cons. simpl. by rewrite IH.
Qed.

Lemma append_empty_r (s : string) : s +:+ "" = s.
Proof. induction s as [|c s IH]; [reflexivity|]. rewrite append_cons. congruence. Qed.

Lemma append_assoc (s t u : string) : (s +:+ t) +:+ u = s +:+ (t +:+ u).
Proof. induction s as [|c s IH]; [reflexivity|]. rewrite !append_cons. congruence. Qed.

Lemma bisect_fields (s : GeoState) :
  let s' := bisect lat lng s in
  geohash s' = geohash s ∧ bit s' = bit s ∧ evenBit s' = evenBit s ∧
  (idx s' = idx s * 2 ∨ idx s' = idx s * 2 + 1).
Proof.
  unfold bisect. destruct (evenBit s) eqn:E; case_decide; simpl; rewrite ?E; auto.
Qed.

Lemma geo_body_inv (n : nat) (s : GeoState) :
  geo_inv n s → geo_inv (S n) (geo_body lat lng s).
Proof.
  intros (Hlen & Hbit & Hidx).
  destruct (bisect_fields s) as (Hg & Hb & _ & Hi).
  unfold geo_body, emit. rewrite Hg, Hb.
  destruct (Nat.eqb_spec (S (bit s)) 5) as [E|E]; unfold geo_inv; cbn [geohash bit idx].
  - assert (Hlt : idx (bisect lat lng s) < 32).
    { assert (bit s = 4) as Hb4 by lia. rewrite Hb4 in Hidx. simpl in Hidx. lia. }
    destruct (charAt_BASE32 _ Hlt) as [c ->].
    rewrite length_append. simpl. repeat split; lia.
  - repeat split; try lia.
    replace (2 ^ S (bit s)) with (2 * 2 ^ bit s) by (simpl; lia). lia.
Qed.

Lemma steps_inv (n : nat) : geo_inv n (steps n).
Proof.
  induction n as [|n IH]; [repeat split; simpl; lia|].
  apply geo_body_inv, IH.
Qed.

Lemma steps_length (p : nat) : String.length (geohash (steps (5 * p))) = p.
Proof. destruct (steps_inv (5 * p)) as (H1 & H2 & _). lia. Qed.

Lemma geo_loop_unfold (fuel p : nat) (s : GeoState) :
  geo_loop fuel lat lng p s =
  if Nat.ltb (String.length (geohash s)) p then
    match fuel with
    | O => None
    | S fuel' => geo_loop fuel' lat lng p (geo_body lat lng s)
    end
  else Some (geohash s).
Proof. by destruct fuel. Qed.

Lemma geo_loop_steps (p k n : nat) :
  n + k = 5 * p →
  geo_loop k lat lng p (steps n) = Some (geohash (steps (5 * p))).
Proof.
  revert n. induction k as [|k IH]; intros n Hn;
    destruct (steps_inv n) as (H1 & H2 & _); rewrite geo_loop_unfold;
    destruct (Nat.ltb_spec (String.length (geohash (steps n))) p); try lia.
  - by replace (5 * p) with n by lia.
  - apply (IH (S n)). lia.
Qed.

(** The body only ever appends to [geohash]. *)
Lemma geo_body_extends (s : GeoState) :
  ∃ t, geohash (geo_body lat lng s) = geohash s +:+ t.
Proof.
  destruct (bisect_fields s) as (Hg & _).
  unfold geo_body, emit. destruct (Nat.eqb _ 5); simpl; rewrite Hg.
  - eauto.
  - exists "". by rewrite append_empty_r.
Qed.

Lemma steps_extends (n m : nat) :
  ∃ t, geohash (steps (n + m)) = geohash (steps n) +:+ t.
Proof.
  induction m as [|m [t IH]].
  - rewrite Nat.add_0_r. exists "". by rewrite append_empty_r.
  - rewrite Nat.add_succ_r. destruct (geo_body_extends (steps (n + m))) as [u Hu].
    exists (t +:+ u). change (steps (S (n + m))) with (geo_body lat lng (steps (n + m))).
    by rewrite Hu, IH, append_assoc.
Qed.

Lemma substring_append (s t : string) :
  substring 0 (String.length s) (s +:+ t) = s.
Proof.
  induction s as [|c s IH].
  - rewrite append_nil_l. by destruct t.
  - rewrite append_cons. simpl. by rewrite IH.
Qed.

Lemma geo_loop_init (p : nat) :
  geo_loop (5 * p) lat lng p geo_init = Some (geohash (steps (5 * p))).
Proof. apply (geo_loop_steps p (5 * p) 0). lia. Qed.

Lemma encodeGeohash_terminates (p : nat) :
  geo_loop (5 * p) lat lng p geo_init = Some (encodeGeohash lat lng p).
Proof.
  unfold encodeGeohash. by rewrite geo_loop_init.
Qed.

Lemma encodeGeohash_steps (p : nat) :
  encodeGeohash lat lng p = geohash (steps (5 * p)).
Proof.
  unfold encodeGeohash. by rewrite geo_loop_init.
Qed.

Lemma encodeGeohash_length (p : nat) :
  String.length (encodeGeohash lat lng p) = p.
Proof. rewrite encodeGeohash_steps. apply steps_length. Qed.

Lemma encodeGeohash_prefix (p k : nat) :
  substring 0 p (encodeGeohash lat lng (p + k)) = encodeGeohash lat lng p.
Proof.
  rewrite !encodeGeohash_steps.
  replace (5 * (p + k)) with (5 * p + 5 * k) by lia.
  destruct (steps_extends (5 * p) (5 * k)) as [t ->].
  rewrite <- (steps_length p) at 1. apply substring_append.
Qed.

End Encode.

(** C8. Geohash encoding is a function of (lat, lon, precision) whose loop
    always terminates (five iterations per character suffice), and it is
    prefix-stable: the precision-5 code is the first 5 characters of the
    precision-7 code of the same point. *)
Theorem encodeGeohash_prefix_stable (lat lng : R) :
  geo_loop (5 * 5) lat lng 5 geo_init = Some (encodeGeohash lat lng 5) ∧
  geo_loop (5 * 7) lat lng 7 geo_init = Some (encodeGeohash lat lng 7) ∧
  encodeGeohash lat lng 5 = substring 0 5 (encodeGeohash lat lng 7).
Proof.
  split; [apply encodeGeohash_terminates|].
  split; [apply encodeGeohash_terminates|].
  symmetry. apply (encodeGeohash_prefix lat lng 5 2).
Qed.

(** *** Evaluating the encoder at a concrete point *)

Lemma iter_step {A} (f : A → A) (n : nat) (x y : A) :
  f x = y → Nat.iter (S n) f x = Nat.iter n f y.
Proof. intros <-. by rewrite Nat.iter_succ_r. Qed.

(** One loop iteration on a concrete state: decide the comparison. *)
Ltac geo_eval :=
  unfold geo_body, bisect, emit; cbn;
  match goal with
  | |- context [decide ?P] => destruct (decide P) as [?|?]
  end; cbn; first [exfalso; lra | reflexivity].

(** The first two characters of the code of the point used in the
    specification's scenarios. *)
Example encodeGeohash_delhi_2 :
  encodeGeohash 28.6139 77.2090 2 = "tt"%string.
Proof.
  rewrite encodeGeohash_steps. unfold Geo.steps, geo_init.
  change (5 * 2) with 10.
  do 10 (erewrite iter_step; [|geo_eval]).
  reflexivity.
Qed.

Example encodeGeohash_origin_2 :
  encodeGeohash 0 0 2 = "s0"%string.
Proof.
  rewrite encodeGeohash_steps. unfold Geo.steps, geo_init.
  change (5 * 2) with 10.
  do 10 (erewrite iter_step; [|geo_eval]).
  reflexivity.
Qed.

(** *** The characters of a code *)

Lemma charAt_BASE32_below (i : nat) : below 239 (charAt BASE32 i).
Proof.
  unfold charAt.
  do 32 (destruct i as [|i]; [split; [vm_compute; lia|exact I]|]). done.
Qed.

Lemma below_append (b : nat) (s t : string) :
  below b (s +:+ t) ↔ below b s ∧ below b t.
Proof.
  induction s as [|c s IH]; [rewrite append_nil_l; simpl; tauto|].
  rewrite append_cons. simpl. tauto.
Qed.

Lemma steps_below (lat lng : R) (n : nat) :
  below 239 (geohash (Geo.steps lat lng n)).
Proof.
  induction n as [|n IH]; [exact I|].
  change (Geo.steps lat lng (S n)) with (geo_body lat lng (Geo.steps lat lng n)).
  destruct (bisect_fields lat lng (Geo.steps lat lng n)) as (Hg & _).
  unfold geo_body, emit. destruct (Nat.eqb _ 5); cbn [geohash]; rewrite Hg; [|done].
  apply below_append. split; [done|apply charAt_BASE32_below].
Qed.

Lemma encodeGeohash_below (lat lng : R) (p : nat) :
  below 239 (encodeGeohash lat lng p).
Proof. rewrite encodeGeohash_steps. apply steps_below. Qed.

End GeoFacts.

(** ** Signal Processor: window statistics and the emission gate *)

Module SignalFacts.
Import SensorReading SignalProcessor Examples.

Lemma fold_sum_squares (values : list R) (acc : R) :
  fold_left (λ sum v, sum + v ^ 2)%R values acc
  = (acc + Spec.sum_of_squares values)%R.
Proof.
  revert acc. induction values as [|v vs IH]; intros acc; simpl.
  - lra.
  - rewrite IH. lra.
Qed.

(** C9. [calculateRMS] of the empty list is 0, [calculateRMS [3;4]] is
    [sqrt 12.5], and on every non-empty list it is the square root of the
    mean of the squares of the elements. *)
Theorem calculateRMS_spec :
  calculateRMS [] = 0%R ∧
  calculateRMS [3; 4]%R = sqrt 12.5 ∧
  ∀ (v : R) (vs : list R),
    calculateRMS (v :: vs) = sqrt (Spec.mean_of_squares (v :: vs)).
Proof.
  assert (Hgen : ∀ v vs, calculateRMS (v :: vs) = sqrt (Spec.mean_of_squares (v :: vs))).
  { intros v vs. unfold calculateRMS, Spec.mean_of_squares.
    case_decide as Hlen; [discriminate Hlen|].
    rewrite fold_sum_squares. f_equal. f_equal. lra. }
  split; [|split; [|exact Hgen]].
  - unfold calculateRMS. by case_decide.
  - rewrite Hgen. f_equal. unfold Spec.mean_of_squares. simpl. lra.
Qed.

(** The gate function decides the three conditions of the specification. *)
Lemma shouldEmitWindow_iff (cfg : AppConfig.t) (w : ProcessedWindow.t) :
  shouldEmitWindow cfg w = true ↔ Spec.gate cfg w.
Proof.
  unfold shouldEmitWindow, Spec.gate.
  repeat case_decide; split; intros Hg; try discriminate; try lra; try done.
Qed.

(** What a call of [checkWindowComplete] that completes a window did. *)
Lemma checkWindowComplete_Some (sp sp' : SignalProcessor.t) (w : Completed) :
  checkWindowComplete sp = (sp', Some w) →
  ∃ b0 tl r0 rest,
    let D := AppConfig.windowDurationMs (config sp) in
    buffer sp = b0 :: tl ∧
    (timestamp (List.last (buffer sp) b0) - timestamp b0 >= D)%R ∧
    windowReadings w =
      filter (λ r, timestamp r >= timestamp b0 ∧ timestamp r < timestamp b0 + D)%R
             (buffer sp) ∧
    windowReadings w = r0 :: rest ∧
    processed w = processWindow r0 rest ∧
    called w = shouldEmitWindow (config sp) (processed w) && windowCallback sp ∧
    sp' = {| config := config sp;
             buffer := filter (λ r, timestamp r >= timestamp b0 + D / 2)%R (buffer sp);
             windowCallback := windowCallback sp |}.
Proof.
  unfold checkWindowComplete. intros H.
  destruct (buffer sp) as [|b0 [|b1 tl]] eqn:Hb; try discriminate.
  case_decide as Hspan; [|discriminate].
  match type of H with
  | context [match ?l with [] => _ | _ :: _ => _ end] => destruct l as [|r0 rest] eqn:Hsel
  end; [discriminate|].
  injection H as <- <-. exists b0, (b1 :: tl), r0, rest. simpl. by rewrite Hsel.
Qed.

Lemma checkWindowComplete_None (sp sp' : SignalProcessor.t) :
  checkWindowComplete sp = (sp', None) → sp' = sp.
Proof.
  unfold checkWindowComplete.
  destruct (buffer sp) as [|b0 [|b1 tl]]; try congruence.
  case_decide; [|congruence].
  match goal with
  | |- context [match ?l with [] => _ | _ :: _ => _ end] => destruct l
  end; [congruence|discriminate].
Qed.

Lemma omap_speed_None (l : list SensorReading.t) :
  Forall (λ r, speed (gps r) = None) l →
  omap (λ r, speed (gps r)) l = [].
Proof. induction 1 as [|r l Hr _ IH]; simpl; [done|]. by rewrite Hr. Qed.

(** C3. For every completed window (of a processor whose callback is
    registered) the callback is invoked if and only if the three gate
    conditions hold; and when every selected reading has a null GPS speed
    the average speed is 0, so with a positive speed threshold the window is
    not emitted.  The statement is for the configurations whose sample
    threshold [(windowDurationMs / 1000) * sampleRateHz * 0.5] the code
    computes without rounding ([Spec.exact_threshold]: a window of [m] half
    seconds, a rate of [n] Hz; the default configuration is one of them);
    there the threshold is [m * n / 4] samples. *)
Theorem emission_gate (now : R) (reading : SensorReading.t)
    (sp sp' : SignalProcessor.t) (w : Completed) (m n : Z) :
  Spec.exact_threshold (config sp) m n →
  windowCallback sp = true →
  addReading now reading sp = (sp', Some w) →
  (called w = true ↔ Spec.gate (config sp) (processed w)) ∧
  (Spec.gate (config sp) (processed w) ↔
     (ProcessedWindow.averageSpeed (processed w)
        >= AppConfig.minSpeedThreshold (config sp))%R ∧
     (ProcessedWindow.peakMagnitude (processed w)
        >= AppConfig.magnitudeThreshold (config sp))%R ∧
     (m * n ≤ 4 * Z.of_nat (ProcessedWindow.sampleCount (processed w)))%Z) ∧
  (Forall (λ r, speed (gps r) = None) (windowReadings w) →
     ProcessedWindow.averageSpeed (processed w) = 0%R ∧
     ((AppConfig.minSpeedThreshold (config sp) > 0)%R → called w = false)).
Proof.
  intros (_ & _ & HD & Hrate) Hcb Hadd. unfold addReading in Hadd.
  apply checkWindowComplete_Some in Hadd
    as (b0 & tl & r0 & rest & _ & _ & _ & Hsel & Hproc & Hcalled & _).
  simpl in Hcalled. rewrite Hcb, andb_true_r in Hcalled.
  split; [|split].
  - rewrite Hcalled. apply shouldEmitWindow_iff.
  - unfold Spec.gate. rewrite HD, Hrate.
    assert (Hcount : (INR (ProcessedWindow.sampleCount (processed w))
                        >= 500 * IZR m / 1000 * IZR n * 0.5)%R
                     ↔ (m * n ≤ 4 * Z.of_nat (ProcessedWindow.sampleCount (processed w)))%Z).
    { rewrite INR_IZR_INZ. split.
      - intros Hge. apply le_IZR. rewrite !mult_IZR. lra.
      - intros Hle. apply IZR_le in Hle. rewrite !mult_IZR in Hle. lra. }
    tauto.
  - intros Hnull. rewrite Hsel in Hnull.
    assert (Hspeed : ProcessedWindow.averageSpeed (processed w) = 0%R).
    { rewrite Hproc. unfold processWindow. cbn [ProcessedWindow.averageSpeed].
      rewrite (omap_speed_None _ Hnull).
      case_decide as Hc; [simpl in Hc; lia|done]. }
    split; [done|]. intros Hmin.
    rewrite Hcalled. unfold shouldEmitWindow. rewrite Hspeed.
    case_decide; [done|lra].
Qed.


(** Deciding comparisons of concrete numbers inside a goal. *)
Ltac decide_reals :=
  repeat (cbn;
    match goal with
    | |- context [decide ?P] =>
        destruct (decide P) as [?|?]; [try (exfalso; cbn in *; lra)..]
    end).

Lemma addReading_sp1 :
  addReading 1500 (reading_at 1500) sp1 = (sp2, Some w1).
Proof.
  unfold addReading, pruneOldReadings, push, checkWindowComplete, sp1, sp2, w1.
  decide_reals.
  replace (shouldEmitWindow DEFAULT_CONFIG (processWindow (reading_at 0) [])) with false;
    [done|].
  unfold shouldEmitWindow, processWindow. decide_reals; done.
Qed.

Lemma calculateMagnitude_zero :
  calculateMagnitude {| x := 0; y := 0; z := 0 |} = 9.81%R.
Proof.
  unfold calculateMagnitude. cbn [x y z].
  replace (0 ^ 2 + 0 ^ 2 + 0 ^ 2)%R with 0%R by lra.
  rewrite sqrt_0. unfold Rabs. destruct (Rcase_abs _); lra.
Qed.

Lemma shouldEmitWindow_moving :
  shouldEmitWindow config_1hz (processWindow (moving_at 0) []) = true.
Proof.
  apply shouldEmitWindow_iff. unfold Spec.gate, processWindow, moving_at, average.
  cbn -[calculateMagnitude calculateRMS].
  rewrite calculateMagnitude_zero.
  rewrite decide_True by lia. rewrite decide_False by lia. repeat split; lra.
Qed.

(** A window that passes the gate and is handed to the callback. *)
Lemma addReading_sp_1hz_1 :
  addReading 1500 (moving_at 1500) sp_1hz_1 = (sp_1hz_2, Some w_moving).
Proof.
  unfold addReading, pruneOldReadings, push, checkWindowComplete,
    sp_1hz_1, sp_1hz_2, w_moving.
  decide_reals. by rewrite shouldEmitWindow_moving.
Qed.

Lemma emission_gate_witness :
  (called w_moving = true ↔ Spec.gate (config sp_1hz_1) (processed w_moving)) ∧
  (Spec.gate (config sp_1hz_1) (processed w_moving) ↔
     (ProcessedWindow.averageSpeed (processed w_moving)
        >= AppConfig.minSpeedThreshold (config sp_1hz_1))%R ∧
     (ProcessedWindow.peakMagnitude (processed w_moving)
        >= AppConfig.magnitudeThreshold (config sp_1hz_1))%R ∧
     (3 * 1 ≤ 4 * Z.of_nat (ProcessedWindow.sampleCount (processed w_moving)))%Z) ∧
  (Forall (λ r, speed (gps r) = None) (windowReadings w_moving) →
     ProcessedWindow.averageSpeed (processed w_moving) = 0%R ∧
     ((AppConfig.minSpeedThreshold (config sp_1hz_1) > 0)%R →
      called w_moving = false)).
Proof.
  apply (emission_gate 1500 (moving_at 1500) sp_1hz_1 sp_1hz_2 w_moving 3 1).
  - unfold Spec.exact_threshold. cbn [config sp_1hz_1 config_1hz
      AppConfig.windowDurationMs AppConfig.sampleRateHz].
    split; [lia|]. split; [lia|]. split; lra.
  - reflexivity.
  - apply addReading_sp_1hz_1.
Defined.

End SignalFacts.

(** ** Signal Processor: the train of completed windows *)

Module WindowFacts.
Import SensorReading SignalProcessor Examples SignalFacts.

Lemma last_elem_of {A} (l : list A) (d : A) : l ≠ [] → List.last l d ∈ l.
Proof.
  induction l as [|a [|b l] IH]; intros Hne; [done|apply list_elem_of_here|].
  change (List.last (a :: b :: l) d) with (List.last (b :: l) d).
  apply list_elem_of_further, IH. done.
Qed.

(** The windows completed by a run form a chain, whatever the clock
    values, as long as the readings arrive in non-decreasing time order.
    [lb] bounds the buffered and the future readings from below. *)
Lemma feed_chain (calls : list (R * SensorReading.t)) :
  ∀ (sp : SignalProcessor.t) (lb : R),
    Spec.nondecreasing (Spec.timestamps calls) →
    Forall (λ b, lb <= timestamp b)%R (buffer sp) →
    Forall (λ c, lb <= timestamp c.2)%R calls →
    Forall (λ b, Forall (λ c, timestamp b <= timestamp c.2)%R calls) (buffer sp) →
    Spec.chain (AppConfig.windowDurationMs (config sp)) lb (feed sp calls).2.
Proof.
  induction calls as [|[now r] calls IH]; intros sp lb Hsort Hbuf Hcalls Hle; [done|].
  simpl.
  destruct (addReading now r sp) as [sp1 o] eqn:Hadd.
  destruct (feed sp1 calls) as [sp2 ws] eqn:Hfeed. simpl.
  unfold addReading in Hadd.
  remember (pruneOldReadings now (push r sp)) as spp eqn:Hspp.
  assert (Hcfg : config spp = config sp) by (by subst spp).
  assert (Hsub : ∀ b, b ∈ buffer spp → b ∈ buffer sp ∨ b = r).
  { intros b. subst spp. simpl.
    rewrite list_elem_of_filter, elem_of_app, list_elem_of_singleton. tauto. }
  unfold Spec.nondecreasing, Spec.timestamps in Hsort. rewrite fmap_cons in Hsort.
  apply StronglySorted_inv in Hsort as [Hsort' Hr].
  apply Forall_cons in Hcalls as [Hr_lb Hcalls'].
  rewrite Forall_forall in Hbuf. rewrite Forall_forall in Hle.
  assert (Hbuf1 : ∀ b, b ∈ buffer spp → (lb <= timestamp b)%R).
  { intros b [Hb| ->]%Hsub; [by apply Hbuf|done]. }
  assert (Hle1 : ∀ b, b ∈ buffer spp → Forall (λ c, timestamp b <= timestamp c.2)%R calls).
  { intros b [Hb| ->]%Hsub.
    - specialize (Hle b Hb). by apply Forall_cons in Hle as [_ Hle].
    - by rewrite Forall_fmap in Hr. }
  destruct o as [w|].
  - apply checkWindowComplete_Some in Hadd
      as (b0 & tl & r0 & rest & Hb & Hspan & Hsel & Hcons & Hproc & Hcalled & ->).
    simpl in *. rewrite Hcfg in *.
    set (D := AppConfig.windowDurationMs (config sp)) in *.
    set (s := timestamp b0) in *.
    assert (Hb0 : b0 ∈ buffer spp) by (rewrite Hb; apply list_elem_of_here).
    assert (Hrange : Forall (λ r, s <= timestamp r < s + D)%R (windowReadings w)).
    { rewrite Hsel. apply Forall_forall. intros b [[??] _]%list_elem_of_filter. lra. }
    assert (HD : (0 < D)%R).
    { rewrite Hcons in Hrange. apply Forall_cons in Hrange as [? _]. lra. }
    assert (Hr0 : r0 = b0).
    { rewrite Hb, filter_cons_True in Hsel by (fold s; lra). congruence. }
    assert (Hlast : List.last (buffer spp) b0 ∈ buffer spp).
    { apply last_elem_of. by rewrite Hb. }
    exists s. split; [|split].
    + repeat split; try done.
      * rewrite Hproc. simpl. by rewrite Hr0.
      * rewrite Hproc, Hcons. done.
      * rewrite Hcons. simpl. lia.
    + by apply Hbuf1.
    + specialize (IH {| config := config sp;
                        buffer := filter (λ r, timestamp r >= s + D / 2)%R (buffer spp);
                        windowCallback := windowCallback spp |} (s + D / 2)%R).
      rewrite Hfeed in IH. apply IH; try done; simpl.
      * apply Forall_forall. intros b [? _]%list_elem_of_filter. lra.
      * specialize (Hle1 _ Hlast). eapply Forall_impl; [exact Hle1|].
        intros c Hc. simpl in Hc. lra.
      * apply Forall_forall. intros b [_ ?]%list_elem_of_filter. by apply Hle1.
  - apply checkWindowComplete_None in Hadd as ->. simpl.
    specialize (IH spp lb). rewrite Hfeed, Hcfg in IH. apply IH; try done.
    + by apply Forall_forall.
    + by apply Forall_forall.
Qed.

Lemma emitted_cons (w : Completed) (ws : list Completed) :
  emitted (w :: ws) =
  if called w then processed w :: emitted ws else emitted ws.
Proof.
  unfold emitted. rewrite filter_cons.
  destruct (called w); by case_decide.
Qed.

(** Emitted windows of a chain: distinct spans, at least one sample each. *)
Lemma chain_emitted (D lb : R) (ws : list Completed) :
  Spec.chain D lb ws →
  Forall (λ p, lb <= ProcessedWindow.startTime p ∧
               1 ≤ ProcessedWindow.sampleCount p)%R (emitted ws) ∧
  NoDup (Spec.span <$> emitted ws).
Proof.
  revert lb. induction ws as [|w ws IH]; intros lb Hch.
  - split; [constructor|]. cbn. constructor.
  - destruct Hch as (s & (HD & Hstart & _ & Hcount & Hlen) & Hs & Hch).
    destruct (IH _ Hch) as [Hall Hnd].
    assert (Hall' : Forall (λ p, lb <= ProcessedWindow.startTime p ∧
                                 1 ≤ ProcessedWindow.sampleCount p)%R (emitted ws)).
    { eapply Forall_impl; [exact Hall|]. intros p [??]. split; [lra|done]. }
    rewrite emitted_cons. destruct (called w); [|done].
    split.
    + constructor; [|done]. split; [lra|lia].
    + rewrite fmap_cons. apply NoDup_cons. split; [|done].
      intros (p & Hp & Hin)%list_elem_of_fmap.
      rewrite Forall_forall in Hall. destruct (Hall p Hin) as [Hge _].
      unfold Spec.span in Hp. injection Hp as Hp _. lra.
Qed.

Lemma increasing_nondecreasing (l : list R) :
  Spec.increasing l → Spec.nondecreasing l.
Proof.
  induction 1 as [|a l _ IH Ha]; constructor; [done|].
  eapply Forall_impl; [exact Ha|]. intros b. apply Rlt_le.
Qed.

(** A bound below every reading of a run started with an empty buffer. *)
Lemma calls_lower_bound (calls : list (R * SensorReading.t)) :
  Spec.nondecreasing (Spec.timestamps calls) →
  ∃ lb, Forall (λ c, lb <= timestamp c.2)%R calls.
Proof.
  destruct calls as [|[now r] calls]; [by exists 0%R|].
  unfold Spec.nondecreasing, Spec.timestamps. rewrite fmap_cons.
  intros [_ Hr]%StronglySorted_inv. rewrite Forall_fmap in Hr.
  exists (timestamp r). constructor; [simpl; lra|done].
Qed.

Lemma feed_chain_empty (sp : SignalProcessor.t) (calls : list (R * SensorReading.t)) :
  buffer sp = [] →
  Spec.nondecreasing (Spec.timestamps calls) →
  ∃ lb, Spec.chain (AppConfig.windowDurationMs (config sp)) lb (feed sp calls).2.
Proof.
  intros Hb Hsort. destruct (calls_lower_bound calls Hsort) as [lb Hlb].
  exists lb. apply feed_chain; try done; rewrite Hb; constructor.
Qed.

(** C5. Feeding readings with strictly increasing timestamps to a processor
    that starts with an empty buffer, every emitted window has at least one
    sample and no two emitted windows have the same (startTime, endTime). *)
Theorem emitted_windows_distinct (sp : SignalProcessor.t)
    (calls : list (R * SensorReading.t)) :
  buffer sp = [] →
  Spec.increasing (Spec.timestamps calls) →
  Forall (λ p, 1 ≤ ProcessedWindow.sampleCount p) (emitted (feed sp calls).2) ∧
  NoDup (Spec.span <$> emitted (feed sp calls).2).
Proof.
  intros Hb Hinc.
  destruct (feed_chain_empty sp calls Hb (increasing_nondecreasing _ Hinc)) as [lb Hch].
  destruct (chain_emitted _ _ _ Hch) as [Hall Hnd]. split; [|done].
  eapply Forall_impl; [exact Hall|]. by intros p [_ ?].
Qed.

Lemma two_calls_increasing : Spec.increasing (Spec.timestamps two_calls).
Proof.
  repeat constructor. simpl. lra.
Qed.

Lemma moving_calls_increasing : Spec.increasing (Spec.timestamps moving_calls).
Proof.
  repeat constructor. simpl. lra.
Qed.

(** The run on [moving_calls] emits one window. *)
Lemma feed_moving_calls : (feed sp_1hz moving_calls).2 = [w_moving].
Proof.
  assert (H1 : addReading 0 (moving_at 0) sp_1hz = (sp_1hz_1, None)).
  { unfold addReading, pruneOldReadings, push, checkWindowComplete, sp_1hz, sp_1hz_1.
    decide_reals. done. }
  unfold moving_calls. cbn [feed]. rewrite H1, addReading_sp_1hz_1. done.
Qed.

Lemma emitted_moving_calls :
  emitted (feed sp_1hz moving_calls).2 = [processWindow (moving_at 0) []].
Proof. rewrite feed_moving_calls. unfold emitted. by rewrite filter_cons_True. Qed.

Lemma emitted_windows_distinct_witness :
  Forall (λ p, 1 ≤ ProcessedWindow.sampleCount p)
         (emitted (feed sp_1hz moving_calls).2) ∧
  NoDup (Spec.span <$> emitted (feed sp_1hz moving_calls).2).
Proof.
  apply (emitted_windows_distinct sp_1hz moving_calls).
  - reflexivity.
  - apply moving_calls_increasing.
Defined.

(** *** How many completed windows select a given reading *)

Section Overlap.
Variables (D : R) (r : SensorReading.t).

Lemma windows_with_cons (w : Completed) (ws : list Completed) :
  Spec.windows_with r (w :: ws) =
  if decide (r ∈ windowReadings w)
  then w :: Spec.windows_with r ws else Spec.windows_with r ws.
Proof. unfold Spec.windows_with. by rewrite filter_cons. Qed.

Lemma window_at_range (s : R) (w : Completed) :
  Spec.window_at D s w → r ∈ windowReadings w →
  (s <= timestamp r < s + D)%R.
Proof.
  intros (_ & _ & Hall & _) Hin. rewrite Forall_forall in Hall. by apply Hall.
Qed.

(** A reading older than the bound is in no window of the chain. *)
Lemma chain_before (lb : R) (ws : list Completed) :
  Spec.chain D lb ws → (timestamp r < lb)%R →
  Forall (λ w, r ∉ windowReadings w) ws.
Proof.
  revert lb. induction ws as [|w ws IH]; intros lb Hch Hlt; [constructor|].
  destruct Hch as (s & Hw & Hs & Hch). constructor.
  - intros Hin. pose proof (window_at_range s w Hw Hin). lra.
  - apply (IH _ Hch). destruct Hw as (HD & _). lra.
Qed.

Lemma windows_with_none (ws : list Completed) :
  Forall (λ w, r ∉ windowReadings w) ws → Spec.windows_with r ws = [].
Proof.
  induction 1 as [|w ws Hw _ IH]; [done|].
  rewrite windows_with_cons. by case_decide.
Qed.

(** A reading older than the bound plus half a window is in at most one. *)
Lemma chain_before_half (lb : R) (ws : list Completed) :
  Spec.chain D lb ws → (timestamp r < lb + D / 2)%R →
  length (Spec.windows_with r ws) ≤ 1.
Proof.
  destruct ws as [|w ws]; intros Hch Hlt; [simpl; lia|].
  destruct Hch as (s & Hw & Hs & Hch).
  rewrite windows_with_cons.
  rewrite (windows_with_none ws) by (apply (chain_before _ _ Hch); lra).
  case_decide; simpl; lia.
Qed.

Lemma chain_at_most_two (lb : R) (ws : list Completed) :
  Spec.chain D lb ws → length (Spec.windows_with r ws) ≤ 2.
Proof.
  revert lb. induction ws as [|w ws IH]; intros lb Hch; [simpl; lia|].
  destruct Hch as (s & Hw & Hs & Hch).
  rewrite windows_with_cons. case_decide as Hin.
  - pose proof (window_at_range s w Hw Hin).
    assert (length (Spec.windows_with r ws) ≤ 1)
      by (apply (chain_before_half _ _ Hch); lra).
    simpl. lia.
  - etrans; [apply (IH _ Hch)|lia].
Qed.

(** Two windows that select the same reading are consecutive. *)
Lemma chain_adjacent (lb : R) (ws : list Completed) :
  Spec.chain D lb ws →
  ∀ (i j : nat) (wi wj : Completed),
    ws !! i = Some wi → ws !! j = Some wj →
    r ∈ windowReadings wi → r ∈ windowReadings wj →
    i < j → j = S i.
Proof.
  revert lb. induction ws as [|w ws IH]; intros lb Hch i j wi wj Hi Hj Hri Hrj Hlt;
    [done|].
  destruct Hch as (s & Hw & Hs & Hch).
  destruct j as [|j]; [lia|]. simpl in Hj.
  destruct i as [|i].
  - simpl in Hi. injection Hi as <-.
    pose proof (window_at_range s w Hw Hri).
    destruct ws as [|w2 ws]; [done|].
    destruct Hch as (s2 & Hw2 & Hs2 & Hch).
    destruct j as [|j]; [done|]. simpl in Hj. exfalso.
    assert (Hnone : Forall (λ w, r ∉ windowReadings w) ws).
    { apply (chain_before _ _ Hch). destruct Hw as (HD & _). lra. }
    rewrite Forall_forall in Hnone.
    apply (Hnone wj); [|done]. by eapply list_elem_of_lookup_2.
  - simpl in Hi. f_equal. apply (IH _ Hch i j wi wj); try done. lia.
Qed.

End Overlap.

Lemma feed_app (sp : SignalProcessor.t) (l1 l2 : list (R * SensorReading.t)) :
  feed sp (l1 ++ l2) =
  ((feed (feed sp l1).1 l2).1, (feed sp l1).2 ++ (feed (feed sp l1).1 l2).2).
Proof.
  revert sp. induction l1 as [|[now r] l1 IH]; intros sp.
  - simpl. by destruct (feed sp l2).
  - simpl. destruct (addReading now r sp) as [sp1 o].
    rewrite IH. destruct (feed sp1 l1) as [sp2 ws]. simpl.
    by rewrite app_assoc.
Qed.

(** The first reading of [two_calls] was fed to the processor and is
    selected for exactly one completed window. *)
Lemma feed_two_calls : feed sp0 two_calls = (sp2, [w1]).
Proof.
  assert (H1 : addReading 0 (reading_at 0) sp0 = (sp1, None)).
  { unfold addReading, pruneOldReadings, push, checkWindowComplete, sp0, sp1.
    decide_reals. done. }
  unfold two_calls. cbn [feed]. rewrite H1, addReading_sp1. done.
Qed.

(** However the stream continues after [two_calls], the reading at time 0
    stays selected for one completed window only: the slide dropped it. *)
Lemma first_reading_selected_once (calls : list (R * SensorReading.t)) :
  Spec.increasing (Spec.timestamps (two_calls ++ calls)) →
  length (Spec.windows_with (reading_at 0) (feed sp0 (two_calls ++ calls)).2) = 1.
Proof.
  intros Hinc. rewrite feed_app, feed_two_calls. cbn [fst snd].
  unfold Spec.increasing, Spec.timestamps, two_calls in Hinc.
  rewrite fmap_app, !fmap_cons in Hinc. simpl in Hinc.
  apply StronglySorted_inv in Hinc as [Hinc _].
  apply StronglySorted_inv in Hinc as [Hinc Hgt].
  rewrite Forall_fmap in Hgt.
  assert (Hch : Spec.chain (AppConfig.windowDurationMs (config sp2)) 750
                  (feed sp2 calls).2).
  { apply feed_chain.
    - by apply increasing_nondecreasing.
    - repeat constructor. simpl. lra.
    - eapply Forall_impl; [exact Hgt|]. intros c Hc. simpl in Hc. lra.
    - repeat constructor. eapply Forall_impl; [exact Hgt|].
      intros c Hc. simpl in *. lra. }
  unfold Spec.windows_with. simpl app.
  rewrite filter_cons_True by apply list_elem_of_here.
  fold (Spec.windows_with (reading_at 0) (feed sp2 calls).2).
  rewrite windows_with_none; [done|].
  eapply chain_before; [exact Hch|]. simpl. lra.
Qed.

(** C6 as stated fails: the reading at time 0 of [two_calls] is fed to the
    processor and is in one completed window only. *)
Lemma exactly_two_windows_counterexample :
  ¬ (∀ (sp : SignalProcessor.t) (calls : list (R * SensorReading.t))
       (r : SensorReading.t),
       buffer sp = [] →
       Spec.increasing (Spec.timestamps calls) →
       r ∈ calls.*2 →
       length (Spec.windows_with r (feed sp calls).2) = 2).
Proof.
  intros H.
  specialize (H sp0 two_calls (reading_at 0) eq_refl two_calls_increasing).
  rewrite feed_two_calls in H.
  assert (Hin : reading_at 0 ∈ two_calls.*2) by apply list_elem_of_here.
  specialize (H Hin). cbn [snd] in H.
  unfold Spec.windows_with in H. rewrite filter_cons in H.
  case_decide; simpl in H; lia.
Qed.

(** C6, amended. Feeding readings in non-decreasing time order to a
    processor that starts with an empty buffer, every reading is among the
    selected readings of at most two completed windows, and any two windows
    that select it are consecutive. *)
Theorem reading_in_at_most_two_windows (sp : SignalProcessor.t)
    (calls : list (R * SensorReading.t)) (r : SensorReading.t) :
  buffer sp = [] →
  Spec.nondecreasing (Spec.timestamps calls) →
  length (Spec.windows_with r (feed sp calls).2) ≤ 2 ∧
  ∀ (i j : nat) (wi wj : Completed),
    (feed sp calls).2 !! i = Some wi → (feed sp calls).2 !! j = Some wj →
    r ∈ windowReadings wi → r ∈ windowReadings wj →
    i < j → j = S i.
Proof.
  intros Hb Hsort.
  destruct (feed_chain_empty sp calls Hb Hsort) as [lb Hch]. split.
  - by eapply chain_at_most_two.
  - by eapply chain_adjacent.
Qed.

Lemma reading_in_at_most_two_windows_witness :
  length (Spec.windows_with (reading_at 0) (feed sp0 two_calls).2) ≤ 2 ∧
  ∀ (i j : nat) (wi wj : Completed),
    (feed sp0 two_calls).2 !! i = Some wi → (feed sp0 two_calls).2 !! j = Some wj →
    reading_at 0 ∈ windowReadings wi → reading_at 0 ∈ windowReadings wj →
    i < j → j = S i.
Proof.
  apply (reading_in_at_most_two_windows sp0 two_calls (reading_at 0)).
  - reflexivity.
  - apply increasing_nondecreasing, two_calls_increasing.
Defined.

End WindowFacts.
(** ** Aggregation Engine *)

Module AggregationFacts.
Import Geo GeoFacts Firestore Aggregation Examples.

(** *** String order facts behind the range query *)

Lemma substring_le (n : nat) (g : string) : (substring 0 n g ≤ g)%string.
Proof.
  unfold String.le, String.leb.
  revert g. induction n as [|n IH]; intros [|c g]; simpl; try done.
  unfold Ascii.compare. rewrite N.compare_refl. apply IH.
Qed.

Lemma le_substring_uf8ff (n : nat) (g : string) :
  below 239 g → (g ≤ substring 0 n g +:+ uf8ff)%string.
Proof.
  unfold String.le, String.leb.
  revert g. induction n as [|n IH]; intros [|c g] Hb; try done.
  - change (substring 0 0 (String c g)) with ""%string. rewrite append_nil_l.
    destruct Hb as [Hc _]. unfold uf8ff. simpl. unfold Ascii.compare.
    assert ((N_of_ascii c ?= N_of_ascii (ascii_of_nat 239))%N = Lt) as ->; [|done].
    apply N.compare_lt_iff. unfold nat_of_ascii in Hc.
    change (N_of_ascii (ascii_of_nat 239)) with 239%N. lia.
  - simpl. unfold Ascii.compare. rewrite N.compare_refl. apply IH, Hb.
Qed.

(** *** Distance *)

Lemma atan2_0_1 : atan2 0 1 = 0%R.
Proof.
  unfold atan2. case_decide; [|lra].
  replace (0 / 1)%R with 0%R by lra. apply atan_0.
Qed.

(** Coincident points are at distance zero. *)
Lemma calculateDistance_same (lat lon : R) :
  calculateDistance lat lon lat lon = 0%R.
Proof.
  unfold calculateDistance. cbv zeta.
  replace ((lat - lat) * PI / 180 / 2)%R with 0%R by lra.
  replace ((lon - lon) * PI / 180 / 2)%R with 0%R by lra.
  rewrite sin_0.
  replace (0 * 0 + cos (lat * PI / 180) * cos (lat * PI / 180) * 0 * 0)%R
    with 0%R by lra.
  rewrite sqrt_0. replace (1 - 0)%R with 1%R by lra. rewrite sqrt_1, atan2_0_1. lra.
Qed.

(** *** The matching loop *)

Lemma findMatch_first (detection : Detection.t)
    (docs before after : list Doc) (m : Doc) :
  Spec.first_within detection docs before m after →
  findMatch (LatLng.latitude (Detection.location detection))
            (LatLng.longitude (Detection.location detection)) docs = Some m.
Proof.
  intros (-> & Hfar & Hnear). induction Hfar as [|d before Hd _ IH]; simpl.
  - unfold Spec.distanceTo, AGGREGATION_RADIUS in *. by case_decide.
  - unfold Spec.distanceTo, AGGREGATION_RADIUS in *. case_decide; [lra|done].
Qed.

Lemma findMatch_none (detection : Detection.t) (docs : list Doc) :
  Forall (λ d, Spec.distanceTo detection d.2 > 25)%R docs →
  findMatch (LatLng.latitude (Detection.location detection))
            (LatLng.longitude (Detection.location detection)) docs = None.
Proof.
  induction 1 as [|d docs Hd _ IH]; simpl; [done|].
  unfold Spec.distanceTo, AGGREGATION_RADIUS in *. case_decide; [lra|done].
Qed.

Lemma nearbyReports_elem (gh : string) (dt : DefectType) (c : Collection) (d : Doc) :
  d ∈ nearbyReports gh dt c →
  c !! d.1 = Some d.2 ∧ AggregatedReport.defectType d.2 = dt.
Proof.
  unfold nearbyReports, Firestore.get.
  intros [(_ & _ & Hdt) Hin]%list_elem_of_filter.
  split; [|done]. by apply elem_of_map_to_list'.
Qed.

(** What the trigger does when the loop finds [m]. *)
Lemma aggregateDetection_match (detection : Detection.t) (c : Collection)
    (before after : list Doc) (m : Doc) :
  Detection.defectType detection ≠ normal →
  Spec.first_within detection
    (nearbyReports
       (encodeGeohash (LatLng.latitude (Detection.location detection))
                      (LatLng.longitude (Detection.location detection)) 7)
       (Detection.defectType detection) c)
    before m after →
  c !! m.1 = Some m.2 ∧
  ∃ u, aggregateDetection detection c = Some (<[m.1 := applyUpdate u m.2]> c) ∧
       u = {| UpdateData.geohash := None;
              UpdateData.location := None;
              UpdateData.defectType := None;
              UpdateData.averageSeverity :=
                Some ((AggregatedReport.averageSeverity m.2
                       * INR (AggregatedReport.reportCount m.2)
                       + Detection.severity detection)
                      / INR (AggregatedReport.reportCount m.2 + 1))%R;
              UpdateData.reportCount := Some (AggregatedReport.reportCount m.2 + 1);
              UpdateData.uniqueUsers :=
                Some (if decide (Detection.userId detection
                                 ∈ AggregatedReport.uniqueUsers m.2)
                      then AggregatedReport.uniqueUsers m.2
                      else AggregatedReport.uniqueUsers m.2
                           ++ [Detection.userId detection]);
              UpdateData.firstReported := None;
              UpdateData.lastReported := Some (Detection.timestamp detection);
              UpdateData.credibilityScore :=
                Some (Rmin 1
                  (0.3 + INR (length
                      (if decide (Detection.userId detection
                                  ∈ AggregatedReport.uniqueUsers m.2)
                       then AggregatedReport.uniqueUsers m.2
                       else AggregatedReport.uniqueUsers m.2
                            ++ [Detection.userId detection])) * 0.15
                   + log10 (INR (AggregatedReport.reportCount m.2 + 1)) * 0.2)) |}.
Proof.
  intros Hdt Hfirst.
  assert (Hin : c !! m.1 = Some m.2).
  { destruct Hfirst as (Heq & _).
    eapply nearbyReports_elem. erewrite Heq.
    apply elem_of_app. right. apply list_elem_of_here. }
  split; [done|]. eexists. split; [|reflexivity].
  unfold aggregateDetection. case_decide; [done|].
  rewrite (findMatch_first _ _ _ _ _ Hfirst).
  unfold Firestore.update. by rewrite Hin.
Qed.



(** C2. When no report of the detection's type is within 25 m, the trigger
    adds exactly one document, under an id that was unused, and leaves the
    others alone; the new report counts one detection by one user, carries
    the detection's severity and timestamp, credibility 0.3, and the
    precision-7 geohash of the detection's point. *)
Theorem aggregateDetection_creates (detection : Detection.t) (c : Collection) :
  Detection.defectType detection ≠ normal →
  (∀ id r, c !! id = Some r →
     AggregatedReport.defectType r = Detection.defectType detection →
     (Spec.distanceTo detection r > 25)%R) →
  ∃ id,
    c !! id = None ∧
    aggregateDetection detection c = Some (<[id :=
      {| AggregatedReport.geohash :=
           encodeGeohash (LatLng.latitude (Detection.location detection))
                         (LatLng.longitude (Detection.location detection)) 7;
         AggregatedReport.location :=
           {| LatLng.latitude := LatLng.latitude (Detection.location detection);
              LatLng.longitude := LatLng.longitude (Detection.location detection) |};
         AggregatedReport.defectType := Detection.defectType detection;
         AggregatedReport.averageSeverity := Detection.severity detection;
         AggregatedReport.reportCount := 1;
         AggregatedReport.uniqueUsers := [Detection.userId detection];
         AggregatedReport.firstReported := Detection.timestamp detection;
         AggregatedReport.lastReported := Detection.timestamp detection;
         AggregatedReport.credibilityScore := 0.3 |}]> c).
Proof.
  intros Hdt Hfar. exists (newId c). split.
  - apply not_elem_of_dom. unfold newId. apply is_fresh.
  - unfold aggregateDetection. case_decide; [done|].
    rewrite (findMatch_none detection); [done|].
    apply Forall_forall. intros d Hd.
    apply nearbyReports_elem in Hd as [Hlook Hty]. by eapply Hfar.
Qed.

(** *** The specification's scenario: a second detection at the same point *)

Lemma aggregateDetection_creates_witness :
  ∃ id, (∅ : Collection) !! id = None ∧
        aggregateDetection detection1 ∅ = Some (<[id := report1]> ∅).
Proof.
  apply (aggregateDetection_creates detection1 ∅).
  - discriminate.
  - intros id r H. by rewrite lookup_empty in H.
Defined.

Lemma nearbyReports_store1 :
  nearbyReports (encodeGeohash 28.6139 77.2090 7) pothole store1
  = [(newId ∅, report1)].
Proof.
  unfold nearbyReports, Firestore.get, store1, Firestore.add.
  rewrite insert_empty, map_to_list_singleton.
  rewrite filter_cons_True; [done|]. cbn. split; [|split; [|done]].
  - apply substring_le.
  - apply le_substring_uf8ff, encodeGeohash_below.
Qed.

Lemma first_within_store1 :
  Spec.first_within detection2
    (nearbyReports
       (encodeGeohash (LatLng.latitude (Detection.location detection2))
                      (LatLng.longitude (Detection.location detection2)) 7)
       (Detection.defectType detection2) store1)
    [] (newId ∅, report1) [].
Proof.
  split; [apply nearbyReports_store1|]. split; [constructor|].
  unfold Spec.distanceTo. cbn. rewrite calculateDistance_same. lra.
Qed.



(** The scenario of the specification: after the second detection the
    report counts two detections by two users and its credibility is above
    the prior 0.3. *)
Example second_detection_scenario :
  ∃ r',
    aggregateDetection detection2 store1 = Some (<[newId ∅ := r']> store1) ∧
    AggregatedReport.reportCount r' = 2 ∧
    AggregatedReport.uniqueUsers r' = ["alice"; "bob"]%string ∧
    AggregatedReport.averageSeverity r' = 7%R ∧
    (0.3 < AggregatedReport.credibilityScore r' <= 1)%R.
Proof.
  destruct (aggregateDetection_match detection2 store1 [] [] (newId ∅, report1))
    as (_ & u & Hagg & ->); [discriminate|apply first_within_store1|].
  eexists. split; [exact Hagg|]. cbn.
  rewrite decide_False by (by intros [=]%list_elem_of_singleton). cbn.
  split; [done|]. split; [done|]. split; [lra|].
  split; [|apply Rmin_l].
  assert (0 < ln 2)%R by (rewrite <- ln_1; apply ln_increasing; lra).
  assert (0 < ln 10)%R by (rewrite <- ln_1; apply ln_increasing; lra).
  assert (0 < log10 (1 + 1))%R.
  { unfold log10. apply Rdiv_lt_0_compat; [|done].
    by replace (1 + 1)%R with 2%R by lra. }
  apply Rmin_glb_lt; lra.
Qed.

(** *** Retention Sweeper *)

Lemma batchDelete_lookup (docs : list Doc) (c : Collection) (id : string) :
  batchDelete docs c !! id = if decide (id ∈ docs.*1) then None else c !! id.
Proof.
  induction docs as [|d docs IH]; [done|].
  cbn [batchDelete foldr]. fold (batchDelete docs c). rewrite fmap_cons.
  destruct (decide (d.1 = id)) as [<-|Hne].
  - rewrite lookup_delete_eq.
    destruct (decide (d.1 ∈ d.1 :: docs.*1)) as [H|H]; [done|].
    exfalso. apply H, list_elem_of_here.
  - rewrite lookup_delete_ne by done. rewrite IH.
    destruct (decide (id ∈ docs.*1)) as [Hin|Hin];
      destruct (decide (id ∈ d.1 :: docs.*1)) as [Hin'|Hin']; try done.
    + exfalso. by apply Hin', list_elem_of_further.
    + apply elem_of_cons in Hin' as [?|?]; [congruence|done].
Qed.

Lemma cleanupOldDetections_lookup (now : R) (c : Collection) (id : string) :
  cleanupOldDetections now c !! id =
  match c !! id with
  | Some r => if decide (Spec.stale now r) then None else Some r
  | None => None
  end.
Proof.
  unfold cleanupOldDetections. cbv zeta.
  match goal with |- context [Firestore.get ?P c] => set (l := Firestore.get P c) end.
  assert (Hl : ∀ r, c !! id = Some r → (id ∈ l.*1 ↔ Spec.stale now r)).
  { intros r Hr. unfold l, Firestore.get. rewrite list_elem_of_fmap. split.
    - intros ([id' r'] & -> & [Hst Hin]%list_elem_of_filter).
      apply elem_of_map_to_list in Hin. simpl in *.
      assert (r' = r) as -> by congruence.
      unfold Spec.stale, Spec.days. split; [tauto|lra].
    - intros [Hc Hlast]. exists (id, r). split; [done|].
      apply list_elem_of_filter. split; [|by apply elem_of_map_to_list].
      simpl. unfold Spec.days in Hlast. split; [done|lra]. }
  assert (Hn : c !! id = None → id ∉ l.*1).
  { intros Hnone ([id' r'] & -> & [_ Hin]%list_elem_of_filter)%list_elem_of_fmap.
    apply elem_of_map_to_list in Hin. simpl in *. congruence. }
  assert (Hres : (if decide (0 < length l) then batchDelete l c else c) !! id
                 = if decide (id ∈ l.*1) then None else c !! id).
  { case_decide as Hlen; [apply batchDelete_lookup|].
    destruct l; [|simpl in Hlen; lia].
    case_decide as H; [by apply elem_of_nil in H|done]. }
  rewrite Hres. clear Hres. destruct (c !! id) as [r|] eqn:Hc.
  - specialize (Hl r eq_refl).
    destruct (decide (id ∈ l.*1)), (decide (Spec.stale now r)); try done; tauto.
  - by destruct (decide (id ∈ l.*1)).
Qed.

(** C4. One run of the sweeper deletes a report exactly when its
    reportCount is 1 and its lastReported is before the 30-day cutoff, and
    keeps every other report as it is: a single-detection report 31 days
    old goes, one 29 days old stays, a report with two or more detections
    stays whatever its age.  A second run at the same clock reading deletes
    nothing, and so does a later run as long as no single-detection report
    crossed the cutoff in between. *)
Theorem cleanupOldDetections_spec (now : R) (c : Collection) :
  (∀ id r, c !! id = Some r →
     (cleanupOldDetections now c !! id = None ↔
        AggregatedReport.reportCount r = 1 ∧
        (AggregatedReport.lastReported r < now - Spec.days 30)%R) ∧
     (cleanupOldDetections now c !! id = None ∨
      cleanupOldDetections now c !! id = Some r)) ∧
  (∀ id, c !! id = None → cleanupOldDetections now c !! id = None) ∧
  (∀ id r, c !! id = Some r → AggregatedReport.reportCount r = 1 →
     AggregatedReport.lastReported r = (now - Spec.days 31)%R →
     cleanupOldDetections now c !! id = None) ∧
  (∀ id r, c !! id = Some r → AggregatedReport.reportCount r = 1 →
     AggregatedReport.lastReported r = (now - Spec.days 29)%R →
     cleanupOldDetections now c !! id = Some r) ∧
  (∀ id r, c !! id = Some r → 2 ≤ AggregatedReport.reportCount r →
     cleanupOldDetections now c !! id = Some r) ∧
  cleanupOldDetections now (cleanupOldDetections now c) = cleanupOldDetections now c ∧
  (∀ now',
     (∀ id r, c !! id = Some r → AggregatedReport.reportCount r = 1 →
        ¬ (now - Spec.days 30 <= AggregatedReport.lastReported r
           < now' - Spec.days 30)%R) →
     cleanupOldDetections now' (cleanupOldDetections now c)
     = cleanupOldDetections now c).
Proof.
  assert (Hlater : ∀ now',
     (∀ id r, c !! id = Some r → AggregatedReport.reportCount r = 1 →
        ¬ (now - Spec.days 30 <= AggregatedReport.lastReported r
           < now' - Spec.days 30)%R) →
     cleanupOldDetections now' (cleanupOldDetections now c)
     = cleanupOldDetections now c).
  { intros now' Hcross. apply map_eq. intros id.
    rewrite (cleanupOldDetections_lookup now').
    destruct (cleanupOldDetections now c !! id) as [r|] eqn:Hr; [|done].
    rewrite cleanupOldDetections_lookup in Hr.
    destruct (c !! id) as [r0|] eqn:Hc; [|done].
    case_decide as Hst; [done|]. injection Hr as ->.
    case_decide as Hst'; [|done]. exfalso.
    destruct Hst' as [Hc1 Hlast]. apply (Hcross id r Hc Hc1).
    unfold Spec.stale in Hst. split; [|done].
    destruct (Rle_dec (now - Spec.days 30) (AggregatedReport.lastReported r)); [done|].
    exfalso. apply Hst. split; [done|lra]. }
  split.
  { intros id r Hc. rewrite cleanupOldDetections_lookup, Hc. split.
    - split.
      + case_decide as Hst; [by destruct Hst|done].
      + intros Hst. by rewrite decide_True.
    - case_decide; auto. }
  split.
  { intros id Hnone. by rewrite cleanupOldDetections_lookup, Hnone. }
  split.
  { intros id r Hc Hone Hlast. rewrite cleanupOldDetections_lookup, Hc.
    rewrite decide_True; [done|]. split; [done|].
    rewrite Hlast. unfold Spec.days. lra. }
  split.
  { intros id r Hc Hone Hlast. rewrite cleanupOldDetections_lookup, Hc.
    rewrite decide_False; [done|]. intros [_ Hst].
    rewrite Hlast in Hst. unfold Spec.days in Hst. lra. }
  split.
  { intros id r Hc Htwo. rewrite cleanupOldDetections_lookup, Hc.
    rewrite decide_False; [done|]. intros [Hst _]. lia. }
  split; [|exact Hlater].
  apply Hlater. intros id r _ _ [? ?]. lra.
Qed.

End AggregationFacts.

(** ** The detection-save path *)

Module DashboardFacts.
Import Classifier Dashboard Examples.

Lemma truthy_Some (v : string) : truthy (Some v) = true ↔ v ≠ ""%string.
Proof.
  unfold truthy. destruct (String.eqb_spec v ""); simpl; split; congruence.
Qed.

(** The server classifies [window_faint] as a pothole, with confidence
    0.608. *)
Lemma classifyDefectML_faint :
  DetectionResult.defectType (classifyDefectML window_faint) = pothole ∧
  DetectionResult.confidence (classifyDefectML window_faint) = 0.608%R.
Proof.
  unfold classifyDefectML, window_faint. cbn.
  case_decide as H; [|exfalso; apply H; split; lra].
  cbn. split; [done|]. unfold Rmin. destruct (Rle_dec _ _); lra.
Qed.

(** C10. The handler hands a Detection to [saveDetection] exactly when a
    session and a user are set, the classifier's result is not [normal],
    and its confidence is at least the configured threshold 0.7; the saved
    record carries the result and the window.  A pothole or speed-breaker
    result below the threshold is dropped, as is the low-confidence pothole
    of [window_faint]. *)
Theorem handleProcessedWindow_saves_iff (sessionId : option string)
    (userId : string) (remote : ProcessedWindow.t → option DetectionResult.t)
    (window : ProcessedWindow.t) :
  (∀ d, handleProcessedWindow sessionId userId remote window = Some d ↔
     ∃ sid, sessionId = Some sid ∧ sid ≠ ""%string ∧ userId ≠ ""%string ∧
       DetectionResult.defectType (classifyWithML remote window) ≠ normal ∧
       (DetectionResult.confidence (classifyWithML remote window) >= 0.7)%R ∧
       d = {| Detection.sessionId := sid;
              Detection.userId := userId;
              Detection.timestamp := ProcessedWindow.endTime window;
              Detection.location := ProcessedWindow.centroid window;
              Detection.defectType :=
                DetectionResult.defectType (classifyWithML remote window);
              Detection.confidence :=
                DetectionResult.confidence (classifyWithML remote window);
              Detection.severity :=
                DetectionResult.severity (classifyWithML remote window);
              Detection.processedWindow := window |}) ∧
  ((DetectionResult.confidence (classifyWithML remote window) < 0.7)%R →
     handleProcessedWindow sessionId userId remote window = None) ∧
  handleProcessedWindow (Some "session-1"%string) "alice"
    (classifyDefect true) window_faint = None.
Proof.
  split; [|split].
  - intros d. unfold handleProcessedWindow.
    destruct sessionId as [sid|]; [|split; [done|by intros (? & ? & _)]].
    destruct (truthy (Some sid)) eqn:Hs, (truthy (Some userId)) eqn:Hu; simpl.
    + apply truthy_Some in Hs, Hu. case_decide as Hok; cbn in Hok.
      * split.
        -- intros [= <-]. exists sid. destruct Hok. repeat split; done.
        -- intros (sid' & [= <-] & _ & _ & _ & _ & ->). done.
      * split; [done|]. intros (sid' & _ & _ & _ & Hn & Hc & _).
        exfalso. apply Hok. done.
    + split; [done|]. intros (sid' & _ & _ & Hu' & _).
      apply truthy_Some in Hu'. congruence.
    + split; [done|]. intros (sid' & [= <-] & Hs' & _).
      apply truthy_Some in Hs'. congruence.
    + split; [done|]. intros (sid' & [= <-] & Hs' & _).
      apply truthy_Some in Hs'. congruence.
  - intros Hlow. unfold handleProcessedWindow.
    destruct sessionId as [sid|]; [|done].
    destruct (_ || _); [done|].
    case_decide as Hok; [|done]. cbn in Hok. destruct Hok as [_ Hok]. lra.
  - unfold handleProcessedWindow. cbn [truthy negb orb String.eqb]. simpl.
    destruct classifyDefectML_faint as [_ Hc].
    case_decide as Hok; [|done]. cbn in Hok. destruct Hok as [_ Hok].
    unfold classifyWithML, classifyDefect in Hok. rewrite Hc in Hok. lra.
Qed.

End DashboardFacts.

(** ** Rounding *)

Module RoundFacts.
Import Classifier.

Lemma Math_round_bounds (v : R) :
  (v - 1 / 2 < Math_round v <= v + 1 / 2)%R.
Proof.
  unfold Math_round. destruct (base_Int_part (v + 1 / 2)) as [Hle Hgt]. lra.
Qed.

Lemma Math_round_IZR (z : Z) : Math_round (IZR z) = IZR z.
Proof.
  unfold Math_round. f_equal. symmetry. apply Int_part_spec. lra.
Qed.

Lemma Math_round_mono (v w : R) :
  (v <= w)%R → (Math_round v <= Math_round w)%R.
Proof.
  intros Hvw. unfold Math_round. apply IZR_le.
  destruct (Z.le_gt_cases (Int_part (v + 1 / 2)) (Int_part (w + 1 / 2)))
    as [Hle|Hgt]; [done|exfalso].
  assert (Hstep : (Int_part (w + 1 / 2) + 1 ≤ Int_part (v + 1 / 2))%Z) by lia.
  apply IZR_le in Hstep. rewrite plus_IZR in Hstep.
  destruct (base_Int_part (v + 1 / 2)), (base_Int_part (w + 1 / 2)). lra.
Qed.

(** Rounding keeps a value between two integers that bound it. *)
Lemma Math_round_between (lo hi : Z) (v : R) :
  (IZR lo <= v <= IZR hi)%R →
  ∃ z, Math_round v = IZR z ∧ (lo ≤ z ≤ hi)%Z.
Proof.
  intros [Hlo Hhi]. exists (Int_part (v + 1 / 2)). split; [done|].
  apply Math_round_mono in Hlo, Hhi. rewrite Math_round_IZR in Hlo, Hhi.
  unfold Math_round in Hlo, Hhi. split; by apply le_IZR.
Qed.

End RoundFacts.

(** ** Severity from magnitude *)

Module SeverityFacts.
Import Classifier Severity RoundFacts SignalProcessor.

Lemma normalized_range (a : R) : (0 <= Rmin 1 (Rmax 0 a) <= 1)%R.
Proof.
  split; [apply Rmin_glb; [lra|apply Rmax_l]|apply Rmin_l].
Qed.

Lemma normalized_mono (a b : R) :
  (a <= b)%R → (Rmin 1 (Rmax 0 a) <= Rmin 1 (Rmax 0 b))%R.
Proof.
  intros Hab. apply Rle_min_compat_l.
  apply Rmax_lub; [apply Rmax_l|]. etrans; [exact Hab|apply Rmax_r].
Qed.

(** X1. With a magnitude threshold below 15, the severity computed from a
    magnitude is an integer between 1 and 10, grows with the magnitude,
    is 1 up to the threshold and 10 from magnitude 15 on. *)
Theorem getSeverityFromMagnitude_scale (sp : SignalProcessor.t) (magnitude : R) :
  (AppConfig.magnitudeThreshold (config sp) < 15)%R →
  (∃ z, getSeverityFromMagnitude sp magnitude = IZR z ∧ (1 ≤ z ≤ 10)%Z) ∧
  ((magnitude <= AppConfig.magnitudeThreshold (config sp))%R →
     getSeverityFromMagnitude sp magnitude = 1%R) ∧
  ((15 <= magnitude)%R → getSeverityFromMagnitude sp magnitude = 10%R) ∧
  (∀ magnitude', (magnitude <= magnitude')%R →
     (getSeverityFromMagnitude sp magnitude
      <= getSeverityFromMagnitude sp magnitude')%R).
Proof.
  intros Hthr. unfold getSeverityFromMagnitude. cbv zeta.
  set (thr := AppConfig.magnitudeThreshold (config sp)) in *.
  assert (Hden : (0 < 15 - thr)%R) by lra.
  assert (Hinv : (0 < / (15 - thr))%R) by (by apply Rinv_0_lt_compat).
  assert (Hone : ((15 - thr) * / (15 - thr) = 1)%R) by (apply Rinv_r; lra).
  split; [|split; [|split]].
  - destruct (normalized_range ((magnitude - thr) / (15 - thr))) as [H0 H1].
    destruct (Math_round_between 0 9
                (Rmin 1 (Rmax 0 ((magnitude - thr) / (15 - thr))) * 9))
      as (z & Hz & Hr); [lra|].
    exists (z + 1)%Z. rewrite Hz, plus_IZR. split; [done|lia].
  - intros Hlow.
    assert (Hq : ((magnitude - thr) / (15 - thr) <= 0)%R).
    { unfold Rdiv. nra. }
    rewrite (Rmax_left 0) by done. rewrite Rmin_right by lra.
    replace (0 * 9)%R with (IZR 0) by lra. rewrite Math_round_IZR. lra.
  - intros Hhigh.
    assert (Hq : (1 <= (magnitude - thr) / (15 - thr))%R).
    { unfold Rdiv. nra. }
    rewrite (Rmax_right 0) by lra. rewrite Rmin_left by done.
    replace (1 * 9)%R with (IZR 9) by lra. rewrite Math_round_IZR. lra.
  - intros m' Hm. apply Rplus_le_compat_r, Math_round_mono.
    apply Rmult_le_compat_r; [lra|]. apply normalized_mono.
    apply Rmult_le_compat_r; [|lra]. by left.
Qed.

Lemma getSeverityFromMagnitude_scale_witness :
  (∃ z, getSeverityFromMagnitude Examples.sp0 7 = IZR z ∧ (1 ≤ z ≤ 10)%Z) ∧
  ((7 <= AppConfig.magnitudeThreshold (config Examples.sp0))%R →
     getSeverityFromMagnitude Examples.sp0 7 = 1%R) ∧
  ((15 <= 7)%R → getSeverityFromMagnitude Examples.sp0 7 = 10%R) ∧
  (∀ magnitude', (7 <= magnitude')%R →
     (getSeverityFromMagnitude Examples.sp0 7
      <= getSeverityFromMagnitude Examples.sp0 magnitude')%R).
Proof.
  apply (getSeverityFromMagnitude_scale Examples.sp0 7). simpl. lra.
Defined.

End SeverityFacts.

(** ** Signal Processor: window summaries and the buffer *)

Module SummaryFacts.
Import SensorReading SignalProcessor Examples SignalFacts.

Lemma fold_left_Rmax_init (l : list R) (a : R) : (a <= fold_left Rmax l a)%R.
Proof.
  revert a. induction l as [|b l IH]; intros a; simpl; [lra|].
  etrans; [apply (Rmax_l a b)|apply IH].
Qed.

Lemma fold_left_Rmax_elem (l : list R) (a v : R) :
  v ∈ l → (v <= fold_left Rmax l a)%R.
Proof.
  revert a. induction l as [|b l IH]; intros a Hin; [by apply elem_of_nil in Hin|].
  simpl. apply elem_of_cons in Hin as [->|Hin]; [|by apply IH].
  etrans; [apply (Rmax_r a b)|apply fold_left_Rmax_init].
Qed.

Lemma fold_left_Rmax_attained (l : list R) (a : R) :
  fold_left Rmax l a = a ∨ fold_left Rmax l a ∈ l.
Proof.
  revert a. induction l as [|b l IH]; intros a; simpl; [by left|].
  destruct (IH (Rmax a b)) as [->|Hin].
  - unfold Rmax. destruct (Rle_dec a b); [right; apply list_elem_of_here|by left].
  - right. by apply list_elem_of_further.
Qed.

Lemma calculateMagnitude_nonneg (acc : Accel) : (0 <= calculateMagnitude acc)%R.
Proof. unfold calculateMagnitude. apply Rabs_pos. Qed.

(** X2. In every window summary the peak magnitude is the magnitude of
    one of the window's readings and bounds them all, and neither the peak
    nor the RMS magnitude is negative. *)
Theorem processWindow_magnitudes (r0 : SensorReading.t) (rest : list SensorReading.t) :
  (0 <= ProcessedWindow.magnitude (processWindow r0 rest))%R ∧
  (0 <= ProcessedWindow.peakMagnitude (processWindow r0 rest))%R ∧
  Forall (λ r, calculateMagnitude (accelerometer r)
               <= ProcessedWindow.peakMagnitude (processWindow r0 rest))%R
         (r0 :: rest) ∧
  ∃ r, r ∈ r0 :: rest ∧
       ProcessedWindow.peakMagnitude (processWindow r0 rest)
       = calculateMagnitude (accelerometer r).
Proof.
  unfold processWindow. cbn [ProcessedWindow.magnitude ProcessedWindow.peakMagnitude].
  set (mag := λ r : SensorReading.t, calculateMagnitude (accelerometer r)).
  set (peak := fold_left Rmax (map mag rest) (mag r0)).
  assert (Hall : Forall (λ r, mag r <= peak)%R (r0 :: rest)).
  { constructor; [apply fold_left_Rmax_init|].
    apply Forall_forall. intros r Hr. apply fold_left_Rmax_elem.
    change (map mag rest) with (mag <$> rest). by apply list_elem_of_fmap_2. }
  split; [|split; [|split; [done|]]].
  - unfold calculateRMS. case_decide; [lra|apply sqrt_pos].
  - etrans; [apply (calculateMagnitude_nonneg (accelerometer r0))|].
    apply fold_left_Rmax_init.
  - destruct (fold_left_Rmax_attained (map mag rest) (mag r0)) as [Heq|Hin].
    + exists r0. split; [apply list_elem_of_here|done].
    + change (map mag rest) with (mag <$> rest) in Hin.
      apply list_elem_of_fmap in Hin as (r & Hr & Hin).
      exists r. split; [by apply list_elem_of_further|done].
Qed.

(** *** What [addReading] does to the buffer *)

(** X4. Every window completed by [addReading] covers less than one window
    duration: its summary has startTime <= endTime < startTime +
    windowDurationMs (so the duration is positive), counts the selected
    readings, of which there is at least one; every selected reading has its
    timestamp in that span and was buffered before the call or is the new
    one. *)
Theorem completed_window_span (now : R) (reading : SensorReading.t)
    (sp sp' : SignalProcessor.t) (w : Completed) :
  addReading now reading sp = (sp', Some w) →
  (0 < AppConfig.windowDurationMs (config sp))%R ∧
  (ProcessedWindow.startTime (processed w) <= ProcessedWindow.endTime (processed w)
     < ProcessedWindow.startTime (processed w)
       + AppConfig.windowDurationMs (config sp))%R ∧
  ProcessedWindow.sampleCount (processed w) = length (windowReadings w) ∧
  1 ≤ length (windowReadings w) ∧
  Forall (λ r, ProcessedWindow.startTime (processed w) <= timestamp r
               < ProcessedWindow.startTime (processed w)
                 + AppConfig.windowDurationMs (config sp))%R
         (windowReadings w) ∧
  (∀ r, r ∈ windowReadings w → r ∈ buffer sp ∨ r = reading).
Proof.
  unfold addReading. intros Hadd.
  apply checkWindowComplete_Some in Hadd
    as (b0 & tl & r0 & rest & Hb & Hspan & Hsel & Hcons & Hproc & _ & _).
  cbn [config pruneOldReadings push] in *.
  set (D := AppConfig.windowDurationMs (config sp)) in *.
  assert (Hrange : ∀ r, r ∈ windowReadings w →
            (timestamp b0 <= timestamp r < timestamp b0 + D)%R).
  { intros r. rewrite Hsel. intros [[??] _]%list_elem_of_filter. lra. }
  assert (HD : (0 < D)%R).
  { specialize (Hrange r0). rewrite Hcons in Hrange.
    specialize (Hrange (list_elem_of_here _ _)). lra. }
  assert (Hr0 : r0 = b0).
  { rewrite Hb, filter_cons_True in Hsel by lra. congruence. }
  assert (Hlast : List.last (r0 :: rest) r0 ∈ windowReadings w).
  { rewrite Hcons. by apply WindowFacts.last_elem_of. }
  apply Hrange in Hlast.
  split; [done|]. rewrite Hproc. unfold processWindow.
  cbn [ProcessedWindow.startTime ProcessedWindow.endTime ProcessedWindow.sampleCount].
  rewrite Hr0 in *. split; [lra|]. split; [by rewrite Hcons|].
  split; [rewrite Hcons; simpl; lia|]. split; [by apply Forall_forall|].
  intros r. rewrite Hsel. intros [_ Hin]%list_elem_of_filter.
  apply list_elem_of_filter in Hin as [_ Hin].
  apply elem_of_app in Hin as [?|Hin]; [by left|right].
  by apply list_elem_of_singleton in Hin.
Qed.

Lemma completed_window_span_witness :
  (0 < AppConfig.windowDurationMs (config sp_1hz_1))%R ∧
  (ProcessedWindow.startTime (processed w_moving)
     <= ProcessedWindow.endTime (processed w_moving)
     < ProcessedWindow.startTime (processed w_moving)
       + AppConfig.windowDurationMs (config sp_1hz_1))%R ∧
  ProcessedWindow.sampleCount (processed w_moving) = length (windowReadings w_moving) ∧
  1 ≤ length (windowReadings w_moving) ∧
  Forall (λ r, ProcessedWindow.startTime (processed w_moving) <= timestamp r
               < ProcessedWindow.startTime (processed w_moving)
                 + AppConfig.windowDurationMs (config sp_1hz_1))%R
         (windowReadings w_moving) ∧
  (∀ r, r ∈ windowReadings w_moving → r ∈ buffer sp_1hz_1 ∨ r = moving_at 1500).
Proof.
  apply (completed_window_span 1500 (moving_at 1500) sp_1hz_1 sp_1hz_2 w_moving).
  apply addReading_sp_1hz_1.
Defined.

Lemma checkWindowComplete_fields (sp sp' : SignalProcessor.t) (o : option Completed) :
  checkWindowComplete sp = (sp', o) →
  config sp' = config sp ∧ windowCallback sp' = windowCallback sp ∧
  ∃ P : SensorReading.t → Prop, ∃ _ : ∀ r, Decision (P r),
    buffer sp' = filter P (buffer sp).
Proof.
  destruct o as [w|]; intros H.
  - apply checkWindowComplete_Some in H
      as (b0 & tl & r0 & rest & _ & _ & _ & _ & _ & _ & ->).
    split; [done|]. split; [done|]. by eexists _, _.
  - apply checkWindowComplete_None in H as ->.
    split; [done|]. split; [done|]. exists (λ _, True), _.
    symmetry. induction (buffer sp) as [|b l IH]; [done|].
    rewrite filter_cons_True by done. by f_equal.
Qed.

(** X5. After any [addReading] the buffer holds only readings newer than
    [now - 2 * windowDurationMs]; it is a sub-sequence of the old buffer
    followed by the new reading (nothing is reordered or invented), and the
    configuration and the callback are untouched. *)
Theorem addReading_buffer (now : R) (reading : SensorReading.t)
    (sp : SignalProcessor.t) :
  Forall (λ b, timestamp b > now - AppConfig.windowDurationMs (config sp) * 2)%R
         (buffer (addReading now reading sp).1) ∧
  buffer (addReading now reading sp).1 `sublist_of` buffer sp ++ [reading] ∧
  config (addReading now reading sp).1 = config sp ∧
  windowCallback (addReading now reading sp).1 = windowCallback sp.
Proof.
  unfold addReading.
  destruct (checkWindowComplete (pruneOldReadings now (push reading sp)))
    as [sp' o] eqn:Hc.
  apply checkWindowComplete_fields in Hc as (Hcfg & Hcb & P & HP & Hbuf).
  cbn [fst]. rewrite Hcfg, Hcb, Hbuf. cbn [pruneOldReadings push config buffer
    windowCallback]. split; [|split; [|done]].
  - apply Forall_forall. intros b [_ [Hb _]%list_elem_of_filter]%list_elem_of_filter.
    done.
  - etrans; apply sublist_filter.
Qed.

(** X6. A call that completes a window makes progress: the oldest buffered
    reading is consumed, so the buffer ends no longer than it was before
    the call; it is not empty, and what it keeps is at least half a window
    after the window's start. *)
Theorem completed_window_slides (now : R) (reading : SensorReading.t)
    (sp sp' : SignalProcessor.t) (w : Completed) :
  addReading now reading sp = (sp', Some w) →
  length (buffer sp') ≤ length (buffer sp) ∧
  buffer sp' ≠ [] ∧
  Forall (λ b, timestamp b >= ProcessedWindow.startTime (processed w)
                              + AppConfig.windowDurationMs (config sp) / 2)%R
         (buffer sp').
Proof.
  unfold addReading. intros Hadd.
  apply checkWindowComplete_Some in Hadd
    as (b0 & tl & r0 & rest & Hb & Hspan & Hsel & Hcons & Hproc & _ & ->).
  remember (buffer (pruneOldReadings now (push reading sp))) as buf eqn:Hbuf.
  cbn [config pruneOldReadings push] in Hspan, Hsel |- *.
  set (D := AppConfig.windowDurationMs (config sp)) in *.
  assert (HD : (0 < D)%R).
  { assert (Hin : r0 ∈ windowReadings w) by (rewrite Hcons; apply list_elem_of_here).
    rewrite Hsel in Hin. apply list_elem_of_filter in Hin as [[??] _]. lra. }
  assert (Hr0 : r0 = b0).
  { rewrite Hb, filter_cons_True in Hsel by lra. congruence. }
  assert (Hstart : ProcessedWindow.startTime (processed w) = timestamp b0).
  { by rewrite Hproc, Hr0. }
  cbn [buffer]. split; [|split].
  - assert (Hlt : length (filter (λ r, timestamp r >= timestamp b0 + D / 2)%R buf)
                  < length buf).
    { apply (length_filter_lt _ _ b0); [rewrite Hb; apply list_elem_of_here|lra]. }
    assert (Hle : length buf ≤ length (buffer sp ++ [reading])).
    { rewrite Hbuf. cbn [pruneOldReadings push buffer]. apply length_filter. }
    rewrite length_app in Hle. simpl in Hle. lia.
  - assert (Hlast : List.last buf b0 ∈ buf).
    { apply WindowFacts.last_elem_of. by rewrite Hb. }
    intros Hnil.
    assert (Hin : List.last buf b0 ∈
                  filter (λ r, timestamp r >= timestamp b0 + D / 2)%R buf).
    { apply list_elem_of_filter. split; [lra|done]. }
    rewrite Hnil in Hin. by apply elem_of_nil in Hin.
  - rewrite Hstart. apply Forall_forall. by intros b [? _]%list_elem_of_filter.
Qed.

Lemma completed_window_slides_witness :
  length (buffer sp_1hz_2) ≤ length (buffer sp_1hz_1) ∧
  buffer sp_1hz_2 ≠ [] ∧
  Forall (λ b, timestamp b >= ProcessedWindow.startTime (processed w_moving)
                              + AppConfig.windowDurationMs (config sp_1hz_1) / 2)%R
         (buffer sp_1hz_2).
Proof.
  apply (completed_window_slides 1500 (moving_at 1500) sp_1hz_1 sp_1hz_2 w_moving).
  apply addReading_sp_1hz_1.
Defined.

(** X7. When every reading is already older than [now - 2 *
    windowDurationMs] at the moment it is added (its timestamps come from a
    clock that runs behind [Date.now()]), pruning discards it at once: no
    window is ever completed and the processor stays as it was. *)
Theorem stale_readings_never_complete (sp : SignalProcessor.t)
    (calls : list (R * SensorReading.t)) :
  buffer sp = [] →
  Forall (λ c, timestamp c.2 <= c.1 - AppConfig.windowDurationMs (config sp) * 2)%R
         calls →
  feed sp calls = (sp, []).
Proof.
  intros Hb Hall. induction Hall as [|[now r] calls Hc _ IH]; [done|].
  cbn [feed]. simpl in Hc.
  assert (Hadd : addReading now r sp = (sp, None)).
  { unfold addReading, pruneOldReadings, push. rewrite Hb. cbn [app config buffer].
    rewrite filter_cons_False by lra. rewrite filter_nil.
    unfold checkWindowComplete. cbn [buffer].
    destruct sp as [cfg buf cb]. simpl in Hb. by subst buf. }
  by rewrite Hadd, IH.
Qed.

Lemma stale_readings_never_complete_witness :
  feed sp0 [(5000%R, reading_at 0); (6000%R, reading_at 1000)] = (sp0, []).
Proof.
  apply (stale_readings_never_complete sp0).
  - reflexivity.
  - repeat constructor; simpl; lra.
Defined.

End SummaryFacts.

(** ** Classifiers *)

Module ClassifierFacts.
Import ProcessedWindow Classifier Dashboard RoundFacts Examples.

(** The smaller of 10 and a value that rounds to at least [lo] is an
    integer between [lo] and 10. *)
Lemma capped_severity (lo : Z) (v : R) :
  (lo ≤ 10)%Z → (IZR lo - 1 / 2 <= v)%R →
  ∃ z, Rmin 10 (Math_round v) = IZR z ∧ (lo ≤ z ≤ 10)%Z.
Proof.
  intros Hlo Hv. apply Math_round_mono in Hv.
  assert (Hhalf : Math_round (IZR lo - 1 / 2) = IZR lo).
  { unfold Math_round. f_equal. symmetry. apply Int_part_spec. lra. }
  rewrite Hhalf in Hv.
  unfold Math_round in *. set (k := Int_part (v + 1 / 2)) in *.
  apply le_IZR in Hv. unfold Rmin. destruct (Rle_dec 10 (IZR k)) as [Hk|Hk].
  - exists 10%Z. split; [done|lia].
  - exists k. split; [done|]. split; [done|].
    destruct (Z.le_gt_cases k 10) as [?|Hgt]; [done|].
    exfalso. apply Hk. apply IZR_le. lia.
Qed.

(** X8. The server classifier keeps the result contract: confidence in
    [0, 1] and an integer severity in [0, 10].  A pothole has peak > 8 and
    RMS > 4, confidence in (0.6, 0.95] and severity at least 7; a speed
    breaker has RMS > 3, peak < 12, speed < 35, confidence in (0.8, 0.92]
    and severity at least 6; anything else is normal with confidence 0.95
    and severity 0. *)
Theorem classifyDefectML_contract (w : ProcessedWindow.t) :
  (0 <= DetectionResult.confidence (classifyDefectML w) <= 1)%R ∧
  (∃ z, DetectionResult.severity (classifyDefectML w) = IZR z ∧ (0 ≤ z ≤ 10)%Z) ∧
  match DetectionResult.defectType (classifyDefectML w) with
  | pothole =>
      (peakMagnitude w > 8 ∧ magnitude w > 4 ∧
       0.6 < DetectionResult.confidence (classifyDefectML w) <= 0.95 ∧
       7 <= DetectionResult.severity (classifyDefectML w))%R
  | speed_breaker =>
      (¬ (peakMagnitude w > 8 ∧ magnitude w > 4) ∧
       magnitude w > 3 ∧ peakMagnitude w < 12 ∧ averageSpeed w < 35 ∧
       0.8 < DetectionResult.confidence (classifyDefectML w) <= 0.92 ∧
       6 <= DetectionResult.severity (classifyDefectML w))%R
  | normal =>
      DetectionResult.confidence (classifyDefectML w) = 0.95%R ∧
      DetectionResult.severity (classifyDefectML w) = 0%R
  end.
Proof.
  unfold classifyDefectML. cbv zeta.
  destruct (decide (peakMagnitude w > 8 ∧ magnitude w > 4)%R) as [[Hp Hm]|Hnp];
    [|destruct (decide (magnitude w > 3 ∧ peakMagnitude w < 12 ∧
                        averageSpeed w < 35)%R) as [(Hm & Hp & Hs)|Hns]];
    cbn [DetectionResult.confidence DetectionResult.severity
         DetectionResult.defectType].
  - destruct (capped_severity 7 (peakMagnitude w / 1.2)) as (z & Hz & Hr);
      [lia|lra|].
    assert (Hc : (0.6 < Rmin 0.95 (0.6 + (peakMagnitude w - 8) * 0.05
                                   + (magnitude w - 4) * 0.03) <= 0.95)%R).
    { split; [apply Rmin_glb_lt; lra|apply Rmin_l]. }
    split; [lra|]. split; [exists z; split; [done|lia]|].
    repeat split; try lra. rewrite Hz. apply IZR_le. lia.
  - destruct (capped_severity 6 (magnitude w * 2)) as (z & Hz & Hr); [lia|lra|].
    assert (Hc : (0.8 < Rmin 0.92 (0.5 + magnitude w * 0.1) <= 0.92)%R).
    { split; [apply Rmin_glb_lt; lra|apply Rmin_l]. }
    split; [lra|]. split; [exists z; split; [done|lia]|].
    repeat split; try lra; try done. rewrite Hz. apply IZR_le. lia.
  - split; [lra|]. split; [exists 0%Z; split; [done|lia]|done].
Qed.

(** X9. The same contract for the local fallback classifier, with its own
    breakpoints: pothole confidence in (8/15, 0.85] and severity at least
    5; speed breaker (RMS > 3, peak < 10, speed < 30) confidence in
    (0.5, 0.9] and severity at least 5. *)
Theorem classifyLocally_contract (w : ProcessedWindow.t) :
  (0 <= DetectionResult.confidence (classifyLocally w) <= 1)%R ∧
  (∃ z, DetectionResult.severity (classifyLocally w) = IZR z ∧ (0 ≤ z ≤ 10)%Z) ∧
  match DetectionResult.defectType (classifyLocally w) with
  | pothole =>
      (peakMagnitude w > 8 ∧ magnitude w > 4 ∧
       8 / 15 < DetectionResult.confidence (classifyLocally w) <= 0.85 ∧
       5 <= DetectionResult.severity (classifyLocally w))%R
  | speed_breaker =>
      (¬ (peakMagnitude w > 8 ∧ magnitude w > 4) ∧
       magnitude w > 3 ∧ peakMagnitude w < 10 ∧ averageSpeed w < 30 ∧
       0.5 < DetectionResult.confidence (classifyLocally w) <= 0.9 ∧
       5 <= DetectionResult.severity (classifyLocally w))%R
  | normal =>
      DetectionResult.confidence (classifyLocally w) = 0.95%R ∧
      DetectionResult.severity (classifyLocally w) = 0%R
  end.
Proof.
  unfold classifyLocally.
  destruct (decide (peakMagnitude w > 8 ∧ magnitude w > 4)%R) as [[Hp Hm]|Hnp];
    [|destruct (decide (magnitude w > 3 ∧ peakMagnitude w < 10 ∧
                        averageSpeed w < 30)%R) as [(Hm & Hp & Hs)|Hns]];
    cbn [DetectionResult.confidence DetectionResult.severity
         DetectionResult.defectType].
  - destruct (capped_severity 5 (peakMagnitude w / 1.5)) as (z & Hz & Hr);
      [lia|lra|].
    assert (Hc : (8 / 15 < Rmin 0.85 (peakMagnitude w / 15) <= 0.85)%R).
    { split; [apply Rmin_glb_lt; lra|apply Rmin_l]. }
    split; [lra|]. split; [exists z; split; [done|lia]|].
    repeat split; try lra. rewrite Hz. apply IZR_le. lia.
  - destruct (capped_severity 5 (magnitude w * 1.5)) as (z & Hz & Hr); [lia|lra|].
    assert (Hc : (0.5 < Rmin 0.9 (magnitude w / 6) <= 0.9)%R).
    { split; [apply Rmin_glb_lt; lra|apply Rmin_l]. }
    split; [lra|]. split; [exists z; split; [done|lia]|].
    repeat split; try lra; try done. rewrite Hz. apply IZR_le. lia.
  - split; [lra|]. split; [exists 0%Z; split; [done|lia]|done].
Qed.

(** X10. The two classifiers agree on potholes, and whatever the local
    classifier calls a speed breaker the server calls a speed breaker too;
    so a window the server calls normal is normal locally. *)
Theorem classifiers_agree (w : ProcessedWindow.t) :
  (DetectionResult.defectType (classifyLocally w) = pothole ↔
   DetectionResult.defectType (classifyDefectML w) = pothole) ∧
  (DetectionResult.defectType (classifyLocally w) = speed_breaker →
   DetectionResult.defectType (classifyDefectML w) = speed_breaker) ∧
  (DetectionResult.defectType (classifyDefectML w) = normal →
   DetectionResult.defectType (classifyLocally w) = normal).
Proof.
  unfold classifyLocally, classifyDefectML. cbv zeta.
  destruct (decide (peakMagnitude w > 8 ∧ magnitude w > 4)%R) as [Hp|Hnp];
    [by repeat split|].
  destruct (decide (magnitude w > 3 ∧ peakMagnitude w < 10 ∧
                    averageSpeed w < 30)%R) as [(Hm & Hpk & Hs)|Hl];
  destruct (decide (magnitude w > 3 ∧ peakMagnitude w < 12 ∧
                    averageSpeed w < 35)%R) as [Hs'|Hs'];
    cbn [DetectionResult.defectType]; repeat split; try done.
  all: try (intros _; exfalso; apply Hs'; repeat split; lra).
Qed.

End ClassifierFacts.

(** ** The handler a ride registers *)

Module RideFacts.
Import Dashboard Ride Examples.

Lemma stale_mono (P Q : string → Prop) (v : option string) :
  (∀ id, P id → Q id) → stale_session P v → stale_session Q v.
Proof. intros HPQ [-> | (id & Hid & ->)]; [by left|right; eauto]. Qed.

Lemma ride_inv_mono (P Q : string → Prop) (s : State) :
  (∀ id, P id → Q id) → ride_inv P s → ride_inv Q s.
Proof.
  intros HPQ [H1 H2]. split.
  - intros Hr. apply (stale_mono P Q); [done|by apply H1].
  - intros captured Hc. apply (stale_mono P Q); [done|by apply H2].
Qed.

Lemma click_inv (P : string → Prop) (c : Click) (s s' : State) :
  ride_inv P s → click c s = Some s' →
  ride_inv (λ id, P id ∨ c = ClickStart (CollectionFailed id)) s'.
Proof.
  intros [Hs Hreg] Hclick. destruct c as [[|id|id]|]; cbn in Hclick;
    destruct (isRiding s) eqn:Hr; simplify_eq.
  - apply (ride_inv_mono P); [by left|]. split; [by rewrite Hr|done].
  - split; cbn.
    + intros _. right. exists id. by split; [right|].
    + intros captured [= <-]. apply (stale_mono P); [by left|]. by apply Hs.
  - split; cbn; [done|].
    intros captured [= <-]. apply (stale_mono P); [by left|]. by apply Hs.
  - split; cbn; [by left|].
    intros captured Hc. apply (stale_mono P); [by left|]. by apply Hreg.
Qed.

Lemma clicks_inv (cs : list Click) (P : string → Prop) (s s' : State) :
  ride_inv P s → clicks cs s = Some s' →
  ride_inv (λ id, P id ∨ failed cs id) s'.
Proof.
  revert P s. induction cs as [|c cs IH]; intros P s Hinv Hrun; cbn in Hrun.
  - simplify_eq. apply (ride_inv_mono P); [by left|done].
  - destruct (click c s) as [s1|] eqn:Hc; [|done].
    apply (click_inv P) in Hc; [|done]. pose proof (IH _ _ Hc Hrun) as Hfin.
    eapply ride_inv_mono; [|exact Hfin]. unfold failed. cbn.
    intros id [[?| ->]|?]; [by left|right; apply list_elem_of_here|].
    right. by apply list_elem_of_further.
Qed.

Lemma handleProcessedWindow_session (captured : option string) (userId : string)
    (remote : ProcessedWindow.t → option DetectionResult.t)
    (window : ProcessedWindow.t) (d : Detection.t) :
  handleProcessedWindow captured userId remote window = Some d →
  captured = Some (Detection.sessionId d).
Proof.
  unfold handleProcessedWindow. destruct captured as [sid|]; [|done].
  destruct (_ || _); [done|]. case_decide; [|done]. by intros [= <-].
Qed.

(** X11. The handler that a ride registers is the one of the render in
    which the start button was clicked, and it holds that render's session:
    none, when no earlier start has failed.  So, whatever the windows and
    the classifier's answers, the dashboard saves no detection during a
    ride unless an earlier start failed inside [startCollection], and a
    detection it does save carries the session id of such a failed start,
    never the id of the ride's own session. *)
Theorem ride_saves_nothing (userId : string) (cs : list Click) (s : State)
    (remote : ProcessedWindow.t → option DetectionResult.t)
    (window : ProcessedWindow.t) :
  clicks cs initial = Some s →
  (∀ d, onWindow userId remote s window = Some d →
        failed cs (Detection.sessionId d)) ∧
  ((∀ id, ¬ failed cs id) → onWindow userId remote s window = None).
Proof.
  intros Hrun.
  assert (Hinit : ride_inv (λ _, False) initial).
  { split; [by left|]. by intros captured [=]. }
  apply (clicks_inv cs _ _ _ Hinit) in Hrun as [_ Hreg].
  assert (Hsave : ∀ d, onWindow userId remote s window = Some d →
                       failed cs (Detection.sessionId d)).
  { intros d Hd. unfold onWindow in Hd.
    destruct (registered s) as [captured|] eqn:Hc; [|done].
    apply handleProcessedWindow_session in Hd.
    destruct (Hreg captured eq_refl) as [-> | (id & [[]|Hid] & ->)]; [done|].
    by simplify_eq. }
  split; [done|]. intros Hnone.
  destruct (onWindow userId remote s window) as [d|] eqn:Hd; [|done].
  by destruct (Hnone _ (Hsave d eq_refl)).
Qed.

Lemma ride_saves_nothing_witness :
  let s := {| isRiding := true; sessionId := Some "session-1"%string;
              registered := Some None |} in
  (∀ d, onWindow "alice" (Classifier.classifyDefect true) s window_demo = Some d →
        failed [ClickStart (Started "session-1")] (Detection.sessionId d)) ∧
  ((∀ id, ¬ failed [ClickStart (Started "session-1")] id) →
   onWindow "alice" (Classifier.classifyDefect true) s window_demo = None).
Proof.
  apply (ride_saves_nothing "alice" [ClickStart (Started "session-1")]).
  reflexivity.
Defined.

End RideFacts.

(** ** Haversine distance *)

Module DistanceFacts.
Import Aggregation.

Lemma atan2_quadrant (y x : R) :
  (0 <= y)%R → (0 <= x)%R → (0 <= atan2 y x <= PI / 2)%R.
Proof.
  intros Hy Hx. pose proof PI_RGT_0. unfold atan2.
  repeat case_decide; try lra.
  destruct (atan_bound (y / x)) as [_ Hub].
  split; [|lra].
  destruct (Req_dec_T (y / x) 0) as [->|Hne]; [rewrite atan_0; lra|].
  left. rewrite <- atan_0. apply atan_increasing.
  assert (0 <= y / x)%R by (apply Rle_mult_inv_pos; lra). lra.
Qed.

(** X12. The distance from a to b is the distance from b to a. *)
Theorem calculateDistance_sym (lat1 lon1 lat2 lon2 : R) :
  calculateDistance lat1 lon1 lat2 lon2 = calculateDistance lat2 lon2 lat1 lon1.
Proof.
  unfold calculateDistance. cbv zeta.
  replace ((lat1 - lat2) * PI / 180 / 2)%R
    with (- ((lat2 - lat1) * PI / 180 / 2))%R by lra.
  replace ((lon1 - lon2) * PI / 180 / 2)%R
    with (- ((lon2 - lon1) * PI / 180 / 2))%R by lra.
  rewrite !sin_neg.
  set (sh := sin ((lat2 - lat1) * PI / 180 / 2)).
  set (sk := sin ((lon2 - lon1) * PI / 180 / 2)).
  replace (- sh * - sh + cos (lat2 * PI / 180) * cos (lat1 * PI / 180) * - sk * - sk)%R
    with (sh * sh + cos (lat1 * PI / 180) * cos (lat2 * PI / 180) * sk * sk)%R
    by ring.
  done.
Qed.

(** The squared sine of an angle of at most 45 degrees is at most 1/2. *)
Lemma sin_sqr_half (k : R) :
  (- (PI / 4) <= k <= PI / 4)%R → (0 <= sin k * sin k <= 1 / 2)%R.
Proof.
  intros Hk. pose proof PI_RGT_0 as Hpi.
  assert (Hc : (0 <= cos (2 * k))%R) by (apply cos_ge_0; lra).
  rewrite cos_2a_sin in Hc. nra.
Qed.

(** Away from the antipode: when the latitudes and the longitudes differ
    by at most 90 degrees the haversine term is at most 3/4. *)
Lemma haversine_term_near (lat1 lat2 k : R) :
  (-90 <= lat1 <= 90)%R → (-90 <= lat2 <= 90)%R →
  (-90 <= lat2 - lat1 <= 90)%R → (- (PI / 4) <= k <= PI / 4)%R →
  (0 <= sin ((lat2 - lat1) * PI / 180 / 2) * sin ((lat2 - lat1) * PI / 180 / 2)
        + cos (lat1 * PI / 180) * cos (lat2 * PI / 180) * sin k * sin k
     <= 3 / 4)%R.
Proof.
  intros H1 H2 Hd Hk. pose proof PI_RGT_0 as Hpi.
  set (u := (lat1 * PI / 180)%R). set (v := (lat2 * PI / 180)%R).
  set (h := ((lat2 - lat1) * PI / 180 / 2)%R).
  assert (Hcu : (0 <= cos u)%R) by (apply cos_ge_0; unfold u; nra).
  assert (Hcv : (0 <= cos v)%R) by (apply cos_ge_0; unfold v; nra).
  pose proof (sin_sqr_half k Hk) as Hsk.
  assert (Hsh : (0 <= sin h * sin h <= 1 / 2)%R)
    by (apply sin_sqr_half; unfold h; nra).
  assert (Hh : (sin h * sin h + cos h * cos h = 1)%R).
  { pose proof (sin2_cos2 h) as E. unfold Rsqr in E. lra. }
  assert (Hprod : (cos u * cos v <= cos h * cos h)%R).
  { assert (E1 : cos (v - u) = (2 * cos h * cos h - 1)%R).
    { rewrite <- cos_2a_cos. f_equal. unfold u, v, h. lra. }
    rewrite cos_minus in E1.
    pose proof (cos_plus v u) as E2. pose proof (COS_bound (v + u)). lra. }
  assert (Hp0 : (0 <= cos u * cos v)%R) by (by apply Rmult_le_pos).
  assert (Hpk : (0 <= cos u * cos v * (sin k * sin k) <= cos u * cos v / 2)%R).
  { generalize dependent (cos u * cos v)%R. generalize dependent (sin k * sin k)%R.
    intros S HS P _ HP. nra. }
  replace (cos u * cos v * sin k * sin k)%R
    with (cos u * cos v * (sin k * sin k))%R by ring.
  lra.
Qed.

Lemma atan_sqrt3 : atan (sqrt 3) = (PI / 3)%R.
Proof.
  pose proof PI_RGT_0. rewrite <- tan_PI3. apply atan_tan. lra.
Qed.

(** With a haversine term of at most 3/4 the central half angle is at most
    60 degrees. *)
Lemma atan2_near (a : R) :
  (0 <= a <= 3 / 4)%R → (0 <= atan2 (sqrt a) (sqrt (1 - a)) <= PI / 3)%R.
Proof.
  intros Ha. pose proof PI_RGT_0 as Hpi.
  assert (Hx : (0 < sqrt (1 - a))%R) by (apply sqrt_lt_R0; lra).
  split; [apply atan2_quadrant; apply sqrt_pos|].
  unfold atan2. rewrite decide_True by lra.
  assert (Hq : (sqrt a / sqrt (1 - a) <= sqrt 3)%R).
  { rewrite <- sqrt_div_alt by lra. apply sqrt_le_1_alt.
    apply Rmult_le_reg_r with (1 - a)%R; [lra|].
    unfold Rdiv. rewrite Rmult_assoc, Rinv_l by lra. lra. }
  destruct Hq as [Hlt| ->]; [|rewrite atan_sqrt3; lra].
  left. rewrite <- atan_sqrt3. by apply atan_increasing.
Qed.

(** X13. Away from the antipode the distance is a number in the physical
    range: for latitudes between -90 and 90 that differ by at most 90
    degrees and longitudes that differ by at most 90 degrees, it is at
    least 0 and at most three quarters of pi * 6371000 m (the haversine
    term is then at most 3/4, well below the 1 at which the square root of
    its complement vanishes). *)
Theorem calculateDistance_range (lat1 lon1 lat2 lon2 : R) :
  (-90 <= lat1 <= 90)%R → (-90 <= lat2 <= 90)%R →
  (-90 <= lat2 - lat1 <= 90)%R → (-90 <= lon2 - lon1 <= 90)%R →
  (0 <= calculateDistance lat1 lon1 lat2 lon2 <= PI * 6371000 * 3 / 4)%R.
Proof.
  intros H1 H2 Hlat Hlon. pose proof PI_RGT_0 as Hpi.
  unfold calculateDistance. cbv zeta.
  assert (Hk : (- (PI / 4) <= (lon2 - lon1) * PI / 180 / 2 <= PI / 4)%R) by nra.
  pose proof (haversine_term_near lat1 lat2 _ H1 H2 Hlat Hk) as Ha.
  match goal with |- context [atan2 (sqrt ?a) (sqrt (1 - ?a))] =>
    pose proof (atan2_near a Ha) as Hc
  end.
  lra.
Qed.

Lemma calculateDistance_range_witness :
  (0 <= calculateDistance 28.6139 77.2090 28.6129 77.2295 <= PI * 6371000 * 3 / 4)%R.
Proof.
  apply calculateDistance_range; lra.
Defined.

(** On a meridian the haversine term is the squared sine of half the
    latitude difference [h], so [atan2] recovers [|h|]. *)
Lemma calculateDistance_same_lon (lat1 lat2 lon : R) :
  let h := ((lat2 - lat1) * PI / 180 / 2)%R in
  (- (PI / 2) < h < PI / 2)%R →
  calculateDistance lat1 lon lat2 lon = (6371000 * (2 * Rabs h))%R.
Proof.
  intros h Hh. unfold calculateDistance. cbv zeta.
  replace ((lon - lon) * PI / 180 / 2)%R with 0%R by lra. rewrite sin_0.
  fold h.
  replace (sin h * sin h + cos (lat1 * PI / 180) * cos (lat2 * PI / 180) * 0 * 0)%R
    with (Rsqr (sin h)) by (unfold Rsqr; ring).
  replace (1 - Rsqr (sin h))%R with (Rsqr (cos h))
    by (pose proof (sin2_cos2 h); lra).
  rewrite !sqrt_Rsqr_abs.
  assert (Hcos : (0 < cos h)%R) by (apply cos_gt_0; lra).
  rewrite (Rabs_right (cos h)) by lra.
  unfold atan2. rewrite decide_True by lra.
  destruct (Rle_dec 0 h) as [Hpos|Hneg].
  - assert (0 <= sin h)%R by (apply sin_ge_0; lra).
    rewrite (Rabs_right (sin h)) by lra.
    change (sin h / cos h)%R with (tan h). rewrite atan_tan by done.
    by rewrite (Rabs_right h) by lra.
  - assert (0 <= sin (- h))%R by (apply sin_ge_0; lra).
    rewrite sin_neg in *. rewrite (Rabs_left1 (sin h)) by lra.
    replace (- sin h / cos h)%R with (tan (- h))
      by (unfold tan; rewrite sin_neg, cos_neg; lra).
    rewrite atan_tan by lra.
    by rewrite (Rabs_left1 h) by lra.
Qed.

(** X14. Along a meridian the distance is the arc length: for two points of
    equal longitude whose latitudes differ by less than 180 degrees it is
    6371000 * |lat2 - lat1| * pi / 180; in particular it is 0 for
    coincident points. *)
Theorem calculateDistance_meridian (lat1 lat2 lon : R) :
  (Rabs (lat2 - lat1) < 180)%R →
  calculateDistance lat1 lon lat2 lon
  = (6371000 * (Rabs (lat2 - lat1) * PI / 180))%R.
Proof.
  intros Hd. pose proof PI_RGT_0 as Hpi. apply Rabs_def2 in Hd.
  rewrite calculateDistance_same_lon by (cbv zeta; nra).
  replace ((lat2 - lat1) * PI / 180 / 2)%R with ((lat2 - lat1) * (PI / 360))%R
    by lra.
  rewrite Rabs_mult, (Rabs_right (PI / 360)) by lra. lra.
Qed.

Lemma calculateDistance_meridian_witness :
  calculateDistance (-0.00005) 77.2090 0.00005 77.2090
  = (6371000 * (Rabs (0.00005 - -0.00005) * PI / 180))%R.
Proof.
  apply calculateDistance_meridian. unfold Rabs. destruct (Rcase_abs _); lra.
Defined.

(** The dashboard's distance in kilometres is the server's distance
    in meters divided by 1000. *)
Lemma client_distance_is_server_distance (lat1 lon1 lat2 lon2 : R) :
  ClientGeo.calculateDistance lat1 lon1 lat2 lon2
  = (calculateDistance lat1 lon1 lat2 lon2 / 1000)%R.
Proof.
  unfold ClientGeo.calculateDistance, calculateDistance. cbv zeta. lra.
Qed.

End DistanceFacts.

(** ** Geohash: the shape of a code and the cell it names *)

Module CellFacts.
Import Geo GeoFacts GeoSpec.

Lemma chars_in_charAt (alphabet : string) (i : nat) :
  chars_in alphabet (charAt alphabet i).
Proof.
  unfold charAt. destruct (String.get i alphabet) eqn:E; [|done].
  split; [by exists i|done].
Qed.

Lemma chars_in_append (alphabet s t : string) :
  chars_in alphabet (s +:+ t) ↔ chars_in alphabet s ∧ chars_in alphabet t.
Proof.
  induction s as [|c s IH]; [rewrite append_nil_l; simpl; tauto|].
  rewrite append_cons. simpl. tauto.
Qed.

Lemma steps_chars_in (lat lng : R) (n : nat) :
  chars_in BASE32 (geohash (Geo.steps lat lng n)).
Proof.
  induction n as [|n IH]; [exact I|].
  change (Geo.steps lat lng (S n)) with (geo_body lat lng (Geo.steps lat lng n)).
  destruct (bisect_fields lat lng (Geo.steps lat lng n)) as (Hg & _).
  unfold geo_body, emit. destruct (Nat.eqb _ 5); cbn [geohash]; rewrite Hg; [|done].
  apply chars_in_append. split; [done|apply chars_in_charAt].
Qed.

(** X15. A geohash has exactly [precision] characters, all from the base-32
    alphabet, and the code at any lower precision is its prefix. *)
Theorem encodeGeohash_shape (lat lng : R) (precision : nat) :
  String.length (encodeGeohash lat lng precision) = precision ∧
  chars_in BASE32 (encodeGeohash lat lng precision) ∧
  ∀ k, substring 0 precision (encodeGeohash lat lng (precision + k))
       = encodeGeohash lat lng precision.
Proof.
  split; [apply encodeGeohash_length|]. split.
  - rewrite encodeGeohash_steps. apply steps_chars_in.
  - intros k. apply encodeGeohash_prefix.
Qed.

(** *** Different bits give different codes *)

Lemma charAt_BASE32_inj (i j : nat) :
  i < 32 → j < 32 → charAt BASE32 i = charAt BASE32 j → i = j.
Proof.
  intros Hi Hj.
  do 32 (destruct i as [|i];
         [do 32 (destruct j as [|j]; [first [done|discriminate]|]); lia|]).
  lia.
Qed.

Lemma append_length_ne (g1 g2 x y : string) :
  String.length g1 = String.length g2 → g1 ≠ g2 → g1 +:+ x ≠ g2 +:+ y.
Proof.
  revert g2. induction g1 as [|c g1 IH]; intros [|d g2] Hlen Hne;
    try discriminate; [done|].
  rewrite !append_cons. intros [= -> Heq].
  apply (IH g2); [by injection Hlen|congruence|done].
Qed.

(** After the bisection half of an iteration: if the two states disagree
    (codes or indices), they are [diverged] once the iteration ends. *)
Lemma emit_diverged (t1 t2 : GeoState) :
  bit t1 = bit t2 → bit t1 < 5 →
  String.length (geohash t1) = String.length (geohash t2) →
  idx t1 < 2 ^ S (bit t1) → idx t2 < 2 ^ S (bit t1) →
  geohash t1 ≠ geohash t2 ∨ idx t1 ≠ idx t2 →
  diverged (emit t1) (emit t2).
Proof.
  intros Hbit Hb Hlen Hi1 Hi2 Hd. unfold emit, diverged. rewrite <- Hbit.
  destruct (Nat.eqb_spec (S (bit t1)) 5) as [E|E]; cbn [bit idx geohash].
  - assert (Hb4 : bit t1 = 4) by lia. rewrite Hb4 in Hi1, Hi2. simpl in Hi1, Hi2.
    destruct (charAt_BASE32 (idx t1)) as [c1 Hc1]; [lia|].
    destruct (charAt_BASE32 (idx t2)) as [c2 Hc2]; [lia|].
    split; [done|]. split; [by rewrite !length_append, Hc1, Hc2, Hlen|].
    split; [simpl; lia|]. split; [simpl; lia|]. left.
    destruct (decide (geohash t1 = geohash t2)) as [Hsame|Hne];
      [|by apply append_length_ne].
    destruct Hd as [Hg|Hidx]; [done|].
    rewrite Hsame. intros Heq%String.app_inj.
    apply charAt_BASE32_inj in Heq; lia.
  - done.
Qed.

Lemma diverged_step (lat1 lng1 lat2 lng2 : R) (s1 s2 : GeoState) :
  bit s1 < 5 →
  diverged s1 s2 → diverged (geo_body lat1 lng1 s1) (geo_body lat2 lng2 s2).
Proof.
  intros Hb (Hbit & Hlen & Hi1 & Hi2 & Hd).
  destruct (bisect_fields lat1 lng1 s1) as (Hg1 & Hb1 & _ & Hx1).
  destruct (bisect_fields lat2 lng2 s2) as (Hg2 & Hb2 & _ & Hx2).
  assert (Hpow : 2 ^ S (bit s1) = 2 * 2 ^ bit s1) by (simpl; lia).
  rewrite <- Hbit in Hi2.
  apply emit_diverged; rewrite ?Hg1, ?Hg2, ?Hb1, ?Hb2; try done; try lia.
  destruct Hd as [?|?]; [by left|right; lia].
Qed.

#[local] Instance GeoState_eq_dec : EqDecision GeoState.
Proof. solve_decision. Defined.

(** From a common state, the two points either make the same decision or
    diverge. *)
Lemma sync_step (lat1 lng1 lat2 lng2 : R) (n : nat) (s : GeoState) :
  geo_inv n s →
  geo_body lat1 lng1 s = geo_body lat2 lng2 s ∨
  diverged (geo_body lat1 lng1 s) (geo_body lat2 lng2 s).
Proof.
  intros (_ & Hb & Hi).
  destruct (decide (bisect lat1 lng1 s = bisect lat2 lng2 s)) as [Heq|Hne].
  { left. unfold geo_body. by rewrite Heq. }
  right.
  destruct (bisect_fields lat1 lng1 s) as (Hg1 & Hb1 & _ & Hx1).
  destruct (bisect_fields lat2 lng2 s) as (Hg2 & Hb2 & _ & Hx2).
  assert (Hpow : 2 ^ S (bit s) = 2 * 2 ^ bit s) by (simpl; lia).
  apply emit_diverged; rewrite ?Hg1, ?Hg2, ?Hb1, ?Hb2; try done; try lia.
  right. intros Hidx. apply Hne. clear -Hidx.
  unfold bisect in *. destruct (evenBit s); repeat case_decide; simpl in *;
    first [done | lia].
Qed.

Lemma steps_sync (lat1 lng1 lat2 lng2 : R) (n : nat) :
  Geo.steps lat1 lng1 n = Geo.steps lat2 lng2 n ∨
  diverged (Geo.steps lat1 lng1 n) (Geo.steps lat2 lng2 n).
Proof.
  induction n as [|n [Heq|Hd]]; [by left| |].
  - change (Geo.steps ?a ?b (S n)) with (geo_body a b (Geo.steps a b n)).
    rewrite Heq. apply (sync_step _ _ _ _ n), steps_inv.
  - right. change (Geo.steps ?a ?b (S n)) with (geo_body a b (Geo.steps a b n)).
    apply diverged_step; [|done]. by destruct (steps_inv lat1 lng1 n) as (_ & ? & _).
Qed.

(** Diverged states at a character boundary carry different codes. *)
Lemma diverged_codes (lat1 lng1 lat2 lng2 : R) (p : nat) :
  diverged (Geo.steps lat1 lng1 (5 * p)) (Geo.steps lat2 lng2 (5 * p)) →
  encodeGeohash lat1 lng1 p ≠ encodeGeohash lat2 lng2 p.
Proof.
  intros (Hbit & _ & Hi1 & Hi2 & Hd). rewrite !encodeGeohash_steps.
  destruct (steps_inv lat1 lng1 (5 * p)) as (Hl1 & Hb1 & _).
  assert (Hb0 : bit (Geo.steps lat1 lng1 (5 * p)) = 0) by lia.
  rewrite <- Hbit, Hb0 in Hi2. rewrite Hb0 in Hi1.
  change (2 ^ 0) with 1 in Hi1, Hi2.
  destruct Hd as [?|?]; [done|lia].
Qed.

Lemma same_code_same_state (lat1 lng1 lat2 lng2 : R) (p : nat) :
  encodeGeohash lat1 lng1 p = encodeGeohash lat2 lng2 p →
  Geo.steps lat1 lng1 (5 * p) = Geo.steps lat2 lng2 (5 * p).
Proof.
  intros Heq. destruct (steps_sync lat1 lng1 lat2 lng2 (5 * p)) as [?|Hd]; [done|].
  by destruct (diverged_codes _ _ _ _ _ Hd).
Qed.

(** Once diverged, always diverged. *)
Lemma diverged_later (lat1 lng1 lat2 lng2 : R) (n k : nat) :
  diverged (Geo.steps lat1 lng1 n) (Geo.steps lat2 lng2 n) →
  diverged (Geo.steps lat1 lng1 (n + k)) (Geo.steps lat2 lng2 (n + k)).
Proof.
  intros Hd. induction k as [|k IH]; [by rewrite Nat.add_0_r|].
  rewrite Nat.add_succ_r.
  change (Geo.steps ?a ?b (S ?m)) with (geo_body a b (Geo.steps a b m)).
  apply diverged_step; [|done].
  by destruct (steps_inv lat1 lng1 (n + k)) as (_ & ? & _).
Qed.

(** *** The cell of a point *)

Lemma in_cell_step (lat lng : R) (a b : nat) (s : GeoState) :
  in_cell lat lng a b s →
  if Nat.eqb a b
  then in_cell lat lng (S a) b (geo_body lat lng s)
  else in_cell lat lng a (S b) (geo_body lat lng s).
Proof.
  intros (Hlat & Hlng & Hw & Hh & Hev & Hab).
  assert (Ha : (2 ^ a ≠ 0)%R) by (apply pow_nonzero; lra).
  assert (Hb : (2 ^ b ≠ 0)%R) by (apply pow_nonzero; lra).
  assert (Hemit : ∀ t, latMin (emit t) = latMin t ∧ latMax (emit t) = latMax t ∧
            lngMin (emit t) = lngMin t ∧ lngMax (emit t) = lngMax t ∧
            evenBit (emit t) = negb (evenBit t)).
  { intros t. unfold emit. by destruct (Nat.eqb _ 5). }
  unfold geo_body, in_cell.
  destruct (Hemit (bisect lat lng s)) as (-> & -> & -> & -> & ->).
  unfold bisect. rewrite Hev.
  destruct (Nat.eqb_spec a b) as [Heq|Hne].
  - subst b. case_decide; cbn [latMin latMax lngMin lngMax evenBit];
      rewrite ?Hev, ?Nat.eqb_refl; cbn [negb].
    + repeat split; try lra; try (by right).
      * transitivity ((lngMax s - lngMin s) / 2)%R; [lra|].
        rewrite Hw. cbn [pow]. by field.
      * symmetry. apply Nat.eqb_neq. lia.
    + repeat split; try lra; try (by right).
      * transitivity ((lngMax s - lngMin s) / 2)%R; [lra|].
        rewrite Hw. cbn [pow]. by field.
      * symmetry. apply Nat.eqb_neq. lia.
  - destruct Hab as [? | ->]; [done|].
    assert (Hf : Nat.eqb (S b) b = false) by (apply Nat.eqb_neq; lia).
    case_decide; cbn [latMin latMax lngMin lngMax evenBit];
      rewrite ?Hev, ?Hf, ?Nat.eqb_refl; cbn [negb].
    + repeat split; try lra; try (by left).
      transitivity ((latMax s - latMin s) / 2)%R; [lra|].
      rewrite Hh. cbn [pow]. by field.
    + repeat split; try lra; try (by left).
      transitivity ((latMax s - latMin s) / 2)%R; [lra|].
      rewrite Hh. cbn [pow]. by field.
Qed.

Lemma steps_in_cell (lat lng : R) (n : nat) :
  (-90 <= lat < 90)%R → (-180 <= lng < 180)%R →
  ∃ a b, a + b = n ∧ in_cell lat lng a b (Geo.steps lat lng n).
Proof.
  intros Hlat Hlng. induction n as [|n (a & b & Hn & Hc)].
  - exists 0, 0. split; [done|]. unfold in_cell, Geo.steps. simpl.
    repeat split; try lra. by left.
  - change (Geo.steps lat lng (S n)) with (geo_body lat lng (Geo.steps lat lng n)).
    apply in_cell_step in Hc. destruct (Nat.eqb a b).
    + exists (S a), b. split; [lia|done].
    + exists a, (S b). split; [lia|done].
Qed.

(** X16. Two valid points with the same geohash lie in the same cell: at
    precision p their longitudes differ by less than 360 / 2^ceil(5p/2)
    degrees and their latitudes by less than 180 / 2^floor(5p/2). *)
Theorem encodeGeohash_locality (lat1 lng1 lat2 lng2 : R) (p : nat) :
  (-90 <= lat1 < 90)%R → (-180 <= lng1 < 180)%R →
  (-90 <= lat2 < 90)%R → (-180 <= lng2 < 180)%R →
  encodeGeohash lat1 lng1 p = encodeGeohash lat2 lng2 p →
  (Rabs (lng1 - lng2) < 360 / 2 ^ ((5 * p + 1) / 2))%R ∧
  (Rabs (lat1 - lat2) < 180 / 2 ^ (5 * p / 2))%R.
Proof.
  intros Hlat1 Hlng1 Hlat2 Hlng2 Hcode.
  apply same_code_same_state in Hcode.
  destruct (steps_in_cell lat1 lng1 (5 * p) Hlat1 Hlng1) as (a1 & b1 & Hn1 & Hc1).
  destruct (steps_in_cell lat2 lng2 (5 * p) Hlat2 Hlng2) as (a2 & b2 & Hn2 & Hc2).
  rewrite <- Hcode in Hc2.
  destruct Hc1 as (Hla1 & Hlo1 & Hw1 & Hh1 & _ & Hab1).
  destruct Hc2 as (Hla2 & Hlo2 & _ & _ & _ & Hab2).
  assert (Ha : a1 = (5 * p + 1) / 2).
  { destruct Hab1 as [->| ->].
    - replace (5 * p + 1) with (1 + b1 * 2) by lia.
      rewrite Nat.div_add by lia. simpl. lia.
    - replace (5 * p + 1) with ((S b1) * 2) by lia. by rewrite Nat.div_mul. }
  assert (Hb : b1 = 5 * p / 2).
  { destruct Hab1 as [->| ->].
    - replace (5 * p) with (b1 * 2) by lia. by rewrite Nat.div_mul.
    - replace (5 * p) with (1 + b1 * 2) by lia.
      rewrite Nat.div_add by lia. simpl. lia. }
  rewrite <- Ha, <- Hb, <- Hw1, <- Hh1.
  split; apply Rabs_def1; lra.
Qed.

Example encodeGeohash_india_gate_2 :
  encodeGeohash 28.6129 77.2295 2 = "tt"%string.
Proof.
  rewrite encodeGeohash_steps. unfold Geo.steps, geo_init.
  change (5 * 2) with 10.
  do 10 (erewrite iter_step; [|geo_eval]).
  reflexivity.
Qed.

Lemma encodeGeohash_locality_witness :
  (Rabs (77.2090 - 77.2295) < 360 / 2 ^ ((5 * 2 + 1) / 2))%R ∧
  (Rabs (28.6139 - 28.6129) < 180 / 2 ^ (5 * 2 / 2))%R.
Proof.
  apply (encodeGeohash_locality 28.6139 77.2090 28.6129 77.2295 2); try lra.
  by rewrite encodeGeohash_delhi_2, encodeGeohash_india_gate_2.
Defined.

End CellFacts.

(** ** Hemispheres *)

Module HemisphereFacts.
Import Geo GeoFacts GeoSpec CellFacts.

(** The first bit of a code is the sign of the longitude. *)
Lemma meridian_diverged (lat1 lng1 lat2 lng2 : R) :
  (lng1 < 0 <= lng2)%R →
  diverged (Geo.steps lat1 lng1 1) (Geo.steps lat2 lng2 1).
Proof.
  intros Hlng. unfold Geo.steps, geo_body, bisect, geo_init. cbn.
  destruct (decide (lng1 >= (-180 + 180) / 2)%R); [exfalso; lra|].
  destruct (decide (lng2 >= (-180 + 180) / 2)%R); [|exfalso; lra].
  unfold emit, diverged. cbn. repeat split; lia.
Qed.

(** The second bit is the sign of the latitude. *)
Lemma equator_diverged (lat1 lng1 lat2 lng2 : R) :
  (lat1 < 0 <= lat2)%R →
  diverged (Geo.steps lat1 lng1 2) (Geo.steps lat2 lng2 2).
Proof.
  intros Hlat. unfold Geo.steps, geo_body, bisect, geo_init. cbn.
  destruct (decide (lng1 >= (-180 + 180) / 2)%R);
    destruct (decide (lng2 >= (-180 + 180) / 2)%R); cbn;
    (destruct (decide (lat1 >= (-90 + 90) / 2)%R); [exfalso; lra|]);
    (destruct (decide (lat2 >= (-90 + 90) / 2)%R); [|exfalso; lra]);
    unfold emit, diverged; cbn; repeat split; lia.
Qed.

(** X17. Two points on opposite sides of the prime meridian, or of the
    equator, have different geohashes at every precision of at least one
    character, however close they are. *)
Theorem encodeGeohash_hemispheres (lat1 lng1 lat2 lng2 : R) (p : nat) :
  0 < p →
  (lng1 < 0 <= lng2)%R ∨ (lat1 < 0 <= lat2)%R →
  encodeGeohash lat1 lng1 p ≠ encodeGeohash lat2 lng2 p.
Proof.
  intros Hp Hsplit. apply diverged_codes.
  destruct Hsplit as [Hlng|Hlat].
  - replace (5 * p) with (1 + (5 * p - 1)) by lia.
    apply diverged_later. by apply meridian_diverged.
  - replace (5 * p) with (2 + (5 * p - 2)) by lia.
    apply diverged_later. by apply equator_diverged.
Qed.

Lemma encodeGeohash_hemispheres_witness :
  encodeGeohash (-0.00005) 77.2090 7 ≠ encodeGeohash 0.00005 77.2090 7.
Proof.
  apply (encodeGeohash_hemispheres (-0.00005) 77.2090 0.00005 77.2090 7); [lia|].
  right. lra.
Defined.

End HemisphereFacts.

(** ** The trigger, case by case *)

Module StoreFacts.
Import Geo GeoFacts Firestore Aggregation AggregationFacts Store Examples Examples2.

Lemma findMatch_Some (lat lng : R) (docs : list Doc) (m : Doc) :
  findMatch lat lng docs = Some m →
  m ∈ docs ∧
  (calculateDistance lat lng
     (LatLng.latitude (AggregatedReport.location m.2))
     (LatLng.longitude (AggregatedReport.location m.2)) <= AGGREGATION_RADIUS)%R.
Proof.
  induction docs as [|d docs IH]; simpl; [done|].
  case_decide as Hd.
  - intros [= <-]. split; [apply list_elem_of_here|done].
  - intros [Hin Hm]%IH. split; [by apply list_elem_of_further|done].
Qed.

Lemma findMatch_None (lat lng : R) (docs : list Doc) :
  findMatch lat lng docs = None →
  Forall (λ d, calculateDistance lat lng
     (LatLng.latitude (AggregatedReport.location d.2))
     (LatLng.longitude (AggregatedReport.location d.2)) > AGGREGATION_RADIUS)%R docs.
Proof.
  induction docs as [|d docs IH]; simpl; [done|].
  case_decide as Hd; [done|]. intros Hn. constructor; [lra|by apply IH].
Qed.

(** The three ways a run of the trigger can go. *)
Lemma aggregateDetection_cases (detection : Detection.t) (c : Collection) :
  (Detection.defectType detection = normal ∧
   aggregateDetection detection c = Some c) ∨
  (Detection.defectType detection ≠ normal ∧
   ∃ id r, c !! id = Some r ∧
     AggregatedReport.defectType r = Detection.defectType detection ∧
     (Spec.distanceTo detection r <= 25)%R ∧
     aggregateDetection detection c = Some (<[id := merged detection r]> c)) ∨
  (Detection.defectType detection ≠ normal ∧
   c !! newId c = None ∧
   Forall (λ d, Spec.distanceTo detection d.2 > 25)%R
     (nearbyReports
        (encodeGeohash (LatLng.latitude (Detection.location detection))
                       (LatLng.longitude (Detection.location detection)) 7)
        (Detection.defectType detection) c) ∧
   aggregateDetection detection c = Some (<[newId c := created detection]> c)).
Proof.
  unfold aggregateDetection.
  destruct (decide (Detection.defectType detection = normal)) as [Hn|Hn];
    [by left|right].
  destruct (findMatch _ _ _) as [[id r]|] eqn:Hfind.
  - left. split; [done|]. exists id, r.
    apply findMatch_Some in Hfind as [Hin Hdist].
    apply nearbyReports_elem in Hin as [Hlook Hdt]. cbn [fst snd] in *.
    repeat split; try done.
    unfold Firestore.update. by rewrite Hlook.
  - right. split; [done|]. split; [|split; [|done]].
    + apply not_elem_of_dom. unfold newId. apply is_fresh.
    + by apply findMatch_None in Hfind.
Qed.

(** *** Which reports the query returns *)

Lemma ascii_compare_antisym (a c : ascii) :
  Ascii.compare a c ≠ Gt → Ascii.compare c a ≠ Gt → a = c.
Proof.
  unfold Ascii.compare. intros H1 H2.
  destruct (N.compare_spec (N_of_ascii a) (N_of_ascii c)) as [He|Hl|Hg]; [|exfalso..].
  - rewrite <- (ascii_N_embedding a), <- (ascii_N_embedding c). by rewrite He.
  - apply H2. by apply N.compare_gt_iff.
  - done.
Qed.

(** A string between [P] and [P] followed by anything starts with [P]. *)
Lemma range_prefix (P u g : string) :
  (P ≤ g)%string → (g ≤ P +:+ u)%string →
  substring 0 (String.length P) g = P.
Proof.
  unfold String.le, String.leb.
  revert g. induction P as [|a P IH]; intros [|c g]; try done.
  rewrite append_cons. simpl.
  destruct (Ascii.compare a c) eqn:Hac; destruct (Ascii.compare c a) eqn:Hca;
    try done; intros H1 H2;
    (assert (a = c) as -> by (apply ascii_compare_antisym; congruence));
    unfold Ascii.compare in *; rewrite N.compare_refl in *; try done.
  f_equal. by apply IH.
Qed.

Lemma encodeGeohash_prefix_5 (lat lng : R) :
  substring 0 5 (encodeGeohash lat lng 7) = encodeGeohash lat lng 5.
Proof. apply (encodeGeohash_prefix lat lng 5 2). Qed.

Lemma nearbyReports_prefix (lat lng : R) (dt : DefectType) (c : Collection) (d : Doc) :
  d ∈ nearbyReports (encodeGeohash lat lng 7) dt c →
  substring 0 5 (AggregatedReport.geohash d.2) = encodeGeohash lat lng 5.
Proof.
  unfold nearbyReports, Firestore.get.
  intros [(Hlo & Hhi & _) _]%list_elem_of_filter.
  rewrite encodeGeohash_prefix_5 in Hlo, Hhi.
  rewrite <- (encodeGeohash_length lat lng 5) at 1.
  by apply range_prefix with uf8ff.
Qed.

Lemma nearbyReports_intro (lat lng : R) (dt : DefectType) (c : Collection) (d : Doc) :
  c !! d.1 = Some d.2 → AggregatedReport.defectType d.2 = dt →
  below 239 (AggregatedReport.geohash d.2) →
  substring 0 5 (AggregatedReport.geohash d.2) = encodeGeohash lat lng 5 →
  d ∈ nearbyReports (encodeGeohash lat lng 7) dt c.
Proof.
  intros Hlook Hdt Hb Hp.
  unfold nearbyReports, Firestore.get. apply list_elem_of_filter.
  split; [|by apply elem_of_map_to_list'].
  rewrite encodeGeohash_prefix_5, <- Hp.
  split; [apply substring_le|]. split; [by apply le_substring_uf8ff|done].
Qed.

(** X18. The candidates of a detection are exactly the stored reports of
    its defect type whose geohash starts with the five-character code of
    the detection's point (for reports whose geohash is made of bytes
    below 239, as every code of the encoder is). *)
Theorem nearbyReports_cell (lat lng : R) (dt : DefectType) (c : Collection) (d : Doc) :
  below 239 (AggregatedReport.geohash d.2) →
  d ∈ nearbyReports (encodeGeohash lat lng 7) dt c ↔
  c !! d.1 = Some d.2 ∧ AggregatedReport.defectType d.2 = dt ∧
  substring 0 5 (AggregatedReport.geohash d.2) = encodeGeohash lat lng 5.
Proof.
  intros Hb. split.
  - intros Hin. pose proof (nearbyReports_prefix _ _ _ _ _ Hin) as Hp.
    apply nearbyReports_elem in Hin as [Hlook Hdt]. done.
  - intros (Hlook & Hdt & Hp). by apply nearbyReports_intro.
Qed.

Lemma nearbyReports_cell_witness :
  below 239 (AggregatedReport.geohash report1) ∧
  ((newId ∅, report1) ∈ nearbyReports (encodeGeohash 28.6139 77.2090 7) pothole store1 ↔
   store1 !! newId ∅ = Some report1 ∧ AggregatedReport.defectType report1 = pothole ∧
   substring 0 5 (AggregatedReport.geohash report1) = encodeGeohash 28.6139 77.2090 5).
Proof.
  split; [apply encodeGeohash_below|].
  apply (nearbyReports_cell 28.6139 77.2090 pothole store1 (newId ∅, report1)).
  apply encodeGeohash_below.
Defined.

(** X19. A detection is merged only into a report of its own
    five-character cell: when no stored report of its defect type has a
    geohash that starts with the detection's five-character code, the
    trigger adds a new single-report document, whatever the distances. *)
Theorem aggregateDetection_cell_miss (detection : Detection.t) (c : Collection) :
  Detection.defectType detection ≠ normal →
  (∀ id r, c !! id = Some r →
     AggregatedReport.defectType r = Detection.defectType detection →
     substring 0 5 (AggregatedReport.geohash r)
     ≠ encodeGeohash (LatLng.latitude (Detection.location detection))
                     (LatLng.longitude (Detection.location detection)) 5) →
  c !! newId c = None ∧
  aggregateDetection detection c = Some (<[newId c := created detection]> c).
Proof.
  intros Hn Hcell.
  split; [apply not_elem_of_dom; unfold newId; apply is_fresh|].
  unfold aggregateDetection. rewrite decide_False by done.
  destruct (nearbyReports _ _ c) as [|d docs] eqn:Hq; [done|].
  exfalso. assert (Hin : d ∈ nearbyReports
    (encodeGeohash (LatLng.latitude (Detection.location detection))
                   (LatLng.longitude (Detection.location detection)) 7)
    (Detection.defectType detection) c) by (rewrite Hq; apply list_elem_of_here).
  pose proof (nearbyReports_prefix _ _ _ _ _ Hin) as Hp.
  apply nearbyReports_elem in Hin as [Hlook Hdt].
  by apply (Hcell d.1 d.2).
Qed.

(** The two points of the example are 11 m apart, across the equator. *)
Lemma north_south_close : (Spec.distanceTo detection_north report_south <= 25)%R.
Proof.
  unfold Spec.distanceTo. cbn.
  pose proof PI_RGT_0 as Hpi. pose proof PI_4 as Hpi4.
  rewrite DistanceFacts.calculateDistance_same_lon by (cbv zeta; lra).
  rewrite Rabs_left by lra. lra.
Qed.

Lemma north_south_cells :
  encodeGeohash (-0.00005) 77.2090 5 ≠ encodeGeohash 0.00005 77.2090 5.
Proof.
  apply CellFacts.diverged_codes.
  change (5 * 5) with (2 + 23).
  apply CellFacts.diverged_later, HemisphereFacts.equator_diverged. lra.
Qed.

Lemma aggregateDetection_cell_miss_witness :
  (Spec.distanceTo detection_north report_south <= 25)%R ∧
  store_south !! newId store_south = None ∧
  aggregateDetection detection_north store_south
  = Some (<[newId store_south := created detection_north]> store_south).
Proof.
  split; [apply north_south_close|].
  apply (aggregateDetection_cell_miss detection_north store_south); [done|].
  intros id r Hlook _. unfold store_south, Firestore.add in Hlook.
  apply lookup_insert_Some in Hlook as [[_ <-]|[_ Hlook]]; [|done].
  cbn [AggregatedReport.geohash report_south Detection.location detection_north
       north LatLng.latitude LatLng.longitude].
  rewrite encodeGeohash_prefix_5. apply north_south_cells.
Defined.

(** *** One run of the trigger *)

(** X20. The trigger never fails and never loses a report: it returns a
    collection with at most one document more, in which every report that
    was stored is still stored under its id, with the same location,
    defect type, geohash and first-report time, and a report count that is
    the same or one higher. *)
Theorem aggregateDetection_keeps_reports (detection : Detection.t) (c : Collection) :
  ∃ c', aggregateDetection detection c = Some c' ∧
    size c ≤ size c' ≤ S (size c) ∧
    ∀ id r, c !! id = Some r →
      ∃ r', c' !! id = Some r' ∧
        AggregatedReport.location r' = AggregatedReport.location r ∧
        AggregatedReport.defectType r' = AggregatedReport.defectType r ∧
        AggregatedReport.geohash r' = AggregatedReport.geohash r ∧
        AggregatedReport.firstReported r' = AggregatedReport.firstReported r ∧
        AggregatedReport.reportCount r ≤ AggregatedReport.reportCount r'
          ≤ S (AggregatedReport.reportCount r).
Proof.
  destruct (aggregateDetection_cases detection c)
    as [[_ ->]|[(_ & m & rm & Hm & _ & _ & ->)|(_ & Hfresh & _ & ->)]].
  - exists c. split; [done|]. split; [lia|].
    intros id r Hr. exists r. repeat split; try done; lia.
  - eexists. split; [done|]. split.
    + rewrite map_size_insert_Some by done. lia.
    + intros id r Hr. destruct (decide (id = m)) as [->|Hne].
      * rewrite lookup_insert_eq. simplify_eq. eexists. split; [done|].
        cbn. repeat split; lia.
      * rewrite lookup_insert_ne by done. exists r. repeat split; try done; lia.
  - eexists. split; [done|]. split.
    + rewrite map_size_insert_None by done. lia.
    + intros id r Hr. assert (id ≠ newId c) by congruence.
      rewrite lookup_insert_ne by done. exists r. repeat split; try done; lia.
Qed.

(** *** Reports in the long run *)

Lemma log10_nonneg (n : nat) : 1 ≤ n → (0 <= log10 (INR n))%R.
Proof.
  intros Hn. unfold log10.
  assert (H10 : (0 < ln 10)%R) by (rewrite <- ln_1; apply ln_increasing; lra).
  assert (H1 : (1 <= INR n)%R) by (change 1%R with (INR 1); by apply le_INR).
  assert (Hln : (0 <= ln (INR n))%R).
  { destruct (Rle_lt_or_eq_dec _ _ H1) as [Hlt| <-]; [|rewrite ln_1; lra].
    rewrite <- ln_1. left. apply ln_increasing; lra. }
  by apply Rle_mult_inv_pos.
Qed.

Lemma created_well_formed (detection : Detection.t) :
  Detection.defectType detection ≠ normal → well_formed (created detection).
Proof.
  intros Hn. unfold well_formed, created. cbn.
  repeat split; try done; try lia; try lra.
  apply NoDup_singleton.
Qed.

Lemma merged_well_formed (detection : Detection.t) (r : AggregatedReport.t) :
  well_formed r → well_formed (merged detection r).
Proof.
  intros (Hn & Hg & [Hu1 Hu2] & Hnd & _). unfold well_formed, merged. cbn.
  split; [done|]. split; [done|].
  assert (Hlog := log10_nonneg (AggregatedReport.reportCount r + 1) ltac:(lia)).
  case_decide as Hin.
  - repeat split; try done; try lia; [|apply Rmin_l].
    apply Rmin_glb; [lra|].
    pose proof (pos_INR (length (AggregatedReport.uniqueUsers r))). lra.
  - rewrite length_app. cbn [length].
    repeat split; try lia; [| |apply Rmin_l].
    + apply NoDup_app. split; [done|]. split; [|apply NoDup_singleton].
      intros u Hu ->%list_elem_of_singleton. done.
    + apply Rmin_glb; [lra|].
      pose proof (pos_INR (length (AggregatedReport.uniqueUsers r) + 1)). lra.
Qed.

Lemma cleanupOldDetections_Some (now : R) (c : Collection) (id : string)
    (r : AggregatedReport.t) :
  cleanupOldDetections now c !! id = Some r → c !! id = Some r.
Proof.
  rewrite cleanupOldDetections_lookup.
  destruct (c !! id) as [r'|]; [|done]. by case_decide.
Qed.

(** X21. Every report of every collection that the trigger and the sweep
    can produce from the empty one is well formed: its defect type is not
    "normal", its geohash is the seven-character code of its location, its
    unique users are distinct, at least one and at most as many as its
    report count, and its credibility score lies between 0.3 and 1. *)
Theorem reachable_well_formed (c : Collection) (id : string) (r : AggregatedReport.t) :
  reachable c → c !! id = Some r → well_formed r.
Proof.
  intros Hreach. revert id r.
  induction Hreach as [|detection c1 c2 _ IH Hagg|now c1 _ IH]; intros id r Hr.
  - by rewrite lookup_empty in Hr.
  - destruct (aggregateDetection_cases detection c1)
      as [[_ Heq]|[(Hn & m & rm & Hm & _ & _ & Heq)|(Hn & _ & _ & Heq)]];
      rewrite Heq in Hagg; injection Hagg as <-.
    + by apply (IH id).
    + apply lookup_insert_Some in Hr as [[_ <-]|[_ Hr]]; [|by apply (IH id)].
      apply merged_well_formed. by apply (IH m).
    + apply lookup_insert_Some in Hr as [[_ <-]|[_ Hr]]; [|by apply (IH id)].
      by apply created_well_formed.
  - apply (IH id). by apply cleanupOldDetections_Some in Hr.
Qed.

Lemma store1_reachable : reachable store1.
Proof.
  apply (evolves_aggregate ∅ detection1 ∅); [constructor|].
  destruct (aggregateDetection_cases detection1 ∅)
    as [[Hn _]|[(_ & m & rm & Hm & _)|(_ & _ & _ & ->)]]; [done| |done].
  by rewrite lookup_empty in Hm.
Qed.

Lemma reachable_well_formed_witness : well_formed report1.
Proof.
  apply (reachable_well_formed store1 (newId ∅) report1).
  - apply store1_reachable.
  - unfold store1, Firestore.add. apply lookup_insert_eq.
Defined.

(** X22. A verified report is never lost: once a report has a count of
    two or more, however often the trigger and the sweep run afterwards, it
    stays stored under its id with the same location, defect type, geohash
    and first-report time, and its count never decreases. *)
Theorem verified_report_persists (c c' : Collection) (id : string)
    (r : AggregatedReport.t) :
  evolves c c' → c !! id = Some r → 2 ≤ AggregatedReport.reportCount r →
  ∃ r', c' !! id = Some r' ∧
    AggregatedReport.reportCount r ≤ AggregatedReport.reportCount r' ∧
    AggregatedReport.location r' = AggregatedReport.location r ∧
    AggregatedReport.defectType r' = AggregatedReport.defectType r ∧
    AggregatedReport.geohash r' = AggregatedReport.geohash r ∧
    AggregatedReport.firstReported r' = AggregatedReport.firstReported r.
Proof.
  intros Hev Hr H2.
  induction Hev as [|detection c1 c2 _ IH Hagg|now c1 _ IH].
  - exists r. by repeat split.
  - destruct IH as (r1 & Hr1 & Hc & Hl & Ht & Hg & Hf).
    destruct (aggregateDetection_cases detection c1)
      as [[_ Heq]|[(_ & m & rm & Hm & _ & _ & Heq)|(_ & Hfresh & _ & Heq)]];
      rewrite Heq in Hagg; injection Hagg as <-.
    + exists r1. by repeat split.
    + destruct (decide (id = m)) as [->|Hne].
      * rewrite lookup_insert_eq. simplify_eq. eexists. split; [done|].
        cbn. repeat split; try done. lia.
      * rewrite lookup_insert_ne by done. exists r1. by repeat split.
    + assert (id ≠ newId c1) by congruence.
      rewrite lookup_insert_ne by done. exists r1. by repeat split.
  - destruct IH as (r1 & Hr1 & Hc & Hl & Ht & Hg & Hf).
    exists r1. split; [|by repeat split].
    rewrite cleanupOldDetections_lookup, Hr1.
    rewrite decide_False; [done|]. intros [Hone _]. lia.
Qed.

Lemma verified_report_persists_witness :
  ∃ r', cleanupOldDetections 5000000000 (<[newId ∅ := merged detection2 report1]> store1)
          !! newId ∅ = Some r' ∧
    AggregatedReport.reportCount (merged detection2 report1)
      ≤ AggregatedReport.reportCount r' ∧
    AggregatedReport.location r' = AggregatedReport.location (merged detection2 report1) ∧
    AggregatedReport.defectType r' = AggregatedReport.defectType (merged detection2 report1) ∧
    AggregatedReport.geohash r' = AggregatedReport.geohash (merged detection2 report1) ∧
    AggregatedReport.firstReported r'
      = AggregatedReport.firstReported (merged detection2 report1).
Proof.
  apply (verified_report_persists (<[newId ∅ := merged detection2 report1]> store1)).
  - apply evolves_cleanup, evolves_refl.
  - apply lookup_insert_eq.
  - cbn. lia.
Defined.

(** *** Several detections of one defect *)

Lemma absorb_fields (ds : list Detection.t) (r : AggregatedReport.t) :
  AggregatedReport.reportCount (absorb ds r)
    = AggregatedReport.reportCount r + length ds ∧
  (AggregatedReport.averageSeverity (absorb ds r)
     * INR (AggregatedReport.reportCount r + length ds)
   = AggregatedReport.averageSeverity r * INR (AggregatedReport.reportCount r)
     + total_severity ds)%R ∧
  (∀ u, u ∈ AggregatedReport.uniqueUsers (absorb ds r) ↔
        u ∈ AggregatedReport.uniqueUsers r ∨ u ∈ Detection.userId <$> ds) ∧
  AggregatedReport.location (absorb ds r) = AggregatedReport.location r ∧
  AggregatedReport.defectType (absorb ds r) = AggregatedReport.defectType r ∧
  AggregatedReport.geohash (absorb ds r) = AggregatedReport.geohash r ∧
  AggregatedReport.firstReported (absorb ds r) = AggregatedReport.firstReported r ∧
  AggregatedReport.lastReported (absorb ds r)
    = default (AggregatedReport.lastReported r) (Detection.timestamp <$> last ds).
Proof.
  revert r. induction ds as [|d ds IH]; intros r.
  - cbn. rewrite Nat.add_0_r. repeat split; try done; try lra.
    + by left.
    + intros [?|Hin]; [done|]. by apply elem_of_nil in Hin.
  - change (absorb (d :: ds) r) with (absorb ds (merged d r)).
    destruct (IH (merged d r)) as (Hc & Ha & Hu & Hl & Ht & Hg & Hf & Hlast).
    rewrite Hc, Hl, Ht, Hg, Hf, Hlast. cbn [merged AggregatedReport.reportCount
      AggregatedReport.location AggregatedReport.defectType AggregatedReport.geohash
      AggregatedReport.firstReported AggregatedReport.lastReported
      AggregatedReport.averageSeverity AggregatedReport.uniqueUsers length] in *.
    split; [lia|]. split.
    { replace (AggregatedReport.reportCount r + S (length ds))
        with (AggregatedReport.reportCount r + 1 + length ds) by lia.
      rewrite Ha. cbn [total_severity foldr].
      assert (INR (AggregatedReport.reportCount r + 1) ≠ 0)%R
        by (apply not_0_INR; lia).
      fold (total_severity ds). field. done. }
    split.
    { intros u. rewrite Hu, fmap_cons, elem_of_cons.
      case_decide as Hin.
      - split; [intros [?|?]; auto|intros [?|[->|?]]; auto].
      - rewrite elem_of_app, list_elem_of_singleton. tauto. }
    repeat split; try done.
    rewrite last_cons. by destruct (last ds).
Qed.

Lemma absorb_NoDup (ds : list Detection.t) (r : AggregatedReport.t) :
  NoDup (AggregatedReport.uniqueUsers r) →
  NoDup (AggregatedReport.uniqueUsers (absorb ds r)).
Proof.
  revert r. induction ds as [|d ds IH]; intros r Hnd; [done|].
  change (absorb (d :: ds) r) with (absorb ds (merged d r)).
  apply IH. cbn. case_decide as Hin; [done|].
  apply NoDup_app. split; [done|]. split; [|apply NoDup_singleton].
  intros u Hu ->%list_elem_of_singleton. done.
Qed.

(** Detections at the stored point of the only report are merged into it. *)
Lemma aggregateAll_singleton (ds : list Detection.t) (id : string)
    (r : AggregatedReport.t) :
  AggregatedReport.defectType r ≠ normal →
  AggregatedReport.geohash r
    = encodeGeohash (LatLng.latitude (AggregatedReport.location r))
                    (LatLng.longitude (AggregatedReport.location r)) 7 →
  Forall (λ d, Detection.location d = AggregatedReport.location r ∧
               Detection.defectType d = AggregatedReport.defectType r) ds →
  aggregateAll ds {[id := r]} = Some {[id := absorb ds r]}.
Proof.
  revert r. induction ds as [|d ds IH]; intros r Hn Hg Hall; [done|].
  apply Forall_cons in Hall as [[Hloc Hdt] Hall].
  change (absorb (d :: ds) r) with (absorb ds (merged d r)).
  cbn [aggregateAll].
  assert (Hin : (id, r) ∈ nearbyReports
    (encodeGeohash (LatLng.latitude (Detection.location d))
                   (LatLng.longitude (Detection.location d)) 7)
    (Detection.defectType d) {[id := r]}).
  { apply nearbyReports_intro; cbn [fst snd].
    - apply lookup_singleton_eq.
    - done.
    - rewrite Hg. apply encodeGeohash_below.
    - rewrite Hg, Hloc. apply encodeGeohash_prefix_5. }
  destruct (aggregateDetection_cases d {[id := r]})
    as [[Hnorm _]|[(_ & m & rm & Hm & _ & _ & ->)|(_ & _ & Hfar & _)]].
  - congruence.
  - apply lookup_singleton_Some in Hm as [<- <-].
    rewrite insert_singleton_eq. apply IH; [done|done|].
    eapply Forall_impl; [exact Hall|]. by intros d' [? ?].
  - exfalso. rewrite Forall_forall in Hfar. specialize (Hfar _ Hin).
    unfold Spec.distanceTo in Hfar. cbn [snd] in Hfar.
    rewrite Hloc, calculateDistance_same in Hfar. lra.
Qed.

(** X23. Detections of one defect: when a first detection in an empty
    collection is followed by any number of detections with the same
    location and defect type, the collection ends with exactly one report;
    its count is the number of detections, its average severity is their
    mean severity, its unique users are the distinct users of the
    detections, and its first and last report times are the times of the
    first and the last detection. *)
Theorem repeated_detections (d : Detection.t) (ds : list Detection.t) :
  Detection.defectType d ≠ normal →
  Forall (λ d', Detection.location d' = Detection.location d ∧
                Detection.defectType d' = Detection.defectType d) ds →
  ∃ r, aggregateAll (d :: ds) ∅ = Some {[newId ∅ := r]} ∧
    AggregatedReport.reportCount r = length (d :: ds) ∧
    AggregatedReport.averageSeverity r
      = (total_severity (d :: ds) / INR (length (d :: ds)))%R ∧
    NoDup (AggregatedReport.uniqueUsers r) ∧
    (∀ u, u ∈ AggregatedReport.uniqueUsers r ↔ u ∈ Detection.userId <$> d :: ds) ∧
    AggregatedReport.location r = Detection.location d ∧
    AggregatedReport.defectType r = Detection.defectType d ∧
    AggregatedReport.firstReported r = Detection.timestamp d ∧
    AggregatedReport.lastReported r
      = default (Detection.timestamp d) (Detection.timestamp <$> last ds).
Proof.
  intros Hn Hall. exists (absorb ds (created d)).
  assert (Hloc : AggregatedReport.location (created d) = Detection.location d)
    by (unfold created; cbn; by destruct (Detection.location d)).
  split.
  - cbn [aggregateAll].
    destruct (aggregateDetection_cases d ∅)
      as [[Hnorm _]|[(_ & m & rm & Hm & _)|(_ & _ & _ & ->)]].
    + done.
    + by rewrite lookup_empty in Hm.
    + rewrite insert_empty. apply aggregateAll_singleton.
      * done.
      * unfold created. cbn. done.
      * rewrite Hloc. eapply Forall_impl; [exact Hall|]. by intros d' [? ?].
  - destruct (absorb_fields ds (created d))
      as (Hc & Ha & Hu & Hl & Ht & Hg & Hf & Hlast).
    rewrite Hc, Hl, Ht, Hf, Hlast, Hloc.
    cbn [created AggregatedReport.reportCount AggregatedReport.averageSeverity
         AggregatedReport.uniqueUsers AggregatedReport.defectType
         AggregatedReport.firstReported AggregatedReport.lastReported length] in *.
    split; [lia|]. split.
    { assert (INR (1 + length ds) ≠ 0)%R by (apply not_0_INR; lia).
      change (S (length ds)) with (1 + length ds).
      apply Rmult_eq_reg_r with (INR (1 + length ds)); [|done].
      rewrite Ha. cbn [total_severity foldr]. fold (total_severity ds).
      change (INR 1) with 1%R. field. done. }
    split; [apply absorb_NoDup, NoDup_singleton|].
    split; [|done].
    intros u. rewrite Hu, fmap_cons, list_elem_of_singleton, elem_of_cons. done.
Qed.

Lemma repeated_detections_witness :
  ∃ r, aggregateAll [detection1; detection2] ∅ = Some {[newId ∅ := r]} ∧
    AggregatedReport.reportCount r = 2 ∧
    AggregatedReport.averageSeverity r
      = (total_severity [detection1; detection2] / INR 2)%R ∧
    NoDup (AggregatedReport.uniqueUsers r) ∧
    (∀ u, u ∈ AggregatedReport.uniqueUsers r ↔ u ∈ ["alice"; "bob"]%string) ∧
    AggregatedReport.location r = delhi ∧
    AggregatedReport.defectType r = pothole ∧
    AggregatedReport.firstReported r = 1000%R ∧
    AggregatedReport.lastReported r = 2000%R.
Proof.
  apply (repeated_detections detection1 [detection2]); [done|].
  by repeat constructor.
Defined.

(** *** The public statistics *)

Lemma length_get (P : Doc → Prop) `{!∀ d, Decision (P d)} (c : Collection) :
  length (Firestore.get P c) = size (filter P c).
Proof.
  unfold Firestore.get. rewrite (map_filter_alt P c), map_size_list_to_map.
  - done.
  - apply NoDup_fmap_fst.
    + intros i x y [_ Hx]%list_elem_of_filter [_ Hy]%list_elem_of_filter.
      apply elem_of_map_to_list in Hx, Hy. congruence.
    + apply NoDup_filter, NoDup_map_to_list.
Qed.

(** X24. The sweep never changes the public statistics: it deletes only
    reports with a count of one, which the statistics do not count. *)
Theorem getPublicStats_after_cleanup (method : string) (t now : R)
    (detections : gmap string Detection.t) (c : Collection) :
  Stats.getPublicStats method t detections (cleanupOldDetections now c)
  = Stats.getPublicStats method t detections c.
Proof.
  unfold Stats.getPublicStats. case_decide; [done|].
  do 2 f_equal. rewrite !length_get. f_equal.
  apply map_eq. intros id. apply option_eq. intros r.
  rewrite !map_lookup_filter_Some, cleanupOldDetections_lookup. cbn [snd].
  destruct (c !! id) as [r'|]; [|naive_solver].
  case_decide as Hst; [|done].
  destruct Hst as [Hone _]. split; [by intros [? _]|].
  intros [Heq H2]. simplify_eq. lia.
Qed.

End StoreFacts.

(** ** The client's queries and the admin page *)

Module DatabaseFacts.
Import Firestore Aggregation AggregationFacts Store Database.

#[local] Instance newestFirst_total : Total newestFirst.
Proof.
  intros a b. unfold newestFirst.
  destruct (Rle_dec (Detection.timestamp b.2) (Detection.timestamp a.2));
    [by left|right; lra].
Qed.

#[local] Instance newestFirst_trans : Transitive newestFirst.
Proof. intros a b c. unfold newestFirst. lra. Qed.

#[local] Instance mostReportedFirst_total : Total mostReportedFirst.
Proof. intros a b. unfold mostReportedFirst. lia. Qed.

#[local] Instance mostReportedFirst_trans : Transitive mostReportedFirst.
Proof. intros a b c. unfold mostReportedFirst. lia. Qed.

Section Query.
Context {A : Type} (R : relation (string * A)) `{!∀ a b, Decision (R a b)}
  `{!Total R, !Transitive R}
  (P : string * A → Prop) `{!∀ d, Decision (P d)}.

Lemma selection_elem (c : gmap string A) (d : string * A) :
  d ∈ selection R P c ↔ c !! d.1 = Some d.2 ∧ P d.
Proof.
  unfold selection. rewrite merge_sort_Permutation, list_elem_of_filter.
  rewrite elem_of_map_to_list'. tauto.
Qed.

Lemma selection_NoDup (c : gmap string A) : NoDup (selection R P c).
Proof.
  unfold selection. rewrite merge_sort_Permutation.
  apply NoDup_filter, NoDup_map_to_list.
Qed.

Lemma selection_length (c : gmap string A) :
  length (selection R P c) = size (filter P c).
Proof.
  unfold selection. rewrite merge_sort_Permutation.
  rewrite (map_filter_alt P c), map_size_list_to_map; [done|].
  apply NoDup_fmap_fst.
  - intros i x y [_ Hx]%list_elem_of_filter [_ Hy]%list_elem_of_filter.
    apply elem_of_map_to_list in Hx, Hy. congruence.
  - apply NoDup_filter, NoDup_map_to_list.
Qed.

Lemma take_selection_sorted (n : nat) (c : gmap string A) :
  StronglySorted R (take n (selection R P c)).
Proof.
  pose proof (StronglySorted_merge_sort R (filter P (map_to_list c))) as Hs.
  fold (selection R P c) in Hs. rewrite <- (take_drop n (selection R P c)) in Hs.
  by apply StronglySorted_app_1_l in Hs.
Qed.

(** A selected document that the limit leaves out comes after [n] others. *)
Lemma take_selection_missed (n : nat) (c : gmap string A) (d : string * A) :
  d ∈ selection R P c → d ∉ take n (selection R P c) →
  length (take n (selection R P c)) = n ∧
  Forall (λ d', R d' d) (take n (selection R P c)).
Proof.
  intros Hin Hout.
  pose proof (StronglySorted_merge_sort R (filter P (map_to_list c))) as Hs.
  fold (selection R P c) in Hs.
  rewrite <- (take_drop n (selection R P c)) in Hs, Hin.
  apply elem_of_app in Hin as [Hin|Hin]; [done|].
  split.
  - apply length_take_le.
    destruct (decide (n ≤ length (selection R P c))) as [|Hlt]; [done|].
    rewrite drop_ge in Hin by lia. by apply elem_of_nil in Hin.
  - apply Forall_forall. intros d' Hd'.
    by apply (StronglySorted_app_1_elem_of R _ _ d' d Hs).
Qed.

End Query.

Lemma elem_of_take_1 {A} (x : A) (n : nat) (l : list A) : x ∈ take n l → x ∈ l.
Proof. intros Hin. apply (elem_of_sublist _ _ _ Hin), sublist_take. Qed.

Lemma StronglySorted_filter {A} (R : relation A) (P : A → Prop)
    `{!∀ x, Decision (P x)} (l : list A) :
  StronglySorted R l → StronglySorted R (filter P l).
Proof.
  induction 1 as [|x l Hs IH Hall]; [constructor|].
  rewrite filter_cons. case_decide; [|done].
  constructor; [done|]. apply Forall_forall.
  intros y [_ Hy]%list_elem_of_filter. rewrite Forall_forall in Hall. by apply Hall.
Qed.

Lemma defect_iff (dt : DefectType) : dt ∈ [pothole; speed_breaker] ↔ dt ≠ normal.
Proof.
  rewrite !elem_of_cons, elem_of_nil. destruct dt; intuition congruence.
Qed.

(** X25. [getDetectionsInArea] returns at most [limitCount] stored
    detections, each a defect inside the bounds, without repetition and
    newest first.  It applies the limit before the bounds: a stored defect
    inside the bounds is left out only if [limitCount] stored defects,
    inside the bounds or not, are at least as recent. *)
Theorem getDetectionsInArea_spec (bounds : Bounds) (limitCount : nat)
    (c : Detections) :
  let result := getDetectionsInArea bounds limitCount c in
  (∀ d, d ∈ result →
     c !! d.1 = Some d.2 ∧ Detection.defectType d.2 ≠ normal ∧
     inBounds bounds (Detection.location d.2)) ∧
  length result ≤ limitCount ∧
  NoDup result ∧
  StronglySorted newestFirst result ∧
  (∀ d, c !! d.1 = Some d.2 → Detection.defectType d.2 ≠ normal →
     inBounds bounds (Detection.location d.2) → d ∉ result →
     ∃ newer, length newer = limitCount ∧ NoDup newer ∧
       Forall (λ d', c !! d'.1 = Some d'.2 ∧ Detection.defectType d'.2 ≠ normal ∧
                     (Detection.timestamp d.2 <= Detection.timestamp d'.2)%R) newer).
Proof.
  cbv zeta. unfold getDetectionsInArea, defectsQuery.
  set (P := λ d : DetectionDoc, Detection.defectType d.2 ∈ [pothole; speed_breaker]).
  set (sel := selection newestFirst P c).
  assert (Hsel : ∀ d, d ∈ sel ↔ c !! d.1 = Some d.2 ∧ Detection.defectType d.2 ≠ normal).
  { intros d. unfold sel. rewrite selection_elem. unfold P. by rewrite defect_iff. }
  assert (Hnd : NoDup (take limitCount sel)).
  { apply (sublist_NoDup _ sel); [apply selection_NoDup; apply _|apply sublist_take]. }
  split; [|split; [|split; [|split]]].
  - intros d [Hb Hin]%list_elem_of_filter.
    apply elem_of_take_1, Hsel in Hin as [Hlook Hn].
    done.
  - etrans; [apply length_filter|]. rewrite length_take. lia.
  - by apply NoDup_filter.
  - apply StronglySorted_filter, take_selection_sorted; apply _.
  - intros d Hlook Hn Hb Hout.
    assert (Hin : d ∈ sel) by (by apply Hsel).
    assert (Hnot : d ∉ take limitCount sel).
    { intros Hin'. apply Hout, list_elem_of_filter. done. }
    destruct (take_selection_missed newestFirst P limitCount c d Hin Hnot)
      as [Hlen Hall].
    exists (take limitCount sel). split; [done|]. split; [done|].
    apply Forall_forall. intros d' Hd'.
    rewrite Forall_forall in Hall. specialize (Hall d' Hd').
    apply elem_of_take_1, Hsel in Hd' as [Hlook' Hn'].
    done.
Qed.

(** X26. [getAggregatedReports] returns at most 100 stored reports, each
    with a count of two or more, the most reported first, and no sweep
    deletes any of them. *)
Theorem getAggregatedReports_spec (c : Collection) :
  let result := getAggregatedReports c in
  length result ≤ 100 ∧
  StronglySorted mostReportedFirst result ∧
  ∀ d, d ∈ result →
    c !! d.1 = Some d.2 ∧ 2 ≤ AggregatedReport.reportCount d.2 ∧
    ∀ now, cleanupOldDetections now c !! d.1 = Some d.2.
Proof.
  cbv zeta. unfold getAggregatedReports. split; [|split].
  - rewrite length_take. lia.
  - apply take_selection_sorted; apply _.
  - intros d Hin.
    apply elem_of_take_1, selection_elem in Hin
      as [Hlook H2].
    split; [done|]. split; [done|]. intros now.
    rewrite cleanupOldDetections_lookup, Hlook.
    rewrite decide_False; [done|]. intros [Hone _]. lia.
Qed.

(** *** The admin page *)

Lemma length_defects (l : list DetectionDoc) :
  Forall (λ d, Detection.defectType d.2 ≠ normal) l →
  length l
  = length (filter (λ d, Detection.defectType d.2 = pothole) l)
    + length (filter (λ d, Detection.defectType d.2 = speed_breaker) l).
Proof.
  induction 1 as [|d l Hd _ IH]; [done|].
  rewrite !filter_cons. cbn [length]. rewrite IH.
  destruct (Detection.defectType d.2) eqn:Hdt; [| |done].
  - rewrite decide_True, decide_False by done. cbn [length]. lia.
  - rewrite decide_False, decide_True by done. cbn [length]. lia.
Qed.

Lemma size_list_to_set_le (l : list string) :
  size (list_to_set l : gset string) ≤ length l.
Proof.
  induction l as [|x l IH]; [done|].
  cbn [list_to_set length]. rewrite size_union_alt, size_singleton.
  pose proof (subseteq_size (list_to_set l ∖ {[x]}) (list_to_set l : gset string)
                (subseteq_difference_l _ _ _ (reflexivity _))).
  lia.
Qed.

(** X27. The figures of the admin page, computed from the subscribed
    detections and the fetched reports: the potholes and the speed
    breakers add up to the total, which is at most 200; the volunteers and
    the high-severity detections are at most the total; and the verified
    reports are the public statistics' verified reports, capped at 100. *)
Theorem stats_consistent (detections : Detections) (reports : Collection)
    (method : string) (now : R) (public : Stats.PublicStats) :
  Stats.getPublicStats method now detections reports = Stats.Json public →
  let s := AdminPage.stats (subscribeToDetections detections)
                           (getAggregatedReports reports) in
  AdminPage.totalDetections s = AdminPage.potholes s + AdminPage.speedBreakers s ∧
  AdminPage.totalDetections s ≤ 200 ∧
  AdminPage.totalDetections s ≤ Stats.totalDetections public ∧
  AdminPage.uniqueVolunteers s ≤ AdminPage.totalDetections s ∧
  AdminPage.highSeverity s ≤ AdminPage.totalDetections s ∧
  AdminPage.verifiedReports s = 100 `min` Stats.verifiedReports public.
Proof.
  intros Hpub. cbv zeta. unfold AdminPage.stats.
  cbn [AdminPage.totalDetections AdminPage.potholes AdminPage.speedBreakers
       AdminPage.uniqueVolunteers AdminPage.highSeverity AdminPage.verifiedReports].
  unfold Stats.getPublicStats in Hpub. case_decide; [done|].
  injection Hpub as <-. cbn [Stats.totalDetections Stats.verifiedReports].
  unfold subscribeToDetections, defectsQuery, getAggregatedReports.
  set (P := λ d : DetectionDoc, Detection.defectType d.2 ∈ [pothole; speed_breaker]).
  split; [|split; [|split; [|split; [|split]]]].
  - apply length_defects, Forall_forall. intros d Hin.
    apply elem_of_take_1, selection_elem in Hin
      as [_ Hin]; [|apply _..].
    by apply defect_iff.
  - rewrite length_take. lia.
  - rewrite length_take, selection_length by apply _.
    pose proof (map_size_filter P detections). lia.
  - etrans; [apply size_list_to_set_le|]. by rewrite length_fmap.
  - apply length_filter.
  - rewrite length_take, selection_length by apply _.
    by rewrite StoreFacts.length_get.
Qed.

Lemma stats_consistent_witness :
  let s := AdminPage.stats (subscribeToDetections {["d1"%string := Examples.detection1]})
                           (getAggregatedReports Examples.store1) in
  let public :=
    {| Stats.totalDetections := size ({["d1"%string := Examples.detection1]} : Detections);
       Stats.verifiedReports :=
         length (Firestore.get (λ d, 2 ≤ AggregatedReport.reportCount d.2)
                               Examples.store1);
       Stats.timestamp := 0 |} in
  AdminPage.totalDetections s = AdminPage.potholes s + AdminPage.speedBreakers s ∧
  AdminPage.totalDetections s ≤ 200 ∧
  AdminPage.totalDetections s ≤ Stats.totalDetections public ∧
  AdminPage.uniqueVolunteers s ≤ AdminPage.totalDetections s ∧
  AdminPage.highSeverity s ≤ AdminPage.totalDetections s ∧
  AdminPage.verifiedReports s = 100 `min` Stats.verifiedReports public.
Proof.
  apply (stats_consistent {["d1"%string := Examples.detection1]} Examples.store1
           "GET" 0).
  unfold Stats.getPublicStats. by rewrite decide_False.
Defined.

End DatabaseFacts.
